(** * Cosmos star catalog: specification of [cosmos-visualization.tsx]

    A shallow embedding of the pure and state-passing parts of the React
    component [CosmosVisualization]: the coordinate and appearance mappers,
    the fallback catalog generator, the catalog loader, the position
    resolution of the scene builder, the pointer and wheel handlers and the
    velocity part of the animation frame.

    JavaScript's [number] is an interface here ([JSNumber]) with two
    implementations: IEEE-754 binary64 carried by Rocq's primitive floats
    (the arithmetic a JavaScript engine performs, [Math.cos] and [Math.sin]
    left to the engine), and the real numbers (the arithmetic the formulas
    of the source are written in).  Every function of the source is
    translated once, over the interface. *)

From Stdlib Require Import ZArith QArith Floats Reals Lra Lia Bool.
From Stdlib Require Import Ascii String List DecimalString.
Import ListNotations.

Set Warnings "-register-all,-inexact-float".

(** ** The [number] interface *)

Class JSNumber : Type := {
  number : Type;
  (** a decimal literal of the source text *)
  lit : Q -> number;
  nadd : number -> number -> number;
  nsub : number -> number -> number;
  nmul : number -> number -> number;
  ndiv : number -> number -> number;
  nneg : number -> number;
  (** [a < b] *)
  nlt : number -> number -> bool;
  Math_max : number -> number -> number;
  Math_min : number -> number -> number;
  Math_sqrt : number -> number;
  Math_cos : number -> number;
  Math_sin : number -> number;
  Math_floor : number -> number;
  Math_PI : number;
  (** truthiness of a number, as [||] and [if] test it *)
  ToBoolean : number -> bool;
  (** the array index a number denotes in [arr[n]], if any *)
  ToIndex : number -> option nat;
  (** [n] as a number, for [i + famousStars.length] *)
  of_nat : nat -> number
}.

Declare Scope js_scope.
Delimit Scope js_scope with js.
Bind Scope js_scope with number.
Arguments lit {_} q%_Q.
Notation "a + b" := (nadd a b) : js_scope.
Notation "a - b" := (nsub a b) : js_scope.
Notation "a * b" := (nmul a b) : js_scope.
Notation "a / b" := (ndiv a b) : js_scope.
Notation "- a" := (nneg a) : js_scope.
Notation "a <? b" := (nlt a b) : js_scope.
Notation "a >? b" := (nlt b a) : js_scope.

(** *** IEEE-754 binary64 *)

Module Double.

(** [Math.max]: NaN if an argument is NaN, and [+0] is larger than [-0]. *)
Definition max (a b : float) : float :=
  if is_nan a || is_nan b then PrimFloat.nan
  else if (a <? b)%float then b
  else if (b <? a)%float then a
  else if is_zero a && get_sign a then b else a.

(** [Math.min]: NaN if an argument is NaN, and [-0] is smaller than [+0]. *)
Definition min (a b : float) : float :=
  if is_nan a || is_nan b then PrimFloat.nan
  else if (a <? b)%float then a
  else if (b <? a)%float then b
  else if is_zero a && get_sign a then a else b.

Definition of_Z (z : Z) : float :=
  match z with
  | Z0 => PrimFloat.zero
  | Zpos _ => of_uint63 (Uint63.of_Z z)
  | Zneg p => (- of_uint63 (Uint63.of_Z (Zpos p)))%float
  end.

(** A decimal literal [n / 10^k] denotes the double nearest to it; numerator
    and denominator are integers below 2^53, so the correctly rounded
    quotient of the two is that double. *)
Definition of_literal (q : Q) : float :=
  (of_Z (Qnum q) / of_Z (Zpos (Qden q)))%float.

(** [Math.floor]: doubles with a non-negative exponent, zeros, infinities and
    NaN are returned as they are. *)
Definition floor (f : float) : float :=
  match Prim2SF f with
  | S754_finite s m e =>
      if (0 <=? e)%Z then f else of_Z (Z.shiftl (cond_Zopp s (Zpos m)) e)
  | _ => f
  end.

(** [arr[f]] reads an element only when [f] is a non-negative integer below
    2^32 - 1. *)
Definition to_index (f : float) : option nat :=
  match Prim2SF f with
  | S754_zero _ => Some 0%nat
  | S754_finite false m e =>
      let z := Z.shiftl (Zpos m) e in
      if (Z.shiftl z (- e) =? Zpos m)%Z && (z <? 4294967295)%Z
      then Some (Z.to_nat z) else None
  | _ => None
  end.

Definition truthy (f : float) : bool := negb (is_nan f || is_zero f).

Definition is_finite (f : float) : bool :=
  negb (is_nan f || is_infinity f).

Definition PI : float := 0x1.921fb54442d18p+1%float.

End Double.

(** [Math.cos] and [Math.sin] are implementation-approximated in ECMAScript;
    the binary64 numbers take them as parameters. *)
Definition binary64 (cos64 sin64 : float -> float) : JSNumber := {|
  number := float;
  lit := Double.of_literal;
  nadd := PrimFloat.add;
  nsub := PrimFloat.sub;
  nmul := PrimFloat.mul;
  ndiv := PrimFloat.div;
  nneg := PrimFloat.opp;
  nlt := PrimFloat.ltb;
  Math_max := Double.max;
  Math_min := Double.min;
  Math_sqrt := PrimFloat.sqrt;
  Math_cos := cos64;
  Math_sin := sin64;
  Math_floor := Double.floor;
  Math_PI := Double.PI;
  ToBoolean := Double.truthy;
  ToIndex := Double.to_index;
  of_nat := fun n => Double.of_Z (Z.of_nat n)
|}.

(** *** Real numbers *)

Module Exact.

Definition lt (a b : R) : bool := if Rlt_dec a b then true else false.

Definition truthy (a : R) : bool := if Req_dec_T a 0 then false else true.

Definition floor (a : R) : R := IZR (Int_part a).

Definition to_index (a : R) : option nat :=
  if Rle_dec 0 a then
    if Req_dec_T (IZR (Int_part a)) a then Some (Z.to_nat (Int_part a))
    else None
  else None.

End Exact.

Definition exact : JSNumber := {|
  number := R;
  lit := Q2R;
  nadd := Rplus;
  nsub := Rminus;
  nmul := Rmult;
  ndiv := Rdiv;
  nneg := Ropp;
  nlt := Exact.lt;
  Math_max := Rmax;
  Math_min := Rmin;
  Math_sqrt := sqrt;
  Math_cos := cos;
  Math_sin := sin;
  Math_floor := Exact.floor;
  Math_PI := PI;
  ToBoolean := Exact.truthy;
  ToIndex := Exact.to_index;
  of_nat := INR
|}.

(** ** Exceptions, the random source and the React state *)

(** What a [catch] clause can receive. *)
Inductive Exn : Type :=
| Error (message : string)
| TypeError (message : string)
| SyntaxError (message : string)
| Rejection (reason : string).

(** [`${err}`] of a caught value. *)
Definition Exn_toString (e : Exn) : string :=
  match e with
  | Error m => "Error: " ++ m
  | TypeError m => "TypeError: " ++ m
  | SyntaxError m => "SyntaxError: " ++ m
  | Rejection m => m
  end.

(** The [useState] cells the modelled code writes. *)
Record UIState : Type := {
  starCount : nat;
  loading : bool;
  error : string
}.

Section Program.

Context {N : JSNumber}.
Local Open Scope js_scope.

(** [Math.random()]: the engine's sequence of draws and how many were taken. *)
Record Rng : Type := { draws : nat -> number; taken : nat }.

Record World : Type := { rng : Rng; ui : UIState }.

(** A computation that reads and writes the world and returns or throws. *)
Definition Eff (A : Type) : Type := World -> (Exn + A) * World.

Definition ret {A} (a : A) : Eff A := fun w => (inr a, w).

Definition throw {A} (e : Exn) : Eff A := fun w => (inl e, w).

Definition bind {A B} (m : Eff A) (k : A -> Eff B) : Eff B :=
  fun w =>
    match m w with
    | (inr a, w') => k a w'
    | (inl e, w') => (inl e, w')
    end.

(** [try { m } catch (e) { h e }] *)
Definition try_catch {A} (m : Eff A) (h : Exn -> Eff A) : Eff A :=
  fun w =>
    match m w with
    | (inr a, w') => (inr a, w')
    | (inl e, w') => h e w'
    end.

(** [try { m } finally { f }]: [f] runs on both exits and keeps the outcome of
    [m] unless it throws itself. *)
Definition try_finally {A} (m : Eff A) (f : Eff unit) : Eff A :=
  fun w =>
    let '(r, w') := m w in
    match f w' with
    | (inr _, w'') => (r, w'')
    | (inl e, w'') => (inl e, w'')
    end.

Notation "x <- m ;; k" := (bind m (fun x => k))
  (at level 61, m at next level, right associativity).
Notation "m ;;; k" := (bind m (fun _ => k))
  (at level 61, right associativity).

Definition Math_random : Eff number :=
  fun w =>
    let g := rng w in
    (inr (draws g (taken g)),
     {| rng := {| draws := draws g; taken := S (taken g) |}; ui := ui w |}).

Definition setStarCount (n : nat) : Eff unit :=
  fun w =>
    (inr tt, {| rng := rng w;
                ui := {| starCount := n; loading := loading (ui w);
                         error := error (ui w) |} |}).

Definition setLoading (b : bool) : Eff unit :=
  fun w =>
    (inr tt, {| rng := rng w;
                ui := {| starCount := starCount (ui w); loading := b;
                         error := error (ui w) |} |}).

Definition setError (s : string) : Eff unit :=
  fun w =>
    (inr tt, {| rng := rng w;
                ui := {| starCount := starCount (ui w);
                         loading := loading (ui w); error := s |} |}).

(** ** Data model *)

Inductive StarId : Type :=
| IdString (s : string)
| IdNumber (n : number).

(** [interface StarData]: every field is optional. *)
Record StarData : Type := {
  star_id : option StarId;
  star_name : option string;
  star_ra : option number;
  star_dec : option number;
  star_mag : option number;
  star_bv : option number;
  star_distance : option number;
  star_x : option number;
  star_y : option number;
  star_z : option number;
  star_spectralClass : option string
}.

(** [THREE.Vector3] and [THREE.Color], as the triples they store. *)
Record Vector3 : Type := { vx : number; vy : number; vz : number }.
Record Color : Type := { cr : number; cg : number; cb : number }.

(** [new THREE.Vector3(x, y, z)] and [new THREE.Color(r, g, b)] *)
Definition THREE_Vector3 (x y z : number) : Vector3 :=
  {| vx := x; vy := y; vz := z |}.
Definition THREE_Color (r g b : number) : Color :=
  {| cr := r; cg := g; cb := b |}.

(** ** Coordinate mapper *)

(** [astronomicalToCartesian(ra, dec, distance = 50)] *)
Definition astronomicalToCartesian
    (ra dec : number) (distance : option number) : Vector3 :=
  let distance := match distance with Some d => d | None => lit 50 end in
  let raRad := (ra * lit 15) * (Math_PI / lit 180) in
  let decRad := dec * (Math_PI / lit 180) in
  let x := distance * Math_cos decRad * Math_cos raRad in
  let y := distance * Math_sin decRad in
  let z := distance * Math_cos decRad * Math_sin raRad in
  THREE_Vector3 x y z.

(** ** Appearance mapper *)

Definition toUpperCase_ascii (c : ascii) : ascii :=
  let n := nat_of_ascii c in
  if (97 <=? n)%nat && (n <=? 122)%nat then ascii_of_nat (n - 32) else c.

(** [s.charAt(0).toUpperCase()] *)
Definition charAt0_toUpperCase (s : string) : string :=
  match s with
  | EmptyString => EmptyString
  | String c _ => String (toUpperCase_ascii c) EmptyString
  end.

(** Truthiness of a string: the empty string is falsy. *)
Definition string_truthy (s : string) : bool :=
  match s with EmptyString => false | String _ _ => true end.

(** [getStarColor(bv?, spectralClass?)] *)
Definition getStarColor
    (bv : option number) (spectralClass : option string) : Eff Color :=
  match bv with
  | Some bv =>
      ret (if bv <? - lit 0.4 then THREE_Color (lit 0.6) (lit 0.8) (lit 1.0)
           else if bv <? lit 0 then THREE_Color (lit 0.8) (lit 0.9) (lit 1.0)
           else if bv <? lit 0.5 then THREE_Color (lit 1.0) (lit 1.0) (lit 1.0)
           else if bv <? lit 1.0 then THREE_Color (lit 1.0) (lit 1.0) (lit 0.7)
           else if bv <? lit 1.5 then THREE_Color (lit 1.0) (lit 0.7) (lit 0.4)
           else THREE_Color (lit 1.0) (lit 0.5) (lit 0.3))
  | None =>
      let by_class (s : string) : Color :=
        let type := charAt0_toUpperCase s in
        if String.eqb type "O" then THREE_Color (lit 0.6) (lit 0.8) (lit 1.0)
        else if String.eqb type "B" then THREE_Color (lit 0.8) (lit 0.9) (lit 1.0)
        else if String.eqb type "A" then THREE_Color (lit 1.0) (lit 1.0) (lit 1.0)
        else if String.eqb type "F" then THREE_Color (lit 1.0) (lit 1.0) (lit 0.9)
        else if String.eqb type "G" then THREE_Color (lit 1.0) (lit 1.0) (lit 0.7)
        else if String.eqb type "K" then THREE_Color (lit 1.0) (lit 0.7) (lit 0.4)
        else if String.eqb type "M" then THREE_Color (lit 1.0) (lit 0.5) (lit 0.3)
        else THREE_Color (lit 1.0) (lit 1.0) (lit 1.0) in
      let jitter : Eff Color :=
        r1 <- Math_random ;;
        r2 <- Math_random ;;
        r3 <- Math_random ;;
        ret (THREE_Color (lit 0.8 + r1 * lit 0.2)
                         (lit 0.8 + r2 * lit 0.2)
                         (lit 0.8 + r3 * lit 0.2)) in
      match spectralClass with
      | Some s => if string_truthy s then ret (by_class s) else jitter
      | None => jitter
      end
  end.

(** [magnitudeToSize(mag?)] *)
Definition magnitudeToSize (mag : option number) : number :=
  match mag with
  | None => lit 1.0
  | Some mag =>
      let size := Math_max (lit 0.5) (lit 3.0 - (mag + lit 2) * lit 0.5) in
      size
  end.

(** ** Fallback catalog *)

Definition famous (name : string) (ra dec mag bv : number) (cls : string)
  : StarData :=
  {| star_id := None; star_name := Some name;
     star_ra := Some ra; star_dec := Some dec;
     star_mag := Some mag; star_bv := Some bv;
     star_distance := None;
     star_x := None; star_y := None; star_z := None;
     star_spectralClass := Some cls |}.

Definition famousStars : list StarData :=
  [ famous "Sirius" (lit 6.75) (- lit 16.72) (- lit 1.46) (lit 0.00) "A1V";
    famous "Canopus" (lit 6.4) (- lit 52.7) (- lit 0.74) (lit 0.15) "A9II";
    famous "Arcturus" (lit 14.26) (lit 19.18) (- lit 0.05) (lit 1.23) "K1.5III";
    famous "Vega" (lit 18.62) (lit 38.78) (lit 0.03) (lit 0.00) "A0V";
    famous "Capella" (lit 5.28) (lit 45.99) (lit 0.08) (lit 0.80) "G5III";
    famous "Rigel" (lit 5.24) (- lit 8.20) (lit 0.13) (- lit 0.03) "B8Iae";
    famous "Procyon" (lit 7.65) (lit 5.23) (lit 0.34) (lit 0.42) "F5IV-V";
    famous "Betelgeuse" (lit 5.92) (lit 7.41) (lit 0.50) (lit 1.85) "M1-2Ia-Iab";
    famous "Achernar" (lit 1.63) (- lit 57.24) (lit 0.46) (- lit 0.19) "B6Vep";
    famous "Altair" (lit 19.85) (lit 8.87) (lit 0.77) (lit 0.22) "A7V" ].

Definition spectralLetters : list string :=
  ["O"; "B"; "A"; "F"; "G"; "K"; "M"]%string.

(** [arr[n]]: [undefined] when [n] is not an index of [arr]. *)
Definition element_at {A} (arr : list A) (n : number) : option A :=
  match ToIndex n with
  | Some i => nth_error arr i
  | None => None
  end.

(** The decimal digits of a loop counter, for [`Star-${i}`]. *)
Definition nat_toString (i : nat) : string :=
  NilEmpty.string_of_uint (Nat.to_uint i).

(** The object pushed by iteration [i] of the generator's loop. *)
Definition randomStar (i : nat) : Eff StarData :=
  r_ra <- Math_random ;;
  r_dec <- Math_random ;;
  r_mag <- Math_random ;;
  r_bv <- Math_random ;;
  r_cls <- Math_random ;;
  ret {| star_id := Some (IdNumber (of_nat i + of_nat (length famousStars)));
         star_name := Some ("Star-" ++ nat_toString i)%string;
         star_ra := Some (r_ra * lit 24);
         star_dec := Some ((r_dec - lit 0.5) * lit 180);
         star_mag := Some (r_mag * lit 8 - lit 1);
         star_bv := Some ((r_bv - lit 0.3) * lit 2);
         star_distance := None;
         star_x := None; star_y := None; star_z := None;
         star_spectralClass :=
           element_at spectralLetters (Math_floor (r_cls * lit 7)) |}.

(** [for (let i = from; i < from + count; i++) sampleStars.push({...})],
    returning the pushed objects in order. *)
Fixpoint randomStars (count from : nat) : Eff (list StarData) :=
  match count with
  | O => ret []
  | S count' =>
      star <- randomStar from ;;
      rest <- randomStars count' (S from) ;;
      ret (star :: rest)
  end.

(** [generateSampleStarData()] *)
Definition generateSampleStarData : Eff (list StarData) :=
  generated <- randomStars 2000 0 ;;
  ret (famousStars ++ generated).

(** ** Data loader *)

(** What [JSON.parse] returns.  The elements of an array are taken at the
    type the source assigns them, [StarData]. *)
Inductive JSValue : Type :=
| JNull
| JBool (b : bool)
| JNumber (n : number)
| JString (s : string)
| JArray (elems : list StarData)
| JObject (props : list (string * JSValue)).

(** [window.fs]: the optional file capability and its optional [readFile],
    which resolves to the file's text or rejects. *)
Record FileSystem : Type := { readFile : option (string -> Exn + string) }.
Record Window : Type := { fs : option FileSystem }.

Section Loader.

(** [JSON.parse], which returns a value or throws a [SyntaxError]. *)
Variable JSON_parse : string -> Exn + JSValue.

Definition lift {A} (r : Exn + A) : Eff A :=
  match r with
  | inr a => ret a
  | inl e => throw e
  end.

Fixpoint lookup (key : string) (props : list (string * JSValue))
  : option JSValue :=
  match props with
  | [] => None
  | (k, v) :: rest => if String.eqb k key then Some v else lookup key rest
  end.

(** [v.key]: a [TypeError] on [null], [undefined] when there is no such
    property. *)
Definition get_property (v : JSValue) (key : string) : Eff (option JSValue) :=
  match v with
  | JNull => throw (TypeError "Cannot read properties of null")
  | JObject props => ret (lookup key props)
  | _ => ret None
  end.

Definition truthy (v : option JSValue) : bool :=
  match v with
  | None | Some JNull => false
  | Some (JBool b) => b
  | Some (JNumber n) => ToBoolean n
  | Some (JString s) => string_truthy s
  | Some (JArray _) | Some (JObject _) => true
  end.

Definition Array_isArray (v : option JSValue) : bool :=
  match v with
  | Some (JArray _) => true
  | _ => false
  end.

(** The elements of a value for which [Array_isArray] holds. *)
Definition as_array (v : option JSValue) : list StarData :=
  match v with
  | Some (JArray elems) => elems
  | _ => []
  end.

(** The body of the inner [try]: read [data.json], parse it and take the
    array it holds. *)
Definition readCatalog (window : Window) : Eff (list StarData) :=
  match fs window with
  | Some {| readFile := Some read |} =>
      fileData <- lift (read "data.json"%string) ;;
      parsed <- lift (JSON_parse fileData) ;;
      if Array_isArray (Some parsed) then ret (as_array (Some parsed))
      else
        stars <- get_property parsed "stars" ;;
        if truthy stars && Array_isArray stars then ret (as_array stars)
        else
          catalog <- get_property parsed "catalog" ;;
          if truthy catalog && Array_isArray catalog
          then ret (as_array catalog)
          else throw (Error "Invalid JSON structure")
  | _ => throw (Error "File system not available")
  end.

(** [loadStarData()] *)
Definition loadStarData (window : Window) : Eff (list StarData) :=
  try_finally
    (try_catch
       (setLoading true ;;;
        setError "" ;;;
        starData <- try_catch (readCatalog window)
                              (fun fileError => generateSampleStarData) ;;
        setStarCount (length starData) ;;;
        ret starData)
       (fun err =>
          setError ("Error loading star data: " ++ Exn_toString err) ;;;
          generateSampleStarData))
    (setLoading false).

End Loader.

(** ** Scene builder *)

(** One [THREE.Points] of the scene: what it is drawn with and the record
    and index kept in [userData]. *)
Record Renderable : Type := {
  position : Vector3;
  color : Color;
  size : number;
  opacity : number;
  userData : StarData * nat
}.

(** [star.distance || 50 + Math.random() * 200] *)
Definition starDistance (star : StarData) : Eff number :=
  let substitute := (r <- Math_random ;; ret (lit 50 + r * lit 200)) in
  match star_distance star with
  | Some d => if ToBoolean d then ret d else substitute
  | None => substitute
  end.

(** The position [createStarVisualization] gives a record. *)
Definition starPosition (star : StarData) : Eff Vector3 :=
  match star_x star, star_y star, star_z star with
  | Some x, Some y, Some z => ret (THREE_Vector3 x y z)
  | _, _, _ =>
      match star_ra star, star_dec star with
      | Some ra, Some dec =>
          distance <- starDistance star ;;
          ret (astronomicalToCartesian ra dec (Some distance))
      | _, _ =>
          r1 <- Math_random ;;
          r2 <- Math_random ;;
          r3 <- Math_random ;;
          ret (THREE_Vector3 ((r1 - lit 0.5) * lit 1000)
                             ((r2 - lit 0.5) * lit 1000)
                             ((r3 - lit 0.5) * lit 1000))
      end
  end.

(** [star.mag || 0] *)
Definition magOrZero (star : StarData) : number :=
  match star_mag star with
  | Some m => if ToBoolean m then m else lit 0
  | None => lit 0
  end.

(** The body of [starData.forEach((star, index) => ...)]. *)
Definition createStar (star : StarData) (index : nat) : Eff Renderable :=
  pos <- starPosition star ;;
  col <- getStarColor (star_bv star) (star_spectralClass star) ;;
  let size := magnitudeToSize (star_mag star) in
  ret {| position := pos;
         color := col;
         size := size;
         opacity := Math_max (lit 0.3) (lit 1.0 - magOrZero star * lit 0.1);
         userData := (star, index) |}.

Fixpoint createStars (starData : list StarData) (index : nat)
  : Eff (list Renderable) :=
  match starData with
  | [] => ret []
  | star :: rest =>
      mesh <- createStar star index ;;
      meshes <- createStars rest (S index) ;;
      ret (mesh :: meshes)
  end.

(** ** Input controller *)

(** The [THREE.Vector3] methods the controller calls. *)
Definition Vector3_zero : Vector3 := THREE_Vector3 (lit 0) (lit 0) (lit 0).

Definition Vector3_length (v : Vector3) : number :=
  Math_sqrt (vx v * vx v + vy v * vy v + vz v * vz v).

Definition multiplyScalar (v : Vector3) (s : number) : Vector3 :=
  {| vx := vx v * s; vy := vy v * s; vz := vz v * s |}.

Definition Vector3_add (v w : Vector3) : Vector3 :=
  {| vx := vx v + vx w; vy := vy v + vy w; vz := vz v + vz w |}.

Definition addScaledVector (v w : Vector3) (s : number) : Vector3 :=
  {| vx := vx v + vx w * s; vy := vy v + vy w * s; vz := vz v + vz w * s |}.

Definition lerp (v w : Vector3) (alpha : number) : Vector3 :=
  {| vx := vx v + (vx w - vx v) * alpha;
     vy := vy v + (vy w - vy v) * alpha;
     vz := vz v + (vz w - vz v) * alpha |}.

Definition crossVectors (a b : Vector3) : Vector3 :=
  {| vx := vy a * vz b - vz a * vy b;
     vy := vz a * vx b - vx a * vz b;
     vz := vx a * vy b - vy a * vx b |}.

(** [v.normalize()], that is [v.divideScalar(v.length() || 1)]. *)
Definition normalize (v : Vector3) : Vector3 :=
  let len := Vector3_length v in
  multiplyScalar v (lit 1 / (if ToBoolean len then len else lit 1)).

(** [controlsRef.current] *)
Record ControlState : Type := {
  mouseDown : bool;
  mouseX : number;
  mouseY : number;
  targetRotationX : number;
  targetRotationY : number;
  currentRotationX : number;
  currentRotationY : number;
  zoom : number;
  targetZoom : number;
  velocity : Vector3;
  acceleration : Vector3;
  baseSpeed : number;
  acceleratedSpeed : number;
  isAccelerating : bool;
  keys : list (string * bool)
}.

Definition initialControls : ControlState :=
  {| mouseDown := false;
     mouseX := lit 0;
     mouseY := lit 0;
     targetRotationX := lit 0;
     targetRotationY := lit 0;
     currentRotationX := lit 0;
     currentRotationY := lit 0;
     zoom := lit 500;
     targetZoom := lit 500;
     velocity := Vector3_zero;
     acceleration := Vector3_zero;
     baseSpeed := lit 5;
     acceleratedSpeed := lit 50;
     isAccelerating := false;
     keys := [] |}.

(** [keys[code]], [undefined] read as [false]. *)
Fixpoint key (code : string) (ks : list (string * bool)) : bool :=
  match ks with
  | [] => false
  | (k, pressed) :: rest => if String.eqb k code then pressed else key code rest
  end.

(** [keys[code] = pressed] *)
Fixpoint set_key (code : string) (pressed : bool) (ks : list (string * bool))
  : list (string * bool) :=
  match ks with
  | [] => [(code, pressed)]
  | (k, p) :: rest =>
      if String.eqb k code then (k, pressed) :: rest
      else (k, p) :: set_key code pressed rest
  end.

Definition with_keys (c : ControlState) (ks : list (string * bool))
  : ControlState :=
  {| mouseDown := mouseDown c; mouseX := mouseX c; mouseY := mouseY c;
     targetRotationX := targetRotationX c;
     targetRotationY := targetRotationY c;
     currentRotationX := currentRotationX c;
     currentRotationY := currentRotationY c;
     zoom := zoom c; targetZoom := targetZoom c;
     velocity := velocity c; acceleration := acceleration c;
     baseSpeed := baseSpeed c; acceleratedSpeed := acceleratedSpeed c;
     isAccelerating := key "ShiftLeft" ks || key "ShiftRight" ks;
     keys := ks |}.

(** [handleKeyDown] and [handleKeyUp] *)
Definition handleKeyDown (code : string) (c : ControlState) : ControlState :=
  with_keys c (set_key code true (keys c)).

Definition handleKeyUp (code : string) (c : ControlState) : ControlState :=
  with_keys c (set_key code false (keys c)).

Definition with_mouse (c : ControlState) (down : bool) (x y : number)
    (rotX rotY : number) : ControlState :=
  {| mouseDown := down; mouseX := x; mouseY := y;
     targetRotationX := rotX;
     targetRotationY := rotY;
     currentRotationX := currentRotationX c;
     currentRotationY := currentRotationY c;
     zoom := zoom c; targetZoom := targetZoom c;
     velocity := velocity c; acceleration := acceleration c;
     baseSpeed := baseSpeed c; acceleratedSpeed := acceleratedSpeed c;
     isAccelerating := isAccelerating c;
     keys := keys c |}.

(** [handleMouseDown(event)] *)
Definition handleMouseDown (clientX clientY : number) (c : ControlState)
  : ControlState :=
  with_mouse c true clientX clientY (targetRotationX c) (targetRotationY c).

(** [handleMouseUp()] *)
Definition handleMouseUp (c : ControlState) : ControlState :=
  with_mouse c false (mouseX c) (mouseY c)
             (targetRotationX c) (targetRotationY c).

(** [handleMouseMove(event)], the orbit part.  [mounted] tells whether the
    four refs the handler tests first are set. *)
Definition handleMouseMove (mounted : bool) (clientX clientY : number)
    (c : ControlState) : ControlState :=
  if negb mounted then c
  else if mouseDown c then
    let deltaX := clientX - mouseX c in
    let deltaY := clientY - mouseY c in
    let rotY := targetRotationY c + deltaX * lit 0.01 in
    let rotX := targetRotationX c + deltaY * lit 0.01 in
    let rotX := Math_max (- Math_PI / lit 2) (Math_min (Math_PI / lit 2) rotX) in
    with_mouse c (mouseDown c) clientX clientY rotX rotY
  else c.

Definition with_targetZoom (c : ControlState) (z : number) : ControlState :=
  {| mouseDown := mouseDown c; mouseX := mouseX c; mouseY := mouseY c;
     targetRotationX := targetRotationX c;
     targetRotationY := targetRotationY c;
     currentRotationX := currentRotationX c;
     currentRotationY := currentRotationY c;
     zoom := zoom c; targetZoom := z;
     velocity := velocity c; acceleration := acceleration c;
     baseSpeed := baseSpeed c; acceleratedSpeed := acceleratedSpeed c;
     isAccelerating := isAccelerating c;
     keys := keys c |}.

(** [handleWheel(event)] *)
Definition handleWheel (deltaY : number) (c : ControlState) : ControlState :=
  let zoomSpeed := zoom c * lit 0.1 in
  let z := targetZoom c + (if deltaY >? lit 0 then zoomSpeed else - zoomSpeed) in
  with_targetZoom c (Math_max (lit 10) (Math_min (lit 2000) z)).

(** ** Render loop *)

Definition with_motion (c : ControlState) (vel acc : Vector3)
    (rotX rotY z : number) : ControlState :=
  {| mouseDown := mouseDown c; mouseX := mouseX c; mouseY := mouseY c;
     targetRotationX := targetRotationX c;
     targetRotationY := targetRotationY c;
     currentRotationX := rotX;
     currentRotationY := rotY;
     zoom := z; targetZoom := targetZoom c;
     velocity := vel; acceleration := acc;
     baseSpeed := baseSpeed c; acceleratedSpeed := acceleratedSpeed c;
     isAccelerating := isAccelerating c;
     keys := keys c |}.

(** What a frame reads and writes: the controls, [camera.position] and the
    [movementSpeed] cell. *)
Record Frame : Type := {
  controls : ControlState;
  cameraPosition : Vector3;
  movementSpeed : number
}.

(** The movement vector the held keys ask for. *)
Definition moveVector (c : ControlState) : Vector3 :=
  let ks := keys c in
  let currentSpeed :=
    if isAccelerating c then acceleratedSpeed c else baseSpeed c in
  let z0 := lit 0 in
  let z1 := if key "KeyW" ks || key "ArrowUp" ks then z0 - currentSpeed else z0 in
  let z2 := if key "KeyS" ks || key "ArrowDown" ks then z1 + currentSpeed else z1 in
  let x0 := lit 0 in
  let x1 := if key "KeyA" ks || key "ArrowLeft" ks then x0 - currentSpeed else x0 in
  let x2 := if key "KeyD" ks || key "ArrowRight" ks then x1 + currentSpeed else x1 in
  let y0 := lit 0 in
  let y1 := if key "KeyQ" ks || key "Space" ks then y0 + currentSpeed else y0 in
  let y2 := if key "KeyE" ks || key "ControlLeft" ks then y1 - currentSpeed else y1 in
  THREE_Vector3 x2 y2 z2.

(** One call of [animate], without the drawing.  [cameraDirection] is what
    [camera.getWorldDirection] returns in this frame and [cameraUp] is
    [camera.up]. *)
Definition animate (cameraDirection cameraUp : Vector3) (f : Frame) : Frame :=
  let c := controls f in
  let mv := moveVector c in
  let '(vel, acc, pos, speed) :=
    if Vector3_length mv >? lit 0 then
      let right := normalize (crossVectors cameraDirection cameraUp) in
      let up := normalize (crossVectors right cameraDirection) in
      let worldMovement :=
        addScaledVector
          (addScaledVector
             (addScaledVector Vector3_zero cameraDirection (- vz mv))
             right (vx mv))
          up (vy mv) in
      let acc := worldMovement in
      let vel := lerp (velocity c) acc (lit 0.1) in
      (vel, acc, Vector3_add (cameraPosition f) vel, Vector3_length vel)
    else
      let vel := multiplyScalar (velocity c) (lit 0.9) in
      let acc := Vector3_zero in
      if Vector3_length vel <? lit 0.1
      then (Vector3_zero, acc, cameraPosition f, lit 0)
      else (vel, acc, cameraPosition f, Vector3_length vel) in
  let ks := keys c in
  let '(rotX, rotY, pos) :=
    if negb (key "KeyW" ks) && negb (key "KeyS" ks)
       && negb (key "KeyA" ks) && negb (key "KeyD" ks)
    then
      let rotX :=
        currentRotationX c
        + (targetRotationX c - currentRotationX c) * lit 0.05 in
      let rotY :=
        currentRotationY c
        + (targetRotationY c - currentRotationY c) * lit 0.05 in
      let orbitPosition :=
        THREE_Vector3 (Math_sin rotY * zoom c)
                      (Math_sin rotX * zoom c * lit 0.5)
                      (Math_cos rotY * zoom c) in
      if Vector3_length vel <? lit 0.1
      then (rotX, rotY, orbitPosition)
      else (rotX, rotY, pos)
    else (currentRotationX c, currentRotationY c, pos) in
  let z := zoom c + (targetZoom c - zoom c) * lit 0.1 in
  {| controls := with_motion c vel acc rotX rotY z;
     cameraPosition := pos;
     movementSpeed := speed |}.

(** [n] frames in a row; [camera k] is the camera's direction and up vector
    in frame [k]. *)
Fixpoint frames (camera : nat -> Vector3 * Vector3) (n : nat) (f : Frame)
  : Frame :=
  match n with
  | O => f
  | S n' =>
      let f' := frames camera n' f in
      animate (fst (camera n')) (snd (camera n')) f'
  end.

(** No key that moves the camera is held. *)
Definition noMovementKey (c : ControlState) : bool :=
  let ks := keys c in
  negb (key "KeyW" ks || key "ArrowUp" ks
        || key "KeyS" ks || key "ArrowDown" ks
        || key "KeyA" ks || key "ArrowLeft" ks
        || key "KeyD" ks || key "ArrowRight" ks
        || key "KeyQ" ks || key "Space" ks
        || key "KeyE" ks || key "ControlLeft" ks).

(** ** Pointer and wheel events *)

Inductive InputEvent : Type :=
| MouseDown (clientX clientY : number)
| MouseUp
| MouseMove (mounted : bool) (clientX clientY : number)
| Wheel (deltaY : number).

Definition handle (e : InputEvent) (c : ControlState) : ControlState :=
  match e with
  | MouseDown x y => handleMouseDown x y c
  | MouseUp => handleMouseUp c
  | MouseMove mounted x y => handleMouseMove mounted x y c
  | Wheel deltaY => handleWheel deltaY c
  end.

(** The controls after the events of [es], handled first to last. *)
Definition handleAll (es : list InputEvent) (c : ControlState) : ControlState :=
  fold_left (fun c e => handle e c) es c.

(** ** Vocabulary of the properties *)

(** The pointer coordinates an event carries. *)
Definition eventCoordinates (e : InputEvent) : list number :=
  match e with
  | MouseDown x y | MouseMove _ x y => [x; y]
  | MouseUp | Wheel _ => []
  end.

(** The velocity a frame leaves when no movement key is held. *)
Definition decay (v : Vector3) : Vector3 :=
  let v' := multiplyScalar v (lit 0.9) in
  if Vector3_length v' <? lit 0.1 then Vector3_zero else v'.

(** The three components of a vector. *)
Definition components (v : Vector3) : number * number * number :=
  (vx v, vy v, vz v).

(** The world after [k] more draws. *)
Definition advance (k : nat) (w : World) : World :=
  {| rng := {| draws := draws (rng w); taken := k + taken (rng w) |};
     ui := ui w |}.

(** The world with the three cells of the loader set. *)
Definition with_ui (w : World) (count : nat) (busy : bool) (msg : string)
  : World :=
  {| rng := rng w;
     ui := {| starCount := count; loading := busy; error := msg |} |}.

(** The world in which the inner [try] of the loader starts. *)
Definition started (w : World) : World :=
  with_ui w (starCount (ui w)) true "".

(** A record without its [distance] field. *)
Definition withoutDistance (star : StarData) : StarData :=
  {| star_id := star_id star; star_name := star_name star;
     star_ra := star_ra star; star_dec := star_dec star;
     star_mag := star_mag star; star_bv := star_bv star;
     star_distance := None;
     star_x := star_x star; star_y := star_y star; star_z := star_z star;
     star_spectralClass := star_spectralClass star |}.

(** The B-V index of entry [k] of a returned catalog. *)
Definition bvOfEntry (k : nat) (returned : Exn + list StarData)
  : option number :=
  match returned with
  | inr catalog =>
      match nth_error catalog k with
      | Some star => star_bv star
      | None => None
      end
  | inl _ => None
  end.

(** The record gives all three of [x], [y] and [z]. *)
Definition hasCartesian (star : StarData) : bool :=
  match star_x star, star_y star, star_z star with
  | Some _, Some _, Some _ => true
  | _, _, _ => false
  end.

Section LoaderVocabulary.

Variable JSON_parse : string -> Exn + JSValue.

(** The array a parsed value is accepted for, in the words of the
    specification: a bare array, an object with a [stars] array, or an object
    with a [catalog] array; any other shape is invalid. *)
Definition acceptedShape (v : JSValue) : option (list StarData) :=
  match v with
  | JArray elems => Some elems
  | JObject props =>
      match lookup "stars" props with
      | Some (JArray elems) => Some elems
      | _ =>
          match lookup "catalog" props with
          | Some (JArray elems) => Some elems
          | _ => None
          end
      end
  | _ => None
  end.

(** What the inner [try] throws for a value of no accepted shape. *)
Definition shapeError (v : JSValue) : Exn :=
  match v with
  | JNull => TypeError "Cannot read properties of null"
  | _ => Error "Invalid JSON structure"
  end.

(** The outcomes of reading and parsing [data.json]: no file capability, a
    rejected read, malformed JSON, or a parsed value. *)
Inductive FileOutcome (window : Window) : Exn + JSValue -> Prop :=
| NoFileSystem :
    fs window = None ->
    FileOutcome window (inl (Error "File system not available"))
| NoReadFile :
    fs window = Some {| readFile := None |} ->
    FileOutcome window (inl (Error "File system not available"))
| ReadRejected read e :
    fs window = Some {| readFile := Some read |} ->
    read "data.json"%string = inl e ->
    FileOutcome window (inl e)
| Malformed read text e :
    fs window = Some {| readFile := Some read |} ->
    read "data.json"%string = inr text ->
    JSON_parse text = inl e ->
    FileOutcome window (inl e)
| Parsed read text v :
    fs window = Some {| readFile := Some read |} ->
    read "data.json"%string = inr text ->
    JSON_parse text = inr v ->
    FileOutcome window (inr v).

(** The file read is unavailable, the content is malformed JSON, or the
    parsed value has none of the three accepted shapes. *)
Definition CatalogUnavailable (window : Window) : Prop :=
  (exists e, FileOutcome window (inl e))
  \/ (exists v, FileOutcome window (inr v) /\ acceptedShape v = None).

End LoaderVocabulary.

End Program.

(** *** Vocabulary over binary64 *)

(** A zero or a finite non-zero number of the IEEE specification. *)
Definition SFfinite (x : spec_float) : Prop :=
  match x with
  | S754_zero _ | S754_finite _ _ _ => True
  | _ => False
  end.

(** The place of a number of the IEEE specification in the order of the
    extended reals: its class, then exponent and mantissa. *)
Definition SFkey (x : spec_float) : Z * Z * Z :=
  match x with
  | S754_infinity true => (-2, 0, 0)%Z
  | S754_finite true m e => (-1, - e, Zneg m)%Z
  | S754_zero _ | S754_nan => (0, 0, 0)%Z
  | S754_finite false m e => (1, e, Zpos m)%Z
  | S754_infinity false => (2, 0, 0)%Z
  end.

Definition lex_le (a b : Z * Z * Z) : Prop :=
  let '(a1, a2, a3) := a in
  let '(b1, b2, b3) := b in
  (a1 < b1 \/ (a1 = b1 /\ (a2 < b2 \/ (a2 = b2 /\ a3 <= b3))))%Z.

(** The events carry finite pointer coordinates, as DOM events do. *)
Definition finiteEvents (events : list (list float)) : bool :=
  forallb (forallb Double.is_finite) events.

Section ControlLimits.

Variables cos64 sin64 : float -> float.

(** The two targets are within their limits. *)
Definition withinLimits (c : @ControlState (binary64 cos64 sin64)) : Prop :=
  (10 <=? targetZoom c)%float = true
  /\ (targetZoom c <=? 2000)%float = true
  /\ (- Double.PI / 2 <=? targetRotationX c)%float = true
  /\ (targetRotationX c <=? Double.PI / 2)%float = true.

(** The invariant of the event handlers: the targets are within their
    limits, the zoom is a number and the last pointer position is finite. *)
Definition steady (c : @ControlState (binary64 cos64 sin64)) : Prop :=
  withinLimits c
  /\ is_nan (zoom c) = false
  /\ Double.is_finite (mouseX c) = true
  /\ Double.is_finite (mouseY c) = true.

End ControlLimits.

(** *** Vocabulary over the reals *)

(** The number of frames after which a velocity of magnitude [speed] has
    decayed to zero. *)
Definition decayFrames (speed : R) : nat := Z.to_nat (up (90 * speed)).

(** *** Vocabulary for rounding in binary64 *)

Section RoundingVocabulary.

Local Open Scope R_scope.

(** [2 ^ e] for an integer exponent. *)
Definition bpow (e : Z) : R := powerRZ 2 e.

(** The real number [m * 2 ^ e]. *)
Definition F2R (m e : Z) : R := IZR m * bpow e.

(** The slack of one rounding: nothing when an exact value needs no shift,
    otherwise one unit in the last place. *)
Definition slack (M E : Z) (l : location) : R :=
  let k := (fexp prec emax (Zdigits2 M + E) - E)%Z in
  match l with
  | loc_Exact => if (k <=? 0)%Z then 0 else bpow (E + k)
  | _ => bpow (E + Z.max k 0)
  end.

(** The magnitude and the exponent of a number of the IEEE specification;
    both are zero for what is not finite. *)
Definition SFmag (x : spec_float) : R :=
  match x with
  | S754_finite _ m e => F2R (Zpos m) e
  | _ => 0
  end.

Definition SFexp (x : spec_float) : Z :=
  match x with
  | S754_finite _ _ e => e
  | _ => 0
  end.

(** Zero or a finite number with the sign bit clear. *)
Definition SFnonneg (x : spec_float) : Prop :=
  match x with
  | S754_zero _ | S754_finite false _ _ => True
  | _ => False
  end.

(** The magnitude of a double. *)
Definition mag (x : float) : R := SFmag (Prim2SF x).

(** The factor by which one frame shrinks a component, rounding included. *)
Definition shrink : R := 9001 / 10000.

(** The part of the bound that rounding to subnormal numbers adds. *)
Definition dust : R := 11 * bpow (-1074).

End RoundingVocabulary.

Arguments bpow e : simpl never.
Arguments F2R m e : simpl never.

(** *** Vocabulary for rounding to nearest *)

(** What the round and sticky bits of [mrs] say once [n] bits of [M] have
    been shifted out: the mantissa is the quotient, and the two bits place
    the remainder below, at or above the half. *)
Definition located (n : nat) (M : Z) (mrs : shr_record) : Prop :=
  shr_m mrs = (M / 2 ^ Z.of_nat n)%Z
  /\ let rem := (M mod 2 ^ Z.of_nat n)%Z in
     match shr_r mrs, shr_s mrs with
     | false, false => rem = 0%Z
     | false, true => (0 < 2 * rem < 2 ^ Z.of_nat n)%Z
     | true, false => (2 * rem = 2 ^ Z.of_nat n)%Z
     | true, true => (2 ^ Z.of_nat n < 2 * rem)%Z
     end.

(** The sign bit of a number of the IEEE specification. *)
Definition SFsign (x : spec_float) : bool :=
  match x with
  | S754_zero s | S754_infinity s | S754_finite s _ _ => s
  | S754_nan => false
  end.

(** The real number a finite double stands for; zero for the others. *)
Definition SFval (x : spec_float) : R :=
  if SFsign x then (- SFmag x)%R else SFmag x.

Definition val (x : float) : R := SFval (Prim2SF x).

Section VelocityVocabulary.

Variables cos64 sin64 : float -> float.

Local Open Scope R_scope.

(** Every component is a finite double. *)
Definition finiteVector (v : @Vector3 (binary64 cos64 sin64)) : bool :=
  Double.is_finite (vx v) && Double.is_finite (vy v)
  && Double.is_finite (vz v).

(** Every component has magnitude at most [B]. *)
Definition within (B : R) (v : @Vector3 (binary64 cos64 sin64)) : Prop :=
  mag (vx v) <= B /\ mag (vy v) <= B /\ mag (vz v) <= B.

(** The Euclidean length of a vector of doubles, as a real number. *)
Definition realLength (v : @Vector3 (binary64 cos64 sin64)) : R :=
  sqrt (mag (vx v) * mag (vx v) + mag (vy v) * mag (vy v)
        + mag (vz v) * mag (vz v)).

End VelocityVocabulary.

(** The number of frames after which a velocity of doubles whose length is
    [speed] has decayed to zero. *)
Definition restFrames (speed : R) : nat := Z.to_nat (up (640 * speed)).

(** ** Sample inputs *)

Module Sample.

(** An engine whose cosine and sine are constant, for examples that do not
    depend on them. *)
Definition engine : JSNumber :=
  binary64 (fun _ => 1%float) (fun _ => 0%float).

(** A random source that always draws [r]. *)
Definition constantRandom (r : float) : @Rng engine :=
  @Build_Rng engine (fun _ => r) 0.

Definition world (r : float) : @World engine :=
  @Build_World engine (constantRandom r)
    {| starCount := 0; loading := true; error := "" |}.

(** A window without [fs], and one whose [readFile] resolves to [text]. *)
Definition bareWindow : Window := {| fs := None |}.

Definition fileWindow (text : string) : Window :=
  {| fs := Some {| readFile := Some (fun _ => inr text) |} |}.

(** A [JSON.parse] known on three texts. *)
Definition parse (text : string) : Exn + @JSValue engine :=
  if String.eqb text "[]" then inr (@JArray engine [])
  else if String.eqb text "famous" then inr (@JArray engine famousStars)
  else if String.eqb text "{catalog:famous}"
  then inr (@JObject engine [("catalog"%string, JArray famousStars)])
  else if String.eqb text "{stars:famous}"
  then inr (@JObject engine [("stars"%string, JArray famousStars)])
  else inl (SyntaxError "Unexpected token").

(** A record with astronomical coordinates and a distance. *)
Definition starAt (distance : option float) : @StarData engine :=
  @Build_StarData engine None (Some "Sample"%string)
    (Some 6%float) (Some 0%float) None None distance None None None None.

(** A frame that coasts at speed 5 with no key held, and a camera that
    always looks down the negative z axis. *)
Definition coasting64 : @Frame engine :=
  @Build_Frame engine
    (@with_motion engine initialControls
       (@THREE_Vector3 engine 3%float 4%float 0%float) Vector3_zero
       0%float 0%float 500%float)
    (@THREE_Vector3 engine 0%float 0%float 500%float)
    5%float.

Definition camera64 (k : nat) : @Vector3 engine * @Vector3 engine :=
  (@THREE_Vector3 engine 0%float 0%float (-1)%float,
   @THREE_Vector3 engine 0%float 1%float 0%float).

(** Over the reals: a frame that coasts at speed 5 with no key held, and a
    camera that always looks down the negative z axis. *)
Definition coasting : @Frame exact :=
  @Build_Frame exact
    (@with_motion exact initialControls
       (@THREE_Vector3 exact 3%R 4%R 0%R) Vector3_zero 0%R 0%R 500%R)
    (@THREE_Vector3 exact 0%R 0%R 500%R)
    5%R.

Definition camera (k : nat) : @Vector3 exact * @Vector3 exact :=
  (@THREE_Vector3 exact 0%R 0%R (-1)%R, @THREE_Vector3 exact 0%R 1%R 0%R).

End Sample.

(** ** The rest of the component *)

Section Component.

Context {N : JSNumber}.
Local Open Scope js_scope.

(** *** Key events and the indicator *)

(** [Object.values(controls.keys).some(pressed => pressed)] *)
Definition Object_values_some (ks : list (string * bool)) : bool :=
  existsb (fun entry => snd entry) ks.

(** *** A session of the component *)

(** What the browser can do to a mounted component: a key goes down or up,
    a pointer or wheel event arrives, or an animation frame runs with the
    camera looking along [cameraDirection]. *)
Inductive Action : Type :=
| KeyDown (code : string)
| KeyUp (code : string)
| Pointer (e : InputEvent)
| AnimationFrame (cameraDirection cameraUp : Vector3).

(** The state a session carries: what the frames read and write, and the
    [isFlying] cell. *)
Record Session : Type := {
  frame : Frame;
  isFlying : bool
}.

(** The refs and cells at mount: [controlsRef], the camera at
    [(0, 0, zoom)], [useState(5)] for the speed and [useState(false)] for
    the indicator. *)
Definition initialSession : Session :=
  {| frame := {| controls := initialControls;
                 cameraPosition :=
                   THREE_Vector3 (lit 0) (lit 0) (zoom initialControls);
                 movementSpeed := lit 5 |};
     isFlying := false |}.

Definition with_controls (f : Frame) (c : ControlState) : Frame :=
  {| controls := c;
     cameraPosition := cameraPosition f;
     movementSpeed := movementSpeed f |}.

Definition act (a : Action) (s : Session) : Session :=
  match a with
  | KeyDown code =>
      let c := handleKeyDown code (controls (frame s)) in
      {| frame := with_controls (frame s) c;
         isFlying := Object_values_some (keys c) |}
  | KeyUp code =>
      let c := handleKeyUp code (controls (frame s)) in
      {| frame := with_controls (frame s) c;
         isFlying := Object_values_some (keys c) |}
  | Pointer e =>
      {| frame := with_controls (frame s) (handle e (controls (frame s)));
         isFlying := isFlying s |}
  | AnimationFrame cameraDirection cameraUp =>
      {| frame := animate cameraDirection cameraUp (frame s);
         isFlying := isFlying s |}
  end.

(** The session after the actions of [actions], first to last. *)
Definition actAll (actions : list Action) (s : Session) : Session :=
  fold_left (fun s a => act a s) actions s.

(** *** Vocabulary of the properties *)

(** A record without its [x], [y] and [z] fields. *)
Definition withoutCartesian (star : StarData) : StarData :=
  {| star_id := star_id star; star_name := star_name star;
     star_ra := star_ra star; star_dec := star_dec star;
     star_mag := star_mag star; star_bv := star_bv star;
     star_distance := star_distance star;
     star_x := None; star_y := None; star_z := None;
     star_spectralClass := star_spectralClass star |}.

(** The draws [createStarVisualization] takes for the position and for the
    colour of a record. *)
Definition positionDraws (star : StarData) : nat :=
  if hasCartesian star then 0
  else
    match star_ra star, star_dec star with
    | Some _, Some _ =>
        match star_distance star with
        | Some d => if ToBoolean d then 0 else 1
        | None => 1
        end
    | _, _ => 3
    end.

Definition colourDraws (star : StarData) : nat :=
  match star_bv star with
  | Some _ => 0
  | None =>
      match star_spectralClass star with
      | Some s => if string_truthy s then 0 else 3
      | None => 3
      end
  end.

Definition starDraws (star : StarData) : nat :=
  positionDraws star + colourDraws star.

(** What every action of a session keeps: no key is listed twice, the
    indicator is what the keys give, the acceleration flag is what the two
    Shift keys read and the speeds are 5 and 50. *)
Definition indicatorsAgree (s : Session) : Prop :=
  let c := controls (frame s) in
  NoDup (map fst (keys c))
  /\ isFlying s = Object_values_some (keys c)
  /\ isAccelerating c
     = (key "ShiftLeft" (keys c) || key "ShiftRight" (keys c))
  /\ baseSpeed c = lit 5 /\ acceleratedSpeed c = lit 50.

(** The speed shown is the length of the velocity. *)
Definition readoutAgrees (s : Session) : Prop :=
  movementSpeed (frame s)
  = Vector3_length (velocity (controls (frame s))).

(** On each of the three axes, the keys of both directions are held or
    none is. *)
Definition balanced (c : ControlState) : bool :=
  let ks := keys c in
  Bool.eqb (key "KeyW" ks || key "ArrowUp" ks)
      (key "KeyS" ks || key "ArrowDown" ks)
  && Bool.eqb (key "KeyA" ks || key "ArrowLeft" ks)
         (key "KeyD" ks || key "ArrowRight" ks)
  && Bool.eqb (key "KeyQ" ks || key "Space" ks)
         (key "KeyE" ks || key "ControlLeft" ks).

(** The record is placed by its right ascension and declination, at a
    distance that is drawn: it gives the two angles, no distance and not
    all three of [x], [y] and [z]. *)
Definition placedByAngles (star : StarData) : bool :=
  negb (hasCartesian star)
  && match star_ra star, star_dec star, star_distance star with
     | Some _, Some _, None => true
     | _, _, _ => false
     end.

(** Draw [k] after the ones already taken. *)
Definition draw (w : World) (k : nat) : number :=
  draws (rng w) (k + taken (rng w)).

End Component.

(** *** Vocabulary for the render loop *)

Section RenderLoopVocabulary.

Context {N : JSNumber}.

(** One of W, A, S and D is held: the keys that keep [animate] from
    turning the view. *)
Definition holdsWASD (c : ControlState) : bool :=
  let ks := keys c in
  key "KeyW" ks || key "KeyS" ks || key "KeyA" ks || key "KeyD" ks.

(** The point of the orbit for the rotations [rotX] and [rotY] at zoom
    [z]. *)
Definition orbitPosition (rotX rotY z : number) : Vector3 :=
  THREE_Vector3 (nmul (Math_sin rotY) z)
                (nmul (nmul (Math_sin rotX) z) (lit 0.5))
                (nmul (Math_cos rotY) z).

End RenderLoopVocabulary.

(** *** Vocabulary for the draws *)

Section DrawVocabulary.

Variables cos64 sin64 : float -> float.

(** The next [n] draws are in [[0, 1)], as [Math.random] promises. *)
Definition drawsInRange (w : @World (binary64 cos64 sin64)) (n : nat)
  : Prop :=
  forall j, (j < n)%nat ->
    (0 <=? draw w j)%float = true /\ (draw w j <? 1)%float = true.

End DrawVocabulary.

(** ** More sample inputs *)

Module Scenario.

(** A document that holds both arrays, [catalog] first. *)
Definition parseBoth (text : string) : Exn + @JSValue Sample.engine :=
  inr (@JObject Sample.engine
         [("catalog"%string, JArray famousStars);
          ("stars"%string, JArray [])]).

End Scenario.

(** *** Vocabulary for the coordinate mapper over binary64 *)

(** The angle the mapper computes for six hours of right ascension,
    [(6 * 15) * (Math.PI / 180)], which is the double nearest to a quarter
    turn, and the one it computes for three hours, and for 45 degrees of
    declination. *)
Definition rightAngle : float := (6 * 15 * (Double.PI / 180))%float.
Definition halfRightAngle : float := (3 * 15 * (Double.PI / 180))%float.

(** ** Sample inputs for the coordinate mapper *)

Module Tabled.

(** An engine known at the angles the examples use, where it returns the
    doubles nearest to the cosine and the sine; [Math.cos] and [Math.sin]
    of a zero are what ECMAScript prescribes. *)
Definition cos64 (x : float) : float :=
  if is_zero x then 1%float
  else if (x =? rightAngle)%float then 0x1.1a62633145c07p-54%float
  else if (x =? halfRightAngle)%float then 0x1.6a09e667f3bcdp-1%float
  else PrimFloat.nan.

Definition sin64 (x : float) : float :=
  if is_zero x then x
  else if (x =? rightAngle)%float then 1%float
  else if (x =? halfRightAngle)%float then 0x1.6a09e667f3bccp-1%float
  else PrimFloat.nan.

Definition engine : JSNumber := binary64 cos64 sin64.

Definition world (r : float) : @World engine :=
  @Build_World engine (@Build_Rng engine (fun _ => r) 0)
    {| starCount := 0; loading := true; error := "" |}.

(** A record at six hours with distance 0 that also gives [x], [y] and
    [z], all 0. *)
Definition atOrigin : @StarData engine :=
  @Build_StarData engine None (Some "Origin"%string)
    (Some 6%float) (Some 0%float) None None (Some 0%float)
    (Some 0%float) (Some 0%float) (Some 0%float) None.

(** A record at three hours and 45 degrees with an infinite distance. *)
Definition farAway : @StarData engine :=
  @Build_StarData engine None (Some "Far"%string)
    (Some 3%float) (Some 45%float) None None (Some infinity)
    None None None None.

End Tabled.

(** * Properties *)

(** ** Facts about binary64 arithmetic *)

Module DoubleFacts.

(** *** Comparison *)

Lemma SFcompare_antisym (x y : spec_float) :
  SFcompare y x = option_map CompOpp (SFcompare x y).
Proof.
  destruct x as [sx|sx| |sx mx ex], y as [sy|sy| |sy my ey]; simpl;
    try reflexivity;
    try (destruct sx; reflexivity); try (destruct sy; reflexivity);
    try (destruct sx, sy; reflexivity).
  destruct sx, sy; simpl; try reflexivity;
    rewrite (Z.compare_antisym ex ey);
    destruct (ex ?= ey)%Z; simpl; try reflexivity;
    change (Pos.compare_cont Eq my mx)
      with (Pos.compare_cont (CompOpp Eq) my mx);
    rewrite <- (Pos.compare_cont_antisym mx my Eq);
    try rewrite CompOpp_involutive; reflexivity.
Qed.

Lemma SFcompare_refl (x : spec_float) :
  x <> S754_nan -> SFcompare x x = Some Eq.
Proof.
  destruct x as [s|s| |s m e]; simpl; try congruence;
    destruct s; intros _; try reflexivity;
    rewrite Z.compare_refl, Pos.compare_cont_refl; reflexivity.
Qed.

Lemma SFcompare_None (x y : spec_float) :
  SFcompare x y = None -> x = S754_nan \/ y = S754_nan.
Proof.
  destruct x as [sx|sx| |sx mx ex], y as [sy|sy| |sy my ey]; simpl;
    auto; discriminate.
Qed.

Lemma SFleb_key (x y : spec_float) :
  SFleb x y = true <->
  x <> S754_nan /\ y <> S754_nan /\ lex_le (SFkey x) (SFkey y).
Proof.
  unfold SFleb.
  destruct x as [sx|sx| |sx mx ex], y as [sy|sy| |sy my ey]; simpl;
    try (destruct sx); try (destruct sy); simpl;
    try (split; [intros _; repeat split; try discriminate; lia
                | reflexivity]);
    try (split; [discriminate | intros (H1 & H2 & H3); try congruence; lia]).
  - destruct (Z.compare_spec ex ey) as [E|E|E]; simpl.
    + subst. change (Pos.compare_cont Eq mx my) with (Pos.compare mx my).
      destruct (Pos.compare_spec mx my) as [F|F|F]; simpl;
        (split; [intros; repeat split; try discriminate; lia
                |intros (_ & _ & H); try reflexivity; lia]).
    + split; [intros; repeat split; try discriminate; lia
             |intros (_ & _ & H); try reflexivity; lia].
    + split; [intros; repeat split; try discriminate; lia
             |intros (_ & _ & H); try reflexivity; lia].
  - destruct (Z.compare_spec ex ey) as [E|E|E]; simpl.
    + subst. change (Pos.compare_cont Eq mx my) with (Pos.compare mx my).
      destruct (Pos.compare_spec mx my) as [F|F|F]; simpl;
        (split; [intros; repeat split; try discriminate; lia
                |intros (_ & _ & H); try reflexivity; lia]).
    + split; [intros; repeat split; try discriminate; lia
             |intros (_ & _ & H); try reflexivity; lia].
    + split; [intros; repeat split; try discriminate; lia
             |intros (_ & _ & H); try reflexivity; lia].
Qed.

Lemma SFleb_trans (x y z : spec_float) :
  SFleb x y = true -> SFleb y z = true -> SFleb x z = true.
Proof.
  rewrite !SFleb_key. intros (Hx & _ & Hxy) (_ & Hz & Hyz).
  repeat split; try assumption.
  destruct (SFkey x) as [[a1 a2] a3], (SFkey y) as [[b1 b2] b3],
           (SFkey z) as [[c1 c2] c3].
  simpl in *. lia.
Qed.

Lemma is_nan_spec (f : float) :
  is_nan f = true <-> Prim2SF f = S754_nan.
Proof.
  unfold is_nan. rewrite FloatAxioms.eqb_spec. unfold SFeqb. split.
  - intros H. destruct (Prim2SF f) as [s|s| |s m e] eqn:E; trivial;
      rewrite SFcompare_refl in H by congruence; discriminate.
  - intros ->. reflexivity.
Qed.

Lemma is_nan_false (f : float) :
  is_nan f = false <-> Prim2SF f <> S754_nan.
Proof.
  rewrite <- is_nan_spec. destruct (is_nan f); split; congruence.
Qed.

Lemma leb_not_ltb (a b : float) :
  (a <=? b)%float = true -> (b <? a)%float = false.
Proof.
  rewrite FloatAxioms.leb_spec, FloatAxioms.ltb_spec. unfold SFleb, SFltb.
  rewrite (SFcompare_antisym (Prim2SF a) (Prim2SF b)).
  destruct (SFcompare (Prim2SF a) (Prim2SF b)) as [[ | | ]|]; simpl;
    congruence.
Qed.

Lemma ltb_leb (a b : float) :
  (a <? b)%float = true -> (a <=? b)%float = true.
Proof.
  rewrite FloatAxioms.leb_spec, FloatAxioms.ltb_spec. unfold SFleb, SFltb.
  destruct (SFcompare (Prim2SF a) (Prim2SF b)) as [[ | | ]|]; congruence.
Qed.

Lemma leb_trans (a b c : float) :
  (a <=? b)%float = true -> (b <=? c)%float = true -> (a <=? c)%float = true.
Proof. rewrite !FloatAxioms.leb_spec. apply SFleb_trans. Qed.

Lemma leb_refl (a : float) : is_nan a = false -> (a <=? a)%float = true.
Proof.
  rewrite is_nan_false, FloatAxioms.leb_spec. unfold SFleb. intros H.
  rewrite SFcompare_refl by assumption. reflexivity.
Qed.

Lemma leb_not_nan (a b : float) :
  (a <=? b)%float = true -> is_nan a = false /\ is_nan b = false.
Proof.
  rewrite FloatAxioms.leb_spec, !is_nan_false. unfold SFleb.
  destruct (Prim2SF a), (Prim2SF b); simpl; try discriminate;
    split; congruence.
Qed.

(** Doubles are totally ordered apart from NaN. *)
Lemma total (a b : float) :
  is_nan a = false -> is_nan b = false ->
  (a <? b)%float = false -> (b <=? a)%float = true.
Proof.
  rewrite !is_nan_false, !FloatAxioms.ltb_spec, FloatAxioms.leb_spec.
  unfold SFleb, SFltb.
  intros Ha Hb. rewrite (SFcompare_antisym (Prim2SF a) (Prim2SF b)).
  destruct (SFcompare (Prim2SF a) (Prim2SF b)) as [[ | | ]|] eqn:E; simpl;
    try congruence.
  destruct (SFcompare_None _ _ E); contradiction.
Qed.

(** *** [Math.max] and [Math.min] *)

Lemma max_cases (a b : float) :
  is_nan a = false -> is_nan b = false ->
  (Double.max a b = a \/ Double.max a b = b)
  /\ (a <=? Double.max a b)%float = true
  /\ (b <=? Double.max a b)%float = true.
Proof.
  intros Ha Hb. unfold Double.max. rewrite Ha, Hb. simpl.
  destruct (a <? b)%float eqn:Hab.
  { auto using ltb_leb, leb_refl. }
  destruct (b <? a)%float eqn:Hba.
  { auto using ltb_leb, leb_refl. }
  destruct (is_zero a && get_sign a);
    auto using ltb_leb, leb_refl, total.
Qed.

Lemma min_cases (a b : float) :
  is_nan a = false -> is_nan b = false ->
  (Double.min a b = a \/ Double.min a b = b)
  /\ (Double.min a b <=? a)%float = true
  /\ (Double.min a b <=? b)%float = true.
Proof.
  intros Ha Hb. unfold Double.min. rewrite Ha, Hb. simpl.
  destruct (a <? b)%float eqn:Hab.
  { auto using ltb_leb, leb_refl. }
  destruct (b <? a)%float eqn:Hba.
  { auto using ltb_leb, leb_refl. }
  destruct (is_zero a && get_sign a);
    auto using ltb_leb, leb_refl, total.
Qed.

(** [Math.max(lo, Math.min(hi, x))] lies between [lo] and [hi] unless [x]
    is NaN. *)
Lemma clamp_bounds (lo hi x : float) :
  (lo <=? hi)%float = true -> is_nan x = false ->
  (lo <=? Double.max lo (Double.min hi x))%float = true
  /\ (Double.max lo (Double.min hi x) <=? hi)%float = true.
Proof.
  intros Hlh Hx.
  destruct (leb_not_nan _ _ Hlh) as [Hlo Hhi].
  destruct (min_cases hi x Hhi Hx) as (Hm & Hmh & _).
  assert (Hmn : is_nan (Double.min hi x) = false)
    by (destruct Hm as [-> | ->]; assumption).
  destruct (max_cases lo (Double.min hi x) Hlo Hmn) as (HM & HlM & _).
  split; [assumption|].
  destruct HM as [-> | ->]; assumption.
Qed.


(** *** Arithmetic that cannot produce NaN *)

Lemma shr_1_nonneg (mrs : shr_record) :
  (0 <= shr_m mrs)%Z -> (0 <= shr_m (shr_1 mrs))%Z.
Proof.
  destruct mrs as [m r s]; simpl.
  destruct m as [|[p|p|]|[p|p|]]; simpl; lia.
Qed.

Lemma iter_pos_shr_1_nonneg (p : positive) (mrs : shr_record) :
  (0 <= shr_m mrs)%Z -> (0 <= shr_m (SpecFloat.iter_pos shr_1 p mrs))%Z.
Proof.
  revert mrs. induction p as [p IH|p IH|]; intros mrs H; simpl;
    auto using shr_1_nonneg.
Qed.

Lemma shr_fexp_nonneg (m e : Z) (l : location) :
  (0 <= m)%Z -> (0 <= shr_m (fst (shr_fexp prec emax m e l)))%Z.
Proof.
  intros Hm. unfold shr_fexp, shr.
  assert (H0 : (0 <= shr_m (shr_record_of_loc m l))%Z)
    by (destruct l as [|[ | | ]]; exact Hm).
  destruct (fexp prec emax (Zdigits2 m + e) - e)%Z; simpl;
    auto using iter_pos_shr_1_nonneg.
Qed.

Lemma round_nearest_even_nonneg (m : Z) (l : location) :
  (0 <= m)%Z -> (0 <= round_nearest_even m l)%Z.
Proof.
  intros Hm. destruct l as [|[ | | ]]; simpl; try lia.
  destruct (Z.even m); lia.
Qed.

Lemma binary_round_aux_not_nan (s : bool) (m e : Z) (l : location) :
  (0 <= m)%Z -> binary_round_aux prec emax s m e l <> S754_nan.
Proof.
  intros Hm. unfold binary_round_aux.
  pose proof (shr_fexp_nonneg m e l Hm) as H1.
  destruct (shr_fexp prec emax m e l) as [mrs' e']. simpl in H1.
  pose proof (shr_fexp_nonneg
                (round_nearest_even (shr_m mrs') (loc_of_shr_record mrs'))
                e' loc_Exact
                (round_nearest_even_nonneg _ _ H1)) as H2.
  destruct (shr_fexp prec emax _ e' loc_Exact) as [mrs'' e'']. simpl in H2.
  destruct (shr_m mrs''); try lia; try discriminate.
  destruct (e'' <=? emax - prec)%Z; discriminate.
Qed.

Lemma binary_normalize_not_nan (m e : Z) (s : bool) :
  binary_normalize prec emax m e s <> S754_nan.
Proof.
  destruct m; simpl; try discriminate; unfold binary_round;
    destruct (shl_align _ _ _); apply binary_round_aux_not_nan; lia.
Qed.

Lemma SFmul_finite_not_nan (x : spec_float) (s : bool) (m : positive) (e : Z) :
  x <> S754_nan -> SF64mul x (S754_finite s m e) <> S754_nan.
Proof.
  destruct x as [sx|sx| |sx mx ex]; simpl; try congruence.
  intros _. apply binary_round_aux_not_nan. lia.
Qed.

Lemma SFadd_finite_not_nan (x y : spec_float) :
  SFfinite x -> y <> S754_nan -> SF64add x y <> S754_nan.
Proof.
  destruct x as [sx|sx| |sx mx ex], y as [sy|sy| |sy my ey]; simpl;
    try congruence; try contradiction; intros _ _.
  - destruct sx, sy; discriminate.
  - apply binary_normalize_not_nan.
Qed.

Lemma SFsub_finite_not_nan (x y : spec_float) :
  SFfinite x -> SFfinite y -> SF64sub x y <> S754_nan.
Proof.
  destruct x as [sx|sx| |sx mx ex], y as [sy|sy| |sy my ey]; simpl;
    try congruence; try contradiction; intros _ _.
  - destruct sx, sy; discriminate.
  - apply binary_normalize_not_nan.
Qed.

Lemma SFadd_not_nan_finite (x y : spec_float) :
  x <> S754_nan -> SFfinite y -> SF64add x y <> S754_nan.
Proof.
  destruct x as [sx|sx| |sx mx ex], y as [sy|sy| |sy my ey]; simpl;
    try congruence; try contradiction; intros _ _.
  - destruct sx, sy; discriminate.
  - apply binary_normalize_not_nan.
Qed.

Lemma SFsub_finite_any_not_nan (x y : spec_float) :
  SFfinite x -> y <> S754_nan -> SF64sub x y <> S754_nan.
Proof.
  destruct x as [sx|sx| |sx mx ex], y as [sy|sy| |sy my ey]; simpl;
    try congruence; try contradiction; intros _ _.
  - destruct sx, sy; discriminate.
  - apply binary_normalize_not_nan.
Qed.

Lemma SFopp_not_nan (x : spec_float) :
  x <> S754_nan -> SFopp x <> S754_nan.
Proof. destruct x; simpl; congruence. Qed.

Lemma SFleb_between_finite (lo hi t : spec_float) :
  SFfinite lo -> SFfinite hi ->
  SFleb lo t = true -> SFleb t hi = true -> SFfinite t.
Proof.
  unfold SFleb.
  destruct lo as [sl|sl| |sl ml el], hi as [sh|sh| |sh mh eh],
           t as [st|st| |st mt et]; simpl;
    try contradiction; try discriminate; auto;
    intros _ _; destruct st; discriminate.
Qed.

Lemma is_finite_spec (f : float) :
  Double.is_finite f = true -> SFfinite (Prim2SF f).
Proof.
  unfold Double.is_finite, is_infinity. rewrite negb_true_iff, orb_false_iff.
  intros [Hn Hi]. apply is_nan_false in Hn.
  rewrite FloatAxioms.eqb_spec, abs_spec in Hi.
  change (Prim2SF infinity) with (S754_infinity false) in Hi.
  destruct (Prim2SF f) as [s|s| |s m e]; simpl; auto; discriminate.
Qed.

Lemma finite_not_nan (f : float) :
  Double.is_finite f = true -> is_nan f = false.
Proof.
  unfold Double.is_finite. rewrite negb_true_iff, orb_false_iff. tauto.
Qed.

(** The same on primitive floats. *)

Lemma mul_const_not_nan (x c : float) :
  Double.is_finite c = true -> is_zero c = false ->
  is_nan x = false -> is_nan (x * c)%float = false.
Proof.
  intros Hc Hz Hx. apply is_nan_false. rewrite mul_spec.
  apply is_nan_false in Hx. apply is_finite_spec in Hc.
  unfold is_zero in Hz. rewrite FloatAxioms.eqb_spec in Hz.
  change (Prim2SF 0%float) with (S754_zero false) in Hz.
  destruct (Prim2SF c) as [s|s| |s m e]; try contradiction.
  - discriminate.
  - apply SFmul_finite_not_nan. assumption.
Qed.

Lemma add_finite_not_nan (x y : float) :
  SFfinite (Prim2SF x) -> is_nan y = false -> is_nan (x + y)%float = false.
Proof.
  intros Hx Hy. apply is_nan_false. rewrite add_spec.
  apply SFadd_finite_not_nan; [assumption | now apply is_nan_false].
Qed.

Lemma sub_finite_not_nan (x y : float) :
  Double.is_finite x = true -> Double.is_finite y = true ->
  is_nan (x - y)%float = false.
Proof.
  intros Hx Hy. apply is_nan_false. rewrite sub_spec.
  apply SFsub_finite_not_nan; now apply is_finite_spec.
Qed.

Lemma add_not_nan_finite (x y : float) :
  is_nan x = false -> Double.is_finite y = true ->
  is_nan (x + y)%float = false.
Proof.
  intros Hx Hy. apply is_nan_false. rewrite add_spec.
  apply SFadd_not_nan_finite;
    [now apply is_nan_false | now apply is_finite_spec].
Qed.

Lemma sub_finite_any_not_nan (x y : float) :
  Double.is_finite x = true -> is_nan y = false ->
  is_nan (x - y)%float = false.
Proof.
  intros Hx Hy. apply is_nan_false. rewrite sub_spec.
  apply SFsub_finite_any_not_nan;
    [now apply is_finite_spec | now apply is_nan_false].
Qed.

Lemma opp_not_nan (x : float) : is_nan x = false -> is_nan (- x)%float = false.
Proof.
  rewrite !is_nan_false, opp_spec. apply SFopp_not_nan.
Qed.

Lemma between_finite (lo hi t : float) :
  Double.is_finite lo = true -> Double.is_finite hi = true ->
  (lo <=? t)%float = true -> (t <=? hi)%float = true ->
  SFfinite (Prim2SF t).
Proof.
  intros Hlo Hhi. rewrite !FloatAxioms.leb_spec.
  apply SFleb_between_finite; now apply is_finite_spec.
Qed.

End DoubleFacts.

(** ** The loader, for any numbers *)

Section AnyNumbers.

Context {N : JSNumber}.
Variable JSON_parse : string -> Exn + JSValue.

(** *** The generator returns and takes five draws a star *)

Lemma randomStar_returns (i : nat) (w : World) :
  exists star, randomStar i w = (inr star, advance 5 w).
Proof. eexists. reflexivity. Qed.

Lemma randomStars_returns (count : nat) :
  forall from w,
  exists stars,
    randomStars count from w = (inr stars, advance (5 * count) w)
    /\ length stars = count.
Proof.
  induction count as [|count IH]; intros from w.
  - exists []. split; [|reflexivity]. destruct w as [[d t] u]. reflexivity.
  - destruct (randomStar_returns from w) as [star Hs].
    destruct (IH (S from) (advance 5 w)) as (stars & Hr & Hl).
    exists (star :: stars). split; [|simpl; congruence].
    simpl randomStars. unfold bind at 1. rewrite Hs.
    unfold bind at 1. rewrite Hr. unfold ret, advance. simpl.
    do 3 f_equal. f_equal. lia.
Qed.

Lemma generateSampleStarData_returns (w : World) :
  exists generated,
    generateSampleStarData w
    = (inr (famousStars ++ generated), advance (5 * 2000) w)
    /\ fst (randomStars 2000 0 w) = inr generated
    /\ length generated = 2000%nat.
Proof.
  destruct (randomStars_returns 2000 0 w) as (stars & Hr & Hl).
  exists stars. unfold generateSampleStarData, bind. rewrite Hr.
  repeat split; assumption.
Qed.

(** *** The inner [try] *)

Lemma readCatalog_throws (window : Window) (e : Exn) (w : World) :
  FileOutcome JSON_parse window (inl e) ->
  readCatalog JSON_parse window w = (inl e, w).
Proof.
  intros H. inversion H as [Hfs|Hfs|read e' Hfs Hr|read text e' Hfs Hr Hp|];
    subst; unfold readCatalog; rewrite Hfs; try reflexivity.
  - unfold bind, lift. rewrite Hr. reflexivity.
  - unfold bind at 1. unfold lift at 1. rewrite Hr. unfold ret.
    unfold bind at 1. unfold lift. rewrite Hp. reflexivity.
Qed.

Lemma readCatalog_parsed (window : Window) (v : JSValue) (w : World) :
  FileOutcome JSON_parse window (inr v) ->
  readCatalog JSON_parse window w
  = (match acceptedShape v with
     | Some records => inr records
     | None => inl (shapeError v)
     end, w).
Proof.
  intros H. inversion H as [| | | |read text v' Hfs Hr Hp]; subst.
  unfold readCatalog. rewrite Hfs.
  unfold bind at 1. unfold lift at 1. rewrite Hr. unfold ret.
  unfold bind at 1. unfold lift. rewrite Hp. unfold ret.
  destruct v as [ | | | |elems|props]; try reflexivity.
  simpl. unfold bind, ret. simpl.
  destruct (lookup "stars" props) as [[ | | | |elems| ]|];
    simpl; rewrite ?andb_false_r; try reflexivity;
    destruct (lookup "catalog" props) as [[ | | | |elems'| ]|];
    simpl; rewrite ?andb_false_r; reflexivity.
Qed.

Lemma FileOutcome_total (window : Window) :
  exists r, FileOutcome JSON_parse window r.
Proof.
  destruct (fs window) as [[[read|]]|] eqn:Hfs.
  - destruct (read "data.json"%string) as [e|text] eqn:Hr.
    + exists (inl e). eapply ReadRejected; eassumption.
    + destruct (JSON_parse text) as [e|v] eqn:Hp.
      * exists (inl e). eapply Malformed; eassumption.
      * exists (inr v). eapply Parsed; eassumption.
  - eexists. apply NoReadFile. assumption.
  - eexists. apply NoFileSystem. assumption.
Qed.

Lemma readCatalog_unavailable (window : Window) (w : World) :
  CatalogUnavailable JSON_parse window ->
  exists e, readCatalog JSON_parse window w = (inl e, w).
Proof.
  intros [[e He]|(v & Hv & Hs)].
  - exists e. now apply readCatalog_throws.
  - exists (shapeError v). rewrite (readCatalog_parsed window v w Hv), Hs.
    reflexivity.
Qed.

(** *** The two ways [loadStarData] returns *)

Lemma load_starts {A} (k : Eff A) (w : World) :
  bind (setLoading true) (fun _ => bind (setError "") (fun _ => k)) w
  = k (started w).
Proof. reflexivity. Qed.

Lemma loadStarData_from_file (window : Window) (records : list StarData)
    (w : World) :
  readCatalog JSON_parse window (started w) = (inr records, started w) ->
  loadStarData JSON_parse window w
  = (inr records, with_ui w (length records) false "").
Proof.
  intros H. unfold loadStarData, try_finally.
  unfold try_catch at 1. rewrite load_starts.
  unfold bind at 1. unfold try_catch. rewrite H. reflexivity.
Qed.

Lemma loadStarData_from_generator (window : Window) (e : Exn) (w : World) :
  readCatalog JSON_parse window (started w) = (inl e, started w) ->
  exists generated,
    loadStarData JSON_parse window w
    = (inr (famousStars ++ generated),
       with_ui (advance (5 * 2000) w) 2010 false "")
    /\ fst (randomStars 2000 0 (started w)) = inr generated
    /\ length generated = 2000%nat.
Proof.
  intros H.
  destruct (generateSampleStarData_returns (started w))
    as (generated & Hg & Hr & Hl).
  exists generated. split; [|split; assumption].
  unfold loadStarData, try_finally.
  unfold try_catch at 1. rewrite load_starts.
  unfold bind at 1. unfold try_catch. rewrite H, Hg.
  unfold bind, setStarCount, setLoading, ret, with_ui, advance. simpl.
  rewrite Hl. reflexivity.
Qed.

Lemma loadStarData_accepted (window : Window) (v : JSValue)
    (records : list StarData) (w : World) :
  FileOutcome JSON_parse window (inr v) ->
  acceptedShape v = Some records ->
  loadStarData JSON_parse window w
  = (inr records, with_ui w (length records) false "").
Proof.
  intros Hv Hs. apply loadStarData_from_file.
  rewrite (readCatalog_parsed window v _ Hv), Hs. reflexivity.
Qed.

Lemma loadStarData_unavailable (window : Window) (w : World) :
  CatalogUnavailable JSON_parse window ->
  exists generated,
    loadStarData JSON_parse window w
    = (inr (famousStars ++ generated),
       with_ui (advance (5 * 2000) w) 2010 false "")
    /\ fst (randomStars 2000 0 (started w)) = inr generated
    /\ length generated = 2000%nat.
Proof.
  intros H.
  destruct (readCatalog_unavailable window (started w) H) as [e He].
  exact (loadStarData_from_generator window e w He).
Qed.

(** C4.  When the file read is unavailable, the content is malformed JSON or
    the parsed value has none of the three accepted shapes, [loadStarData]
    returns (it does not throw) the fallback catalog: the 10 hardcoded stars
    followed by the 2000 entries of the generator, 2010 records in all, and
    it reports that count. *)
Theorem loadStarData_falls_back (window : Window) (w : World) :
  CatalogUnavailable JSON_parse window ->
  exists generated,
    loadStarData JSON_parse window w
    = (inr (famousStars ++ generated),
       with_ui (advance (5 * 2000) w) 2010 false "")
    /\ fst (randomStars 2000 0 (started w)) = inr generated
    /\ length famousStars = 10%nat
    /\ length generated = 2000%nat
    /\ length (famousStars ++ generated) = 2010%nat.
Proof.
  intros H.
  destruct (loadStarData_unavailable window w H)
    as (generated & Hload & Hgen & Hlen).
  exists generated. repeat split; try assumption.
  rewrite length_app, Hlen. reflexivity.
Qed.


(** C9, as the code has it.  Whatever the file capability, the read and the
    parse do, [loadStarData] returns a catalog and never throws; it reports
    the catalog's length and clears the loading flag.  The catalog is the
    array the file is accepted for, which may be empty, or else the fallback
    of 2010 records; so it is empty only when the file holds an empty
    array. *)
Theorem loadStarData_always_returns (window : Window) (w : World) :
  exists catalog w',
    loadStarData JSON_parse window w = (inr catalog, w')
    /\ starCount (ui w') = length catalog
    /\ loading (ui w') = false
    /\ ((exists v, FileOutcome JSON_parse window (inr v)
                   /\ acceptedShape v = Some catalog)
        \/ (CatalogUnavailable JSON_parse window
            /\ length catalog = 2010%nat))
    /\ (catalog = [] ->
        exists v, FileOutcome JSON_parse window (inr v)
                  /\ acceptedShape v = Some []).
Proof.
  assert (Hcases :
    (exists v records, FileOutcome JSON_parse window (inr v)
                       /\ acceptedShape v = Some records)
    \/ CatalogUnavailable JSON_parse window).
  { destruct (FileOutcome_total window) as [[e|v] Hr].
    - right. left. eauto.
    - destruct (acceptedShape v) as [records|] eqn:Hs.
      + left. eauto.
      + right. right. eauto. }
  destruct Hcases as [(v & records & Hv & Hs)|Hun].
  - exists records, (with_ui w (length records) false "").
    rewrite (loadStarData_accepted window v records w Hv Hs).
    repeat split; eauto.
    intros ->. eauto.
  - destruct (loadStarData_unavailable window w Hun)
      as (generated & Hload & _ & Hlen).
    assert (Hall : length (famousStars ++ generated) = 2010%nat)
      by (rewrite length_app, Hlen; reflexivity).
    exists (famousStars ++ generated),
           (with_ui (advance (5 * 2000) w) 2010 false "").
    rewrite Hload. repeat split; auto.
    intros Hnil. rewrite Hnil in Hall. discriminate.
Qed.

End AnyNumbers.

(** ** The scene builder, for any numbers *)

Section ScenePositions.

Context {N : JSNumber}.

Lemma starDistance_stated (star : StarData) (d : number) (w : World) :
  star_distance star = Some d -> ToBoolean d = true ->
  starDistance star w = (inr d, w).
Proof. intros Hd Ht. unfold starDistance. now rewrite Hd, Ht. Qed.

Lemma starDistance_substituted (star : StarData) (w : World) :
  star_distance star = None
  \/ (exists d, star_distance star = Some d /\ ToBoolean d = false) ->
  starDistance star w
  = (inr (lit 50 + draws (rng w) (taken (rng w)) * lit 200)%js, advance 1 w).
Proof.
  intros [Hd|(d & Hd & Ht)]; unfold starDistance; rewrite Hd, ?Ht;
    reflexivity.
Qed.

Lemma starPosition_astronomical (star : StarData) (ra dec : number)
    (w : World) :
  hasCartesian star = false ->
  star_ra star = Some ra -> star_dec star = Some dec ->
  starPosition star w
  = (let '(r, w') := starDistance star w in
     match r with
     | inr distance =>
         (inr (astronomicalToCartesian ra dec (Some distance)), w')
     | inl e => (inl e, w')
     end).
Proof.
  intros Hc Hra Hdec. unfold starPosition, hasCartesian in *.
  rewrite Hra, Hdec.
  destruct (star_x star), (star_y star), (star_z star);
    try discriminate; reflexivity.
Qed.

End ScenePositions.

(** ** The render loop without input, for any numbers *)

Section Coasting.

Context {N : JSNumber}.

(** The length of the zero vector is not above zero: a frame without
    movement keys takes the branch that decelerates. *)
Hypothesis zero_is_still :
  (Vector3_length (THREE_Vector3 (lit 0) (lit 0) (lit 0)) >? lit 0)%js = false.

Lemma moveVector_without_keys (c : ControlState) :
  noMovementKey c = true ->
  moveVector c = THREE_Vector3 (lit 0) (lit 0) (lit 0).
Proof.
  unfold noMovementKey, moveVector. rewrite negb_true_iff.
  repeat rewrite orb_false_iff.
  intros (((((((((((-> & ->) & ->) & ->) & ->) & ->) & ->) & ->) & ->)
             & ->) & ->) & ->).
  reflexivity.
Qed.

Lemma animate_decays (dir up : Vector3) (f : Frame) :
  noMovementKey (controls f) = true ->
  velocity (controls (animate dir up f)) = decay (velocity (controls f))
  /\ keys (controls (animate dir up f)) = keys (controls f).
Proof.
  intros Hk. unfold animate. rewrite (moveVector_without_keys _ Hk).
  rewrite zero_is_still. unfold decay.
  destruct (Vector3_length (multiplyScalar (velocity (controls f)) (lit 0.9))
            <? lit 0.1)%js eqn:E;
    repeat match goal with
      | |- context [if ?b then _ else _] => destruct b
      end; split; reflexivity.
Qed.

Lemma frames_decay (camera : nat -> Vector3 * Vector3) (f : Frame) (n : nat) :
  noMovementKey (controls f) = true ->
  velocity (controls (frames camera n f))
  = Nat.iter n decay (velocity (controls f))
  /\ keys (controls (frames camera n f)) = keys (controls f).
Proof.
  intros Hk. induction n as [|n [IHv IHk]]; simpl.
  - auto.
  - assert (Hk' : noMovementKey (controls (frames camera n f)) = true)
      by (unfold noMovementKey in *; rewrite IHk; exact Hk).
    destruct (animate_decays (fst (camera n)) (snd (camera n)) _ Hk')
      as [Hv Hks].
    rewrite Hv, Hks, IHv. auto.
Qed.

End Coasting.

(** ** Properties over binary64 *)

Section OverDoubles.

Variables cos64 sin64 : float -> float.
#[local] Hint Extern 0 JSNumber => exact (binary64 cos64 sin64)
  : typeclass_instances.

(** C1.  For a B-V index that is given, [getStarColor] returns the colour of
    the band the index falls in, whatever the spectral class: below -0.4,
    from -0.4 to 0, from 0 to 0.5, from 0.5 to 1.0, from 1.0 to 1.5, and 1.5
    or more.  (A NaN index is in no band.) *)
Theorem getStarColor_bands (bv : number) (spectralClass : option string)
    (w : World) :
  let returned := getStarColor (Some bv) spectralClass w in
  ((bv <? -0.4)%float = true ->
   returned = (inr (THREE_Color 0.6 0.8 1.0)%float, w))
  /\ ((-0.4 <=? bv)%float = true -> (bv <? 0)%float = true ->
      returned = (inr (THREE_Color 0.8 0.9 1.0)%float, w))
  /\ ((0 <=? bv)%float = true -> (bv <? 0.5)%float = true ->
      returned = (inr (THREE_Color 1.0 1.0 1.0)%float, w))
  /\ ((0.5 <=? bv)%float = true -> (bv <? 1.0)%float = true ->
      returned = (inr (THREE_Color 1.0 1.0 0.7)%float, w))
  /\ ((1.0 <=? bv)%float = true -> (bv <? 1.5)%float = true ->
      returned = (inr (THREE_Color 1.0 0.7 0.4)%float, w))
  /\ ((1.5 <=? bv)%float = true ->
      returned = (inr (THREE_Color 1.0 0.5 0.3)%float, w)).
Proof.
  cbv zeta. unfold getStarColor, ret.
  change (@nlt _) with PrimFloat.ltb.
  change (- lit 0.4)%js with (-0.4)%float.
  change (@lit _ 0) with 0%float.
  change (@lit _ 0.5) with 0.5%float.
  change (@lit _ 1.0) with 1%float.
  change (@lit _ 1.5) with 1.5%float.
  repeat split; intros;
    repeat match goal with
    | Hlo : (?lo <=? bv)%float = true
      |- context [if (bv <? ?t)%float then _ else _] =>
        let E := fresh in
        assert (E : (bv <? t)%float = false)
          by (apply DoubleFacts.leb_not_ltb;
              refine (DoubleFacts.leb_trans _ _ _ _ Hlo); reflexivity);
        rewrite E; clear E
    end;
    repeat match goal with
    | H : ?c = true |- context [if ?c then _ else _] => rewrite H
    end;
    reflexivity.
Qed.

(** C2.  [magnitudeToSize] is 1.0 without a magnitude and
    [Math.max(0.5, 3.0 - (mag + 2) * 0.5)] with one, which is at least 0.5
    for every magnitude that is a number; magnitude 4 gives exactly 0.5 and
    magnitude -2 gives exactly 3.0. *)
Theorem magnitudeToSize_formula :
  magnitudeToSize None = 1%float
  /\ (forall mag : number,
        magnitudeToSize (Some mag)
        = Double.max 0.5 (3.0 - (mag + 2) * 0.5)%float)
  /\ (forall mag : number,
        is_nan mag = false ->
        (0.5 <=? magnitudeToSize (Some mag))%float = true)
  /\ magnitudeToSize (Some 4%float) = 0.5%float
  /\ magnitudeToSize (Some (-2)%float) = 3%float.
Proof.
  repeat split.
  intros mag Hmag.
  change (magnitudeToSize (Some mag))
    with (Double.max 0.5 (3.0 - (mag + 2) * 0.5)%float).
  apply DoubleFacts.max_cases; [reflexivity|].
  apply DoubleFacts.sub_finite_any_not_nan; [reflexivity|].
  apply DoubleFacts.mul_const_not_nan; try reflexivity.
  now apply DoubleFacts.add_not_nan_finite.
Qed.

(** *** The targets of the input controller *)

Lemma steady_initial : steady cos64 sin64 initialControls.
Proof. repeat split. Qed.

Lemma wheel_target_not_nan (deltaY : number) (c : ControlState) :
  steady cos64 sin64 c ->
  is_nan (targetZoom c
          + (if (Double.of_literal 0 <? deltaY)%float
             then zoom c * Double.of_literal 0.1
             else - (zoom c * Double.of_literal 0.1)))%float = false.
Proof.
  intros ((Hz1 & Hz2 & _) & Hzoom & _).
  apply DoubleFacts.add_finite_not_nan.
  - now apply (DoubleFacts.between_finite 10 2000).
  - assert (is_nan (zoom c * Double.of_literal 0.1)%float = false)
      by (apply DoubleFacts.mul_const_not_nan; auto).
    destruct (_ <? _)%float; auto using DoubleFacts.opp_not_nan.
Qed.

Lemma handleWheel_steady (deltaY : number) (c : ControlState) :
  steady cos64 sin64 c -> steady cos64 sin64 (handleWheel deltaY c).
Proof.
  intros H. pose proof (wheel_target_not_nan deltaY c H) as Hnan.
  destruct H as ((Hz1 & Hz2 & Hr) & Hzoom & Hx & Hy).
  unfold steady, withinLimits, handleWheel. simpl.
  repeat split; try tauto;
    now apply DoubleFacts.clamp_bounds.
Qed.

Lemma drag_target_not_nan (clientY : number) (c : ControlState) :
  steady cos64 sin64 c -> Double.is_finite clientY = true ->
  is_nan (targetRotationX c
          + (clientY - mouseY c) * Double.of_literal 0.01)%float = false.
Proof.
  intros ((_ & _ & Hr1 & Hr2) & _ & _ & Hy) Hc.
  apply DoubleFacts.add_finite_not_nan.
  - now apply (DoubleFacts.between_finite (- Double.PI / 2) (Double.PI / 2)).
  - apply DoubleFacts.mul_const_not_nan; auto.
    now apply DoubleFacts.sub_finite_not_nan.
Qed.

Lemma handleMouseMove_steady (mounted : bool) (clientX clientY : number)
    (c : ControlState) :
  Double.is_finite clientX = true -> Double.is_finite clientY = true ->
  steady cos64 sin64 c ->
  steady cos64 sin64 (handleMouseMove mounted clientX clientY c).
Proof.
  intros HX HY H. unfold handleMouseMove.
  destruct mounted; simpl; [|assumption].
  destruct (mouseDown c); [|assumption].
  pose proof (drag_target_not_nan clientY c H HY) as Hnan.
  destruct H as ((Hz1 & Hz2 & Hr) & Hzoom & Hx & Hy).
  unfold steady, withinLimits. simpl.
  repeat split; try tauto;
    now apply DoubleFacts.clamp_bounds.
Qed.

Lemma handle_steady (e : InputEvent) (c : ControlState) :
  forallb Double.is_finite (eventCoordinates e) = true ->
  steady cos64 sin64 c -> steady cos64 sin64 (handle e c).
Proof.
  destruct e as [x y| |mounted x y|deltaY]; simpl.
  - rewrite andb_true_r, andb_true_iff.
    intros [HX HY] (Hl & Hzoom & _ & _).
    repeat split; try assumption; apply Hl.
  - intros _ (Hl & Hzoom & Hx & Hy).
    repeat split; try assumption; apply Hl.
  - rewrite andb_true_r, andb_true_iff. intros [HX HY].
    now apply handleMouseMove_steady.
  - intros _. apply handleWheel_steady.
Qed.

Lemma handleAll_steady (events : list InputEvent) :
  forall c,
    finiteEvents (map eventCoordinates events) = true ->
    steady cos64 sin64 c -> steady cos64 sin64 (handleAll events c).
Proof.
  unfold handleAll, finiteEvents.
  induction events as [|e events IH]; intros c Hev Hc; simpl in *.
  - assumption.
  - apply andb_true_iff in Hev. destruct Hev as [He Hev].
    apply IH; [assumption|]. now apply handle_steady.
Qed.

(** C7.  From the initial controls, after any sequence of mouse-down,
    mouse-up, mouse-move and wheel events whose pointer coordinates are
    finite, the zoom target is between 10 and 2000 and the vertical rotation
    target is between [-Math.PI / 2] and [Math.PI / 2]. *)
Theorem targets_stay_clamped (events : list InputEvent) :
  finiteEvents (map eventCoordinates events) = true ->
  let c := handleAll events initialControls in
  (10 <=? targetZoom c)%float = true
  /\ (targetZoom c <=? 2000)%float = true
  /\ (- Double.PI / 2 <=? targetRotationX c)%float = true
  /\ (targetRotationX c <=? Double.PI / 2)%float = true.
Proof.
  intros Hev. apply (handleAll_steady events _ Hev steady_initial).
Qed.

(** *** Coasting to rest *)

Lemma zero_is_still_binary64 :
  (Vector3_length (THREE_Vector3 (lit 0) (lit 0) (lit 0)) >? lit 0)%js = false.
Proof. reflexivity. Qed.

(** Without movement keys the frames apply [decay] to the velocity. *)
Lemma coasting_binary64 (camera : nat -> Vector3 * Vector3) (f : Frame)
    (n : nat) :
  noMovementKey (controls f) = true ->
  velocity (controls (frames camera n f))
  = Nat.iter n decay (velocity (controls f)).
Proof.
  intros Hk. apply (frames_decay zero_is_still_binary64 camera f n Hk).
Qed.

(** A velocity whose decayed length tests below 0.1 becomes the zero vector
    itself, and the zero vector stays. *)
Lemma decay_below_threshold (v : Vector3) :
  (Vector3_length (multiplyScalar v 0.9%float) <? 0.1)%float = true ->
  decay v = THREE_Vector3 0%float 0%float 0%float.
Proof.
  intros H. unfold decay.
  change (Vector3_length (multiplyScalar v (lit 0.9)) <? lit 0.1)%js
    with (Vector3_length (multiplyScalar v 0.9%float) <? 0.1)%float.
  rewrite H. reflexivity.
Qed.

Lemma rest_is_kept (n : nat) :
  Nat.iter n decay Vector3_zero = THREE_Vector3 0%float 0%float 0%float.
Proof.
  induction n as [|n IH]; simpl.
  - reflexivity.
  - rewrite IH. reflexivity.
Qed.

(** *** Falsy distances *)

Lemma truthy_false (d : float) :
  Double.truthy d = false <-> is_zero d = true \/ is_nan d = true.
Proof.
  unfold Double.truthy. rewrite negb_false_iff, orb_true_iff. tauto.
Qed.

End OverDoubles.

(** ** Rounding in binary64

    One-sided bounds on what multiplication, addition and square root
    return, read off the IEEE specification [SpecFloat] that the primitive
    operations obey. *)

Section Rounding.

Local Open Scope R_scope.

Lemma bpow_pos (e : Z) : 0 < bpow e.
Proof. apply powerRZ_lt. lra. Qed.

Lemma bpow_add (a b : Z) : bpow (a + b) = bpow a * bpow b.
Proof. apply powerRZ_add. lra. Qed.

Lemma bpow_le (a b : Z) : (a <= b)%Z -> bpow a <= bpow b.
Proof.
  intros H. replace b with (a + (b - a))%Z by lia. rewrite bpow_add.
  assert (1 <= bpow (b - a)).
  { unfold bpow. destruct (b - a)%Z eqn:E; simpl; try lia; try lra.
    apply pow_R1_Rle. lra. }
  pose proof (bpow_pos a). nra.
Qed.

Lemma bpow_IZR (n : Z) : (0 <= n)%Z -> bpow n = IZR (2 ^ n).
Proof.
  intros H. unfold bpow. rewrite <- (Z2Nat.id n H) at 1.
  rewrite <- pow_powerRZ. rewrite <- (Z2Nat.id n H) at 2.
  rewrite <- pow_IZR. reflexivity.
Qed.

Lemma bpow_1 : bpow 1 = 2.
Proof. unfold bpow. simpl. lra. Qed.

Lemma bpow_0 : bpow 0 = 1.
Proof. reflexivity. Qed.

Lemma bpow_succ (e : Z) : bpow (e + 1) = 2 * bpow e.
Proof. rewrite bpow_add, bpow_1. ring. Qed.

(** Arithmetic with powers of two kept abstract. *)
Ltac pow_arith tac :=
  repeat match goal with
    | |- context [bpow ?e] =>
        let b := fresh "b" in
        let Hb := fresh "Hb" in
        pose proof (bpow_pos e) as Hb;
        set (b := bpow e) in *; clearbody b
    | H : context [bpow ?e] |- _ =>
        let b := fresh "b" in
        let Hb := fresh "Hb" in
        pose proof (bpow_pos e) as Hb;
        set (b := bpow e) in *; clearbody b
    end;
  tac.

(** *** Digits *)

Lemma digits2_pos_bounds (m : positive) :
  (2 ^ (Zpos (digits2_pos m) - 1) <= Zpos m < 2 ^ Zpos (digits2_pos m))%Z.
Proof.
  induction m as [m IH|m IH|]; simpl digits2_pos.
  - rewrite Pos2Z.inj_succ.
    replace (Z.succ (Zpos (digits2_pos m)) - 1)%Z
      with (Z.succ (Zpos (digits2_pos m) - 1))%Z by lia.
    rewrite !Z.pow_succ_r by lia. lia.
  - rewrite Pos2Z.inj_succ.
    replace (Z.succ (Zpos (digits2_pos m)) - 1)%Z
      with (Z.succ (Zpos (digits2_pos m) - 1))%Z by lia.
    rewrite !Z.pow_succ_r by lia. lia.
  - simpl. lia.
Qed.

Lemma Zdigits2_bounds (m : Z) :
  (0 < m)%Z -> (2 ^ (Zdigits2 m - 1) <= m < 2 ^ Zdigits2 m)%Z.
Proof.
  destruct m as [|p|p]; try lia. intros _. apply digits2_pos_bounds.
Qed.

Lemma Zdigits2_nonneg (m : Z) : (0 <= Zdigits2 m)%Z.
Proof. destruct m; simpl; lia. Qed.

(** *** Shifting right *)

Lemma shr_1_m (mrs : shr_record) :
  (0 <= shr_m mrs)%Z -> shr_m (shr_1 mrs) = (shr_m mrs / 2)%Z.
Proof.
  destruct mrs as [m r s]. cbn [shr_m].
  destruct m as [|[p|p|]|p]; intros H; try lia; try reflexivity.
  - cbn [shr_1 shr_m]. apply Z.div_unique with (r := 1%Z); lia.
  - cbn [shr_1 shr_m]. apply Z.div_unique with (r := 0%Z); lia.
Qed.

Lemma iter_pos_shr_1_m (p : positive) (mrs : shr_record) :
  (0 <= shr_m mrs)%Z ->
  shr_m (SpecFloat.iter_pos shr_1 p mrs) = (shr_m mrs / 2 ^ Zpos p)%Z.
Proof.
  revert mrs. induction p as [p IH|p IH|]; intros mrs H;
    cbn [SpecFloat.iter_pos].
  - rewrite IH, IH, shr_1_m by
      (try apply DoubleFacts.iter_pos_shr_1_nonneg;
       try apply DoubleFacts.shr_1_nonneg; assumption).
    rewrite !Z.div_div by (try apply Z.pow_pos_nonneg; lia).
    f_equal. rewrite (Pos2Z.inj_xI p).
    replace (2 * Zpos p + 1)%Z with (1 + Zpos p + Zpos p)%Z by lia.
    rewrite !Z.pow_add_r by lia. change (2 ^ 1)%Z with 2%Z. ring.
  - rewrite IH, IH by
      (try apply DoubleFacts.iter_pos_shr_1_nonneg; assumption).
    rewrite !Z.div_div by (try apply Z.pow_pos_nonneg; lia).
    f_equal. rewrite (Pos2Z.inj_xO p).
    replace (2 * Zpos p)%Z with (Zpos p + Zpos p)%Z by lia.
    rewrite !Z.pow_add_r by lia. ring.
  - rewrite shr_1_m by assumption. reflexivity.
Qed.

Lemma F2R_div_le (M E k : Z) :
  (0 <= M)%Z -> (0 < k)%Z -> F2R (M / 2 ^ k) (E + k) <= F2R M E.
Proof.
  intros HM Hk. unfold F2R. rewrite bpow_add, (bpow_IZR k) by lia.
  assert (H : (M / 2 ^ k * 2 ^ k <= M)%Z).
  { rewrite Z.mul_comm. apply Z.mul_div_le. apply Z.pow_pos_nonneg; lia. }
  apply IZR_le in H. rewrite mult_IZR in H.
  pow_arith nra.
Qed.

(** The two results of [shr_fexp]: nothing happens when the exponent is
    already at or above the canonical one, otherwise the mantissa is divided
    and the exponent becomes the canonical one. *)
Lemma shr_fexp_spec (M E : Z) (l : location) :
  (0 <= M)%Z ->
  let k := (fexp prec emax (Zdigits2 M + E) - E)%Z in
  ((k <= 0)%Z ->
   shr_fexp prec emax M E l = (shr_record_of_loc M l, E))
  /\ ((0 < k)%Z ->
      shr_m (fst (shr_fexp prec emax M E l)) = (M / 2 ^ k)%Z
      /\ snd (shr_fexp prec emax M E l) = (E + k)%Z).
Proof.
  intros HM k. unfold shr_fexp, shr. fold k.
  assert (H0 : shr_m (shr_record_of_loc M l) = M)
    by (destruct l as [|[ | | ]]; reflexivity).
  split; intros Hk.
  - destruct k; try lia; reflexivity.
  - destruct k as [|p|p]; try lia. simpl fst. simpl snd.
    rewrite iter_pos_shr_1_m by lia. rewrite H0. split; reflexivity.
Qed.

Lemma shr_fexp_le (M E : Z) (l : location) :
  (0 <= M)%Z ->
  F2R (shr_m (fst (shr_fexp prec emax M E l)))
      (snd (shr_fexp prec emax M E l)) <= F2R M E.
Proof.
  intros HM.
  destruct (shr_fexp_spec M E l HM) as [Hno Hshift].
  destruct (Z_le_gt_dec (fexp prec emax (Zdigits2 M + E) - E) 0) as [Hk|Hk].
  - rewrite (Hno Hk). simpl.
    replace (shr_m (shr_record_of_loc M l)) with M
      by (destruct l as [|[ | | ]]; reflexivity).
    lra.
  - destruct (Hshift ltac:(lia)) as [-> ->]. apply F2R_div_le; lia.
Qed.

Lemma round_nearest_even_le (m : Z) (l : location) :
  (round_nearest_even m l <= m + 1)%Z.
Proof.
  destruct l as [|[ | | ]]; simpl; try lia. destruct (Z.even m); lia.
Qed.

Lemma round_nearest_even_exact (m : Z) : round_nearest_even m loc_Exact = m.
Proof. reflexivity. Qed.

Lemma slack_nonneg (M E : Z) (l : location) : 0 <= slack M E l.
Proof.
  unfold slack. destruct l; [destruct (_ <=? _)%Z|];
    try lra; apply Rlt_le, bpow_pos.
Qed.

(** After the first shift and the rounding, the value is at most the exact
    one plus the slack. *)
Lemma rounded_le (M E : Z) (l : location) :
  (0 <= M)%Z ->
  let '(mrs, e) := shr_fexp prec emax M E l in
  F2R (round_nearest_even (shr_m mrs) (loc_of_shr_record mrs)) e
  <= F2R M E + slack M E l.
Proof.
  intros HM.
  destruct (shr_fexp_spec M E l HM) as [Hno Hshift].
  unfold slack.
  destruct (Z_le_gt_dec (fexp prec emax (Zdigits2 M + E) - E) 0) as [Hk|Hk].
  - rewrite (Hno Hk).
    destruct l as [|c].
    + simpl. destruct (_ <=? _)%Z eqn:E0; [lra|].
      apply Z.leb_gt in E0. lia.
    + rewrite Z.max_r by lia. rewrite Z.add_0_r.
      assert (Hr : (round_nearest_even
                      (shr_m (shr_record_of_loc M (loc_Inexact c)))
                      (loc_of_shr_record
                         (shr_record_of_loc M (loc_Inexact c)))
                    <= M + 1)%Z).
      { destruct c; apply round_nearest_even_le. }
      apply IZR_le in Hr. rewrite plus_IZR in Hr.
      cbv beta iota. unfold F2R. pow_arith nra.
  - destruct (shr_fexp prec emax M E l) as [mrs e] eqn:Es.
    destruct (Hshift ltac:(lia)) as [Hm He]. simpl in Hm, He. subst e.
    pose proof (round_nearest_even_le (shr_m mrs) (loc_of_shr_record mrs))
      as Hr.
    apply IZR_le in Hr. rewrite plus_IZR in Hr.
    set (k := (fexp prec emax (Zdigits2 M + E) - E)%Z) in *.
    pose proof (F2R_div_le M E k HM ltac:(lia)) as Hd.
    rewrite <- Hm in Hd.
    assert (Hs : bpow (E + k)
                 = match l with
                   | loc_Exact => if (k <=? 0)%Z then 0 else bpow (E + k)
                   | loc_Inexact _ => bpow (E + Z.max k 0)
                   end).
    { destruct l.
      - destruct (k <=? 0)%Z eqn:E0; [apply Z.leb_le in E0; lia|reflexivity].
      - rewrite Z.max_l by lia. reflexivity. }
    rewrite <- Hs. unfold F2R in *. pow_arith nra.
Qed.

Lemma fexp_eq (x : Z) : fexp prec emax x = Z.max (x - 53) (-1074).
Proof. reflexivity. Qed.

Lemma F2R_digits_le (M E : Z) :
  (0 < M)%Z -> bpow (Zdigits2 M - 1 + E) <= F2R M E.
Proof.
  intros HM. unfold F2R. rewrite bpow_add.
  destruct (Zdigits2_bounds M HM) as [Hlo _].
  assert (Hd : (0 <= Zdigits2 M - 1)%Z).
  { destruct M as [|p|p]; try lia. change (Zdigits2 (Zpos p))
      with (Zpos (digits2_pos p)). lia. }
  rewrite (bpow_IZR _ Hd). apply IZR_le in Hlo.
  pow_arith nra.
Qed.

Lemma F2R_lt_digits (M E : Z) :
  (0 <= M)%Z -> F2R M E < bpow (Zdigits2 M + E).
Proof.
  intros HM. unfold F2R. rewrite bpow_add.
  rewrite (bpow_IZR _ (Zdigits2_nonneg M)).
  assert (H : (M < 2 ^ Zdigits2 M)%Z).
  { destruct (Z.eq_dec M 0) as [->|Hne]; [reflexivity|].
    apply Zdigits2_bounds. lia. }
  apply IZR_lt in H. pow_arith nra.
Qed.

(** One rounding never exceeds the exact value by more than the slack; it
    overflows only when the exact value plus the slack reaches [2 ^ 1024]
    or the exponent was out of range from the start. *)
Lemma binary_round_aux_bound (s : bool) (M E : Z) (l : location) :
  (0 <= M)%Z ->
  match binary_round_aux prec emax s M E l with
  | S754_zero s' => s' = s
  | S754_finite s' m e =>
      s' = s /\ F2R (Zpos m) e <= F2R M E + slack M E l
  | S754_infinity s' =>
      s' = s /\ ((971 < E)%Z \/ bpow 1024 <= F2R M E + slack M E l)
  | S754_nan => False
  end.
Proof.
  intros HM. unfold binary_round_aux.
  pose proof (rounded_le M E l HM) as Hr.
  pose proof (shr_fexp_spec M E l HM) as [Hno1 Hshift1].
  pose proof (DoubleFacts.shr_fexp_nonneg M E l HM) as Hm1.
  destruct (shr_fexp prec emax M E l) as [mrs e'] eqn:E1.
  simpl in Hm1.
  set (m2 := round_nearest_even (shr_m mrs) (loc_of_shr_record mrs)) in *.
  assert (Hm2 : (0 <= m2)%Z)
    by (apply DoubleFacts.round_nearest_even_nonneg; assumption).
  pose proof (shr_fexp_le m2 e' loc_Exact Hm2) as Hle2.
  pose proof (shr_fexp_spec m2 e' loc_Exact Hm2) as [Hno2 Hshift2].
  pose proof (DoubleFacts.shr_fexp_nonneg m2 e' loc_Exact Hm2) as Hm3.
  destruct (shr_fexp prec emax m2 e' loc_Exact) as [mrs2 e2] eqn:E2.
  simpl in Hle2, Hm3.
  destruct (shr_m mrs2) as [|m|m] eqn:Em; try lia; [reflexivity|].
  destruct (e2 <=? emax - prec)%Z eqn:Ee.
  - split; [reflexivity|]. lra.
  - split; [reflexivity|]. apply Z.leb_gt in Ee.
    change (emax - prec)%Z with 971%Z in Ee.
    pose proof (slack_nonneg M E l) as Hs.
    destruct (Z_le_gt_dec (fexp prec emax (Zdigits2 m2 + e') - e') 0)
      as [Hk2|Hk2].
    + (* no second shift: the exponent is the one after the first shift *)
      injection (Hno2 Hk2) as _ ->.
      destruct (Z_le_gt_dec (fexp prec emax (Zdigits2 M + E) - E) 0)
        as [Hk1|Hk1].
      * injection (Hno1 Hk1) as _ ->. left. lia.
      * destruct (Hshift1 ltac:(lia)) as [_ He']. simpl in He'.
        rewrite fexp_eq in He', Hk1.
        assert (HMpos : (0 < M)%Z).
        { destruct (Z.eq_dec M 0) as [->|]; [simpl in *; lia|lia]. }
        right. pose proof (F2R_digits_le M E HMpos) as Hd.
        assert (Hb : bpow 1024 <= bpow (Zdigits2 M - 1 + E))
          by (apply bpow_le; lia).
        lra.
    + destruct (Hshift2 ltac:(lia)) as [Hm He2]. simpl in Hm, He2.
      rewrite fexp_eq in He2, Hk2.
      assert (Hm2pos : (0 < m2)%Z).
      { destruct (Z.eq_dec m2 0) as [E0|]; [|lia].
        rewrite E0, Zdiv_0_l in Hm. lia. }
      right. pose proof (F2R_digits_le m2 e' Hm2pos) as Hd.
      assert (Hb : bpow 1024 <= bpow (Zdigits2 m2 - 1 + e'))
        by (apply bpow_le; lia).
      lra.
Qed.

Lemma F2R_pos (M E : Z) : (0 < M)%Z -> 0 < F2R M E.
Proof.
  intros HM. unfold F2R. apply Rmult_lt_0_compat;
    [now apply IZR_lt | apply bpow_pos].
Qed.

Lemma slack_exact (M E : Z) :
  (0 < M)%Z ->
  slack M E loc_Exact <= F2R M E * bpow (-52) + bpow (-1074).
Proof.
  intros HM. unfold slack.
  pose proof (bpow_pos (-1074)) as H1.
  assert (H2 : 0 <= F2R M E * bpow (-52)).
  { apply Rmult_le_pos; apply Rlt_le; [now apply F2R_pos|apply bpow_pos]. }
  destruct (_ <=? 0)%Z eqn:Ek; [lra|]. apply Z.leb_gt in Ek.
  replace (E + (fexp prec emax (Zdigits2 M + E) - E))%Z
    with (fexp prec emax (Zdigits2 M + E)) by lia.
  rewrite fexp_eq.
  destruct (Z.max_spec (Zdigits2 M + E - 53) (-1074)) as [[_ ->]|[_ ->]].
  - lra.
  - replace (Zdigits2 M + E - 53)%Z with (Zdigits2 M - 1 + E + -52)%Z by lia.
    rewrite bpow_add. pose proof (F2R_digits_le M E HM) as Hd.
    pow_arith nra.
Qed.

Lemma slack_any (M E : Z) (l : location) :
  (0 < M)%Z -> slack M E l <= F2R M E + bpow (-1074).
Proof.
  intros HM.
  assert (H52 : bpow (-52) <= 1).
  { change 1 with (bpow 0). apply bpow_le. lia. }
  assert (HF : 0 < F2R M E) by now apply F2R_pos.
  pose proof (slack_exact M E HM) as He.
  pose proof (bpow_pos (-1074)) as H1.
  destruct l as [|c].
  - pow_arith nra.
  - unfold slack in *.
    destruct (_ <=? 0)%Z eqn:Ek.
    + apply Z.leb_le in Ek. rewrite Z.max_r by lia. rewrite Z.add_0_r.
      assert (bpow E <= F2R M E).
      { unfold F2R. assert (1 <= IZR M) by (apply IZR_le; lia).
        pow_arith nra. }
      lra.
    + apply Z.leb_gt in Ek. rewrite Z.max_l by lia. pow_arith nra.
Qed.

(** *** Magnitudes of the numbers of the specification *)

Lemma SFmag_nonneg (x : spec_float) : 0 <= SFmag x.
Proof.
  destruct x; simpl; try lra. apply Rlt_le, F2R_pos. lia.
Qed.

Lemma F2R_mul (m1 e1 m2 e2 : Z) :
  F2R (m1 * m2) (e1 + e2) = F2R m1 e1 * F2R m2 e2.
Proof. unfold F2R. rewrite mult_IZR, bpow_add. ring. Qed.

(** The product of two finite numbers, rounded. *)
Lemma SFmul_bound (x y : spec_float) :
  SFfinite x -> SFfinite y ->
  let bound := SFmag x * SFmag y * (1 + bpow (-52)) + bpow (-1074) in
  match SF64mul x y with
  | S754_zero _ => True
  | S754_finite _ m e => F2R (Zpos m) e <= bound
  | S754_infinity _ => (971 < SFexp x + SFexp y)%Z \/ bpow 1024 <= bound
  | S754_nan => False
  end.
Proof.
  destruct x as [sx|sx| |sx mx ex], y as [sy|sy| |sy my ey]; simpl;
    try contradiction; auto. intros _ _.
  pose proof (binary_round_aux_bound (xorb sx sy) (Zpos (mx * my))
                (ex + ey) loc_Exact ltac:(lia)) as H.
  pose proof (slack_exact (Zpos (mx * my)) (ex + ey) ltac:(lia)) as Hs.
  rewrite Pos2Z.inj_mul, F2R_mul in *.
  unfold SF64mul, SFmul.
  destruct (binary_round_aux prec emax (xorb sx sy) (Zpos mx * Zpos my)
              (ex + ey) loc_Exact) as [s|s| |s m e];
    auto.
  - destruct H as [_ [H|H]]; [left; assumption|right]. pow_arith lra.
  - destruct H as [_ H]. pow_arith lra.
Qed.

(** *** Alignment *)

Lemma iter_xO (m d : positive) :
  Zpos (Pos.iter xO m d) = (Zpos m * 2 ^ Zpos d)%Z.
Proof.
  induction d as [|d IH] using Pos.peano_ind.
  - simpl. lia.
  - rewrite Pos.iter_succ, Pos2Z.inj_xO, IH, Pos2Z.inj_succ.
    rewrite Z.pow_succ_r by lia. ring.
Qed.

(** [shl_align] keeps the value and does not raise the exponent. *)
Lemma shl_align_spec (m : positive) (e e' : Z) :
  F2R (Zpos (fst (shl_align m e e'))) (snd (shl_align m e e'))
  = F2R (Zpos m) e
  /\ snd (shl_align m e e') = Z.min e e'.
Proof.
  unfold shl_align.
  destruct (e' - e)%Z as [|d|d] eqn:Ed; simpl fst; simpl snd.
  - split; [reflexivity|lia].
  - split; [reflexivity|lia].
  - split; [|lia].
    rewrite iter_xO. unfold F2R. rewrite mult_IZR.
    replace e with (e' + Zpos d)%Z by lia.
    rewrite bpow_add, (bpow_IZR (Zpos d)) by lia. ring.
Qed.

(** [binary_round] of a positive mantissa, as one rounding of the aligned
    value. *)
Lemma binary_round_bound (s : bool) (m : positive) (e : Z) :
  let bound := F2R (Zpos m) e * (1 + bpow (-52)) + bpow (-1074) in
  match binary_round prec emax s m e with
  | S754_zero _ => True
  | S754_finite _ m' e' => F2R (Zpos m') e' <= bound
  | S754_infinity _ => (971 < e)%Z \/ bpow 1024 <= bound
  | S754_nan => False
  end.
Proof.
  unfold binary_round.
  destruct (shl_align_spec m e (fexp prec emax (Zpos (digits2_pos m) + e)))
    as [Hv He].
  destruct (shl_align m e (fexp prec emax (Zpos (digits2_pos m) + e)))
    as [mz ez]. simpl in Hv, He.
  pose proof (binary_round_aux_bound s (Zpos mz) ez loc_Exact ltac:(lia))
    as H.
  pose proof (slack_exact (Zpos mz) ez ltac:(lia)) as Hs.
  rewrite Hv in *.
  destruct (binary_round_aux prec emax s (Zpos mz) ez loc_Exact)
    as [s'|s'| |s' m' e']; auto.
  - destruct H as [_ [H|H]]; [left; lia|right]. pow_arith lra.
  - destruct H as [_ H]. pow_arith lra.
Qed.

Lemma binary_round_sign (s : bool) (m : positive) (e : Z)
    (s' : bool) (m' : positive) (e' : Z) :
  binary_round prec emax s m e = S754_finite s' m' e' -> s' = s.
Proof.
  unfold binary_round. destruct (shl_align _ _ _) as [mz ez]. intros Hr.
  pose proof (binary_round_aux_bound s (Zpos mz) ez loc_Exact ltac:(lia))
    as Hb.
  rewrite Hr in Hb. apply Hb.
Qed.

(** The sum of two finite numbers that are not negative, rounded. *)
Lemma SFadd_bound (x y : spec_float) :
  SFnonneg x -> SFnonneg y ->
  let bound := (SFmag x + SFmag y) * (1 + bpow (-52)) + bpow (-1074) in
  match SF64add x y with
  | S754_zero _ => True
  | S754_finite s m e => s = false /\ F2R (Zpos m) e <= bound
  | S754_infinity _ =>
      (971 < Z.min (SFexp x) (SFexp y))%Z \/ bpow 1024 <= bound
  | S754_nan => False
  end.
Proof.
  assert (H52 : 0 < bpow (-52)) by apply bpow_pos.
  assert (H74 : 0 < bpow (-1074)) by apply bpow_pos.
  destruct x as [sx|sx| |[|] mx ex], y as [sy|sy| |[|] my ey];
    cbn [SFnonneg SF64add SFadd SFmag SFexp]; try contradiction; intros _ _.
  - destruct sx, sy; exact I.
  - split; [reflexivity|].
    pose proof (F2R_pos (Zpos my) ey ltac:(lia)). pow_arith nra.
  - split; [reflexivity|].
    pose proof (F2R_pos (Zpos mx) ex ltac:(lia)). pow_arith nra.
  - cbn [cond_Zopp].
    destruct (shl_align_spec mx ex (Z.min ex ey)) as [Hvx Hex].
    destruct (shl_align_spec my ey (Z.min ex ey)) as [Hvy Hey].
    rewrite (Z.min_r ex (Z.min ex ey)) in Hex by lia.
    rewrite (Z.min_r ey (Z.min ex ey)) in Hey by lia.
    change (IntDef.Z.min ex ey) with (Z.min ex ey).
    rewrite Hex in Hvx. rewrite Hey in Hvy.
    set (ax := fst (shl_align mx ex (Z.min ex ey))) in *.
    set (ay := fst (shl_align my ey (Z.min ex ey))) in *.
    change (Zpos ax + Zpos ay)%Z with (Zpos (ax + ay)).
    cbn [binary_normalize].
    pose proof (binary_round_bound false (ax + ay) (Z.min ex ey)) as H.
    assert (Hsum : F2R (Zpos (ax + ay)) (Z.min ex ey)
                   = F2R (Zpos mx) ex + F2R (Zpos my) ey).
    { rewrite <- Hvx, <- Hvy. unfold F2R. rewrite Pos2Z.inj_add, plus_IZR.
      ring. }
    rewrite Hsum in H.
    destruct (binary_round prec emax false (ax + ay) (Z.min ex ey))
      as [s'|s'| |s' m' e'] eqn:Er; auto.
    split; [eapply binary_round_sign; exact Er|exact H].
Qed.

(** *** Square root *)

Lemma bpow_double (e : Z) : bpow (2 * e) = bpow e * bpow e.
Proof. replace (2 * e)%Z with (e + e)%Z by lia. apply bpow_add. Qed.

(** The integer square root that [SFsqrt] rounds: its square is at most the
    argument. *)
Lemma SFsqrt_core_binary_spec (m : positive) (e : Z) :
  let '(q, e', l) := SFsqrt_core_binary prec emax (Zpos m) e in
  (0 < q)%Z /\ (e' <= Z.div2 e)%Z
  /\ F2R q e' * F2R q e' <= F2R (Zpos m) e.
Proof.
  unfold SFsqrt_core_binary.
  set (e' := Z.min (fexp prec emax (Z.div2 (Zdigits2 (Zpos m) + e + 1)))
                   (Z.div2 e)).
  assert (He' : (e' <= Z.div2 e)%Z) by (unfold e'; lia).
  assert (Hdiv : (2 * Z.div2 e <= e)%Z).
  { rewrite Z.div2_div. apply Z.mul_div_le. lia. }
  set (s := (e - 2 * e')%Z).
  assert (Hs : (0 <= s)%Z) by (unfold s; lia).
  set (m' := match s with
             | 0%Z => Zpos m
             | Zpos _ => Z.shiftl (Zpos m) s
             | Zneg _ => 0%Z
             end).
  assert (Hm' : m' = (Zpos m * 2 ^ s)%Z).
  { unfold m'. destruct s as [|p|p] eqn:Es; try lia.
    apply Z.shiftl_mul_pow2. lia. }
  assert (Hm'pos : (0 < m')%Z).
  { rewrite Hm'. apply Z.mul_pos_pos; [lia|]. apply Z.pow_pos_nonneg; lia. }
  pose proof (Z.sqrtrem_spec m' ltac:(lia)) as Hsq.
  destruct (Z.sqrtrem m') as [q r].
  destruct Hsq as [Hsq Hr].
  assert (Hq : (0 < q)%Z) by nia.
  split; [assumption|]. split; [assumption|].
  assert (Hqq : (q * q <= m')%Z) by lia.
  apply IZR_le in Hqq. rewrite mult_IZR, Hm', mult_IZR in Hqq.
  rewrite <- (bpow_IZR s Hs) in Hqq.
  assert (Hbe : bpow e = bpow s * (bpow e' * bpow e')).
  { rewrite <- bpow_double, <- bpow_add. f_equal. unfold s. lia. }
  unfold F2R. rewrite Hbe.
  pose proof (bpow_pos e') as Hb.
  assert (Hbb : 0 < bpow e' * bpow e') by nra.
  replace (IZR q * bpow e' * (IZR q * bpow e'))
    with (IZR q * IZR q * (bpow e' * bpow e')) by ring.
  replace (IZR (Zpos m) * (bpow s * (bpow e' * bpow e')))
    with (IZR (Zpos m) * bpow s * (bpow e' * bpow e')) by ring.
  apply Rmult_le_compat_r; [lra|assumption].
Qed.

(** The square root of a finite number that is not negative, rounded: at
    most twice a number whose square is at most the argument. *)
Lemma SFsqrt_bound (x : spec_float) :
  SFnonneg x ->
  match SF64sqrt x with
  | S754_zero _ => True
  | S754_finite s m e =>
      s = false
      /\ exists v, 0 <= v /\ v * v <= SFmag x
                   /\ F2R (Zpos m) e <= 2 * v + bpow (-1074)
  | S754_infinity _ =>
      (971 < Z.div2 (SFexp x))%Z
      \/ exists v, 0 <= v /\ v * v <= SFmag x
                   /\ bpow 1024 <= 2 * v + bpow (-1074)
  | S754_nan => False
  end.
Proof.
  destruct x as [sx|sx| |[|] mx ex]; cbn [SFnonneg SF64sqrt SFsqrt SFmag SFexp];
    try contradiction; intros _; [exact I|].
  pose proof (SFsqrt_core_binary_spec mx ex) as Hc.
  destruct (SFsqrt_core_binary prec emax (Zpos mx) ex) as [[q e'] l].
  destruct Hc as (Hq & He' & Hsq).
  pose proof (binary_round_aux_bound false q e' l ltac:(lia)) as H.
  pose proof (slack_any q e' l Hq) as Hs.
  pose proof (F2R_pos q e' Hq) as Hpos.
  destruct (binary_round_aux prec emax false q e' l) as [s|s| |s m e];
    auto.
  - destruct H as [_ [H|H]]; [left; lia|right].
    exists (F2R q e'). repeat split; try lra; pow_arith lra.
  - destruct H as [-> H]. split; [reflexivity|].
    exists (F2R q e'). repeat split; try lra; pow_arith lra.
Qed.

(** *** Valid numbers and their order *)

Lemma valid_finite (s : bool) (m : positive) (e : Z) :
  valid_binary (S754_finite s m e) = true ->
  (-1074 <= e <= 971)%Z
  /\ (Zpos (digits2_pos m) <= 53)%Z
  /\ ((-1074 < e)%Z -> Zpos (digits2_pos m) = 53%Z).
Proof.
  unfold SpecFloat.valid_binary, bounded, canonical_mantissa.
  intros H. apply andb_true_iff in H. destruct H as [H1 H2].
  apply Z.eqb_eq in H1. apply Z.leb_le in H2. rewrite fexp_eq in H1.
  change (emax - prec)%Z with 971%Z in H2. lia.
Qed.

Lemma valid_mag_lt (x : spec_float) :
  valid_binary x = true -> SFmag x < bpow 1024.
Proof.
  destruct x as [s|s| |s m e]; cbn [SFmag]; try (intros _; apply bpow_pos).
  intros Hv. destruct (valid_finite s m e Hv) as (He & Hd & _).
  pose proof (F2R_lt_digits (Zpos m) e ltac:(lia)) as H.
  cbn [Zdigits2] in H.
  assert (bpow (Zpos (digits2_pos m) + e) <= bpow 1024)
    by (apply bpow_le; lia).
  lra.
Qed.

(** Among valid numbers that are not negative, a smaller magnitude compares
    below. *)
Lemma SFltb_of_mag (x y : spec_float) :
  valid_binary x = true -> valid_binary y = true ->
  SFnonneg x -> SFnonneg y ->
  SFmag x < SFmag y -> SFltb x y = true.
Proof.
  destruct x as [sx|sx| |[|] mx ex], y as [sy|sy| |[|] my ey];
    cbn [SFnonneg SFmag]; try contradiction; intros Hvx Hvy _ _ Hlt;
    try lra; try reflexivity.
  - pose proof (F2R_pos (Zpos mx) ex ltac:(lia)). lra.
  - destruct (valid_finite _ _ _ Hvx) as (Hex & Hdx & Hnx).
    destruct (valid_finite _ _ _ Hvy) as (Hey & Hdy & Hny).
    unfold SFltb. cbn [SFcompare].
    destruct (Z.compare_spec ex ey) as [E|E|E].
    + subst ey. change (Pos.compare_cont Eq mx my) with (Pos.compare mx my).
      destruct (Pos.compare_spec mx my) as [F|F|F]; try reflexivity;
        exfalso; unfold F2R in Hlt; pose proof (bpow_pos ex).
      * subst. lra.
      * assert (IZR (Zpos my) < IZR (Zpos mx)) by (apply IZR_lt; lia). nra.
    + reflexivity.
    + exfalso.
      pose proof (F2R_digits_le (Zpos mx) ex ltac:(lia)) as Hlo.
      pose proof (F2R_lt_digits (Zpos my) ey ltac:(lia)) as Hhi.
      cbn [Zdigits2] in Hlo, Hhi. rewrite (Hnx ltac:(lia)) in Hlo.
      assert (bpow (Zpos (digits2_pos my) + ey) <= bpow (53 - 1 + ex))
        by (apply bpow_le; lia).
      lra.
Qed.

(** *** Doubles *)

Lemma bpow_opp (n : Z) : bpow (Z.opp n) = / bpow n.
Proof. apply powerRZ_neg'. Qed.

Lemma bpow_m52 : bpow (-52) = / 4503599627370496.
Proof.
  change (bpow (-52)) with (bpow (Z.opp 52)).
  rewrite (bpow_opp 52), (bpow_IZR 52) by lia. reflexivity.
Qed.

Lemma bpow_m53 : bpow (-53) = / 9007199254740992.
Proof.
  change (bpow (-53)) with (bpow (Z.opp 53)).
  rewrite (bpow_opp 53), (bpow_IZR 53) by lia. reflexivity.
Qed.

Lemma bpow_m56 : bpow (-56) = / 72057594037927936.
Proof.
  change (bpow (-56)) with (bpow (Z.opp 56)).
  rewrite (bpow_opp 56), (bpow_IZR 56) by lia. reflexivity.
Qed.

Lemma bpow_m1074_le : bpow (-1074) <= bpow (-52).
Proof. apply bpow_le. lia. Qed.

Lemma bpow_1024_ge : 4 <= bpow 1024.
Proof.
  replace 4 with (bpow 2) by (rewrite (bpow_IZR 2) by lia; reflexivity).
  apply bpow_le. lia.
Qed.

Lemma is_finite_iff (x : float) :
  Double.is_finite x = true <-> SFfinite (Prim2SF x).
Proof.
  split; [apply DoubleFacts.is_finite_spec|].
  intros H. unfold Double.is_finite, is_infinity, is_nan.
  rewrite !FloatAxioms.eqb_spec, abs_spec.
  change (Prim2SF infinity) with (S754_infinity false).
  destruct (Prim2SF x) as [s|s| |s m e]; try contradiction.
  - reflexivity.
  - unfold SFeqb. rewrite DoubleFacts.SFcompare_refl by discriminate.
    reflexivity.
Qed.

Lemma mag_nonneg (x : float) : 0 <= mag x.
Proof. apply SFmag_nonneg. Qed.

Lemma Prim2SF_09 :
  Prim2SF 0.9%float = S754_finite false 8106479329266893 (-53).
Proof. reflexivity. Qed.

Lemma Prim2SF_01 :
  Prim2SF 0.1%float = S754_finite false 7205759403792794 (-56).
Proof. reflexivity. Qed.

Lemma mul_09_bound (x : float) :
  Double.is_finite x = true ->
  Double.is_finite (x * 0.9)%float = true
  /\ mag (x * 0.9)%float <= mag x * shrink + bpow (-1074).
Proof.
  intros Hx. apply is_finite_iff in Hx.
  pose proof (Prim2SF_valid x) as Hv.
  pose proof (valid_mag_lt _ Hv) as Hlt.
  rewrite is_finite_iff. unfold mag. rewrite mul_spec, Prim2SF_09.
  pose proof (SFmul_bound (Prim2SF x)
                (S754_finite false 8106479329266893 (-53)) Hx I) as H.
  cbv zeta in H. cbn [SFmag SFexp] in H.
  assert (Hc : F2R 8106479329266893 (-53) * (1 + bpow (-52)) <= shrink).
  { unfold F2R, shrink. rewrite bpow_m52, bpow_m53. lra. }
  pose proof (SFmag_nonneg (Prim2SF x)) as Hx0.
  pose proof (bpow_pos (-1074)) as Hd.
  assert (Hb : SFmag (Prim2SF x) * F2R 8106479329266893 (-53)
               * (1 + bpow (-52))
               <= SFmag (Prim2SF x) * shrink).
  { rewrite Rmult_assoc. apply Rmult_le_compat_l; assumption. }
  destruct (SF64mul (Prim2SF x) (S754_finite false 8106479329266893 (-53)))
    as [s|s| |s m e]; cbn [SFfinite SFmag].
  - split; [exact I|]. unfold shrink in *. nra.
  - exfalso. destruct H as [H|H].
    + destruct (Prim2SF x) as [sx|sx| |sx mx ex]; cbn [SFexp] in H;
        try lia.
      destruct (valid_finite _ _ _ Hv) as (He & _). lia.
    + pose proof bpow_m1074_le. pose proof bpow_1024_ge.
      rewrite bpow_m52 in *. unfold shrink in *. nra.
  - contradiction.
  - split; [exact I|]. lra.
Qed.

Lemma bpow_le_inv (a b : Z) : bpow a <= bpow b -> (a <= b)%Z.
Proof.
  intros H. destruct (Z_le_gt_dec a b) as [|Hgt]; [assumption|exfalso].
  assert (H1 : bpow (b + 1) <= bpow a) by (apply bpow_le; lia).
  rewrite bpow_succ in H1. pose proof (bpow_pos b). lra.
Qed.

Lemma SFmul_self_nonneg (x : spec_float) :
  SFfinite x ->
  match SF64mul x x with
  | S754_finite s _ _ => s = false
  | _ => True
  end.
Proof.
  destruct x as [s|s| |s m e]; cbn [SFfinite SF64mul SFmul];
    try contradiction; intros _; [exact I|].
  pose proof (binary_round_aux_bound (xorb s s) (Zpos (m * m)) (e + e)
                loc_Exact ltac:(lia)) as H.
  destruct (binary_round_aux prec emax (xorb s s) (Zpos (m * m)) (e + e)
              loc_Exact); auto.
  destruct H as [-> _]. apply xorb_nilpotent.
Qed.

Lemma small_exponent (x : spec_float) :
  SFmag x <= 1 -> (SFexp x <= 0)%Z.
Proof.
  destruct x as [s|s| |s m e]; cbn [SFmag SFexp]; try lia.
  intros H. apply bpow_le_inv. rewrite bpow_0.
  assert (bpow e <= F2R (Zpos m) e).
  { unfold F2R. assert (1 <= IZR (Zpos m)) by (apply IZR_le; lia).
    pose proof (bpow_pos e). nra. }
  lra.
Qed.

Lemma valid_exponent (x : spec_float) :
  valid_binary x = true -> (SFexp x <= 971)%Z.
Proof.
  destruct x as [s|s| |s m e]; cbn [SFexp]; try lia.
  intros Hv. destruct (valid_finite _ _ _ Hv) as (He & _). lia.
Qed.

(** The square of a small double. *)
Lemma square_bound (x : float) :
  Double.is_finite x = true -> mag x <= / 64 ->
  SFnonneg (Prim2SF (x * x)%float) /\ mag (x * x)%float <= / 4000.
Proof.
  intros Hx Hm. apply is_finite_iff in Hx. unfold mag in *.
  rewrite mul_spec.
  pose proof (SFmul_bound (Prim2SF x) (Prim2SF x) Hx Hx) as H.
  pose proof (SFmul_self_nonneg (Prim2SF x) Hx) as Hs.
  pose proof (small_exponent (Prim2SF x) ltac:(lra)) as He.
  pose proof (SFmag_nonneg (Prim2SF x)) as H0.
  pose proof bpow_m1074_le as Hd. pose proof bpow_1024_ge as Hbig.
  pose proof (bpow_pos (-1074)) as Hd0.
  cbv zeta in H. rewrite bpow_m52 in *.
  assert (Hsq : SFmag (Prim2SF x) * SFmag (Prim2SF x) <= / 4096) by nra.
  destruct (SF64mul (Prim2SF x) (Prim2SF x)) as [s|s| |s m e];
    cbn [SFnonneg SFmag].
  - split; [exact I|lra].
  - destruct H as [H|H]; [lia|nra].
  - contradiction.
  - subst s. split; [exact I|nra].
Qed.

(** The sum of two small doubles that are not negative. *)
Lemma add_bound (a b : float) (A B : R) :
  SFnonneg (Prim2SF a) -> SFnonneg (Prim2SF b) ->
  mag a <= A -> mag b <= B -> A + B <= 1 ->
  SFnonneg (Prim2SF (a + b)%float)
  /\ mag (a + b)%float
     <= (A + B) * (1 + / 4503599627370496) + / 4503599627370496.
Proof.
  intros Ha Hb HA HB Hsum. unfold mag in *. rewrite add_spec.
  pose proof (SFadd_bound (Prim2SF a) (Prim2SF b) Ha Hb) as H.
  pose proof (valid_exponent _ (Prim2SF_valid a)) as Hea.
  pose proof (SFmag_nonneg (Prim2SF a)) as Ha0.
  pose proof (SFmag_nonneg (Prim2SF b)) as Hb0.
  pose proof bpow_m1074_le as Hd. pose proof bpow_1024_ge as Hbig.
  pose proof (bpow_pos (-1074)) as Hd0.
  cbv zeta in H. rewrite bpow_m52 in *.
  destruct (SF64add (Prim2SF a) (Prim2SF b)) as [s|s| |s m e];
    cbn [SFnonneg SFmag].
  - split; [exact I|nra].
  - destruct H as [H|H]; [lia|nra].
  - contradiction.
  - destruct H as [-> H]. split; [exact I|nra].
Qed.

(** The square root of a small double that is not negative. *)
Lemma sqrt_bound (x : float) :
  SFnonneg (Prim2SF x) -> mag x <= / 1000 ->
  SFnonneg (Prim2SF (PrimFloat.sqrt x)) /\ mag (PrimFloat.sqrt x) <= / 15.
Proof.
  intros Hx Hm. unfold mag in *. rewrite sqrt_spec.
  pose proof (SFsqrt_bound (Prim2SF x) Hx) as H.
  pose proof (valid_exponent _ (Prim2SF_valid x)) as He.
  pose proof bpow_m1074_le as Hd. pose proof bpow_1024_ge as Hbig.
  pose proof (bpow_pos (-1074)) as Hd0.
  rewrite bpow_m52 in *.
  assert (Hdiv : (Z.div2 (SFexp (Prim2SF x)) <= 971)%Z).
  { rewrite Z.div2_div.
    assert (SFexp (Prim2SF x) / 2 <= 971 / 2)%Z
      by (apply Z.div_le_mono; lia).
    change (971 / 2)%Z with 485%Z in *. lia. }
  destruct (SF64sqrt (Prim2SF x)) as [s|s| |s m e]; cbn [SFnonneg SFmag].
  - split; [exact I|lra].
  - destruct H as [H|(v & Hv0 & Hvv & Hb)]; [lia|nra].
  - contradiction.
  - destruct H as (-> & v & Hv0 & Hvv & Hb). split; [exact I|]. nra.
Qed.

End Rounding.

(** ** Rounding to nearest in binary64

    Two-sided bounds: what multiplication and addition return is within
    half a unit in the last place of the exact result, and does not cross
    a number of the grid it is rounded to. *)

Section Nearest.

Local Open Scope R_scope.

Ltac pow_arith tac :=
  repeat match goal with
    | |- context [bpow ?e] =>
        let b := fresh "b" in
        let Hb := fresh "Hb" in
        pose proof (bpow_pos e) as Hb;
        set (b := bpow e) in *; clearbody b
    | H : context [bpow ?e] |- _ =>
        let b := fresh "b" in
        let Hb := fresh "Hb" in
        pose proof (bpow_pos e) as Hb;
        set (b := bpow e) in *; clearbody b
    end;
  tac.

Lemma iter_pos_nat {A : Type} (f : A -> A) (p : positive) (x : A) :
  SpecFloat.iter_pos f p x = Nat.iter (Pos.to_nat p) f x.
Proof.
  revert x. induction p as [p IH|p IH|]; intros x; cbn [SpecFloat.iter_pos].
  - rewrite !IH, Pos2Nat.inj_xI.
    replace (S (2 * Pos.to_nat p))%nat
      with (Pos.to_nat p + (Pos.to_nat p + 1))%nat by lia.
    rewrite !Nat.iter_add. reflexivity.
  - rewrite !IH, Pos2Nat.inj_xO.
    replace (2 * Pos.to_nat p)%nat with (Pos.to_nat p + Pos.to_nat p)%nat
      by lia.
    symmetry. apply Nat.iter_add.
  - reflexivity.
Qed.

Lemma shr_1_spec (m : Z) (r s : bool) :
  (0 <= m)%Z ->
  shr_1 {| shr_m := m; shr_r := r; shr_s := s |}
  = {| shr_m := m / 2; shr_r := Z.odd m; shr_s := r || s |}.
Proof.
  intros H. destruct m as [|[p|p|]|p]; try lia; cbn [shr_1].
  - reflexivity.
  - f_equal. apply Z.div_unique with (r := 1%Z); lia.
  - f_equal. apply Z.div_unique with (r := 0%Z); lia.
  - reflexivity.
Qed.

Lemma located_0 (M : Z) :
  located 0 M {| shr_m := M; shr_r := false; shr_s := false |}.
Proof.
  unfold located. cbn [shr_m shr_r shr_s Z.of_nat].
  rewrite Z.pow_0_r, Z.div_1_r, Z.mod_1_r. split; reflexivity.
Qed.

Lemma located_step (n : nat) (M : Z) (mrs : shr_record) :
  (0 <= M)%Z -> located n M mrs -> located (S n) M (shr_1 mrs).
Proof.
  intros HM [Hm Hrs]. destruct mrs as [m r s]. cbn [shr_m shr_r shr_s] in *.
  assert (Hp : (0 < 2 ^ Z.of_nat n)%Z) by (apply Z.pow_pos_nonneg; lia).
  assert (Hm0 : (0 <= m)%Z) by (subst m; apply Z.div_pos; lia).
  rewrite shr_1_spec by assumption.
  unfold located. cbn [shr_m shr_r shr_s].
  rewrite Nat2Z.inj_succ, Z.pow_succ_r by lia.
  set (P := (2 ^ Z.of_nat n)%Z) in *.
  pose proof (Z.div_mod M P ltac:(lia)) as HD.
  pose proof (Z.mod_pos_bound M P Hp) as HB.
  rewrite <- Hm in HD.
  pose proof (Z.div_mod m 2 ltac:(lia)) as HD2.
  pose proof (Z.mod_pos_bound m 2 ltac:(lia)) as HB2.
  assert (Hq : (M / (2 * P) = m / 2)%Z).
  { rewrite Z.mul_comm, <- Z.div_div by lia. rewrite <- Hm. reflexivity. }
  assert (Hr : (M mod (2 * P) = (m mod 2) * P + M mod P)%Z).
  { symmetry. apply Z.mod_unique with (q := (m / 2)%Z); nia. }
  split; [symmetry; exact Hq|]. cbv zeta. rewrite Hr.
  rewrite Zodd_mod. 
  destruct (Z.eq_dec (m mod 2) 1) as [E1|E1].
  - rewrite E1. cbn [Z.eqb Pos.eqb]. 
    destruct r, s; cbn [orb]; cbv zeta in Hrs; lia.
  - assert (E0 : (m mod 2 = 0)%Z) by lia. rewrite E0. cbn [Z.eqb].
    destruct r, s; cbn [orb]; cbv zeta in Hrs; lia.
Qed.

Lemma located_iter (n : nat) (M : Z) :
  (0 <= M)%Z ->
  located n M (Nat.iter n shr_1 {| shr_m := M; shr_r := false; shr_s := false |}).
Proof.
  intros HM. induction n as [|n IH].
  - apply located_0.
  - cbn [Nat.iter nat_rect]. apply located_step; assumption.
Qed.

(** Rounding to nearest moves the quotient by at most half of what was
    shifted out. *)
Lemma located_round (n : nat) (M : Z) (mrs : shr_record) :
  (0 <= M)%Z -> located n M mrs ->
  let q := round_nearest_even (shr_m mrs) (loc_of_shr_record mrs) in
  (2 * (q * 2 ^ Z.of_nat n) <= 2 * M + 2 ^ Z.of_nat n)%Z
  /\ (2 * M <= 2 * (q * 2 ^ Z.of_nat n) + 2 ^ Z.of_nat n)%Z
  /\ (M / 2 ^ Z.of_nat n <= q <= M / 2 ^ Z.of_nat n + 1)%Z
  /\ (M mod 2 ^ Z.of_nat n = 0 -> q = M / 2 ^ Z.of_nat n)%Z.
Proof.
  intros HM [Hm Hrs]. destruct mrs as [m r s]. cbn [shr_m shr_r shr_s] in *.
  assert (Hp : (0 < 2 ^ Z.of_nat n)%Z) by (apply Z.pow_pos_nonneg; lia).
  set (P := (2 ^ Z.of_nat n)%Z) in *.
  pose proof (Z.div_mod M P ltac:(lia)) as HD.
  pose proof (Z.mod_pos_bound M P Hp) as HB.
  rewrite <- Hm in *. cbv zeta in Hrs.
  destruct r, s; cbn [loc_of_shr_record round_nearest_even];
    try (destruct (Z.even m)); repeat split; intros; nia.
Qed.

Lemma bpow_half (e : Z) : bpow e = 2 * bpow (e - 1).
Proof.
  replace e with (e - 1 + 1)%Z at 1 by lia. apply bpow_succ.
Qed.

Lemma shr_fexp_located (M E : Z) :
  (0 <= M)%Z ->
  let k := (fexp prec emax (Zdigits2 M + E) - E)%Z in
  (0 < k)%Z ->
  located (Z.to_nat k) M (fst (shr_fexp prec emax M E loc_Exact))
  /\ snd (shr_fexp prec emax M E loc_Exact) = (E + k)%Z.
Proof.
  intros HM k Hk. unfold shr_fexp, shr. fold k.
  destruct k as [|p|p]; try lia. cbn [fst snd shr_record_of_loc].
  rewrite iter_pos_nat. split; [|reflexivity].
  change (Z.to_nat (Zpos p)) with (Pos.to_nat p). apply located_iter.
  assumption.
Qed.

Lemma F2R_shift (q E k : Z) :
  (0 <= k)%Z -> F2R q (E + k) = F2R (q * 2 ^ k) E.
Proof.
  intros Hk. unfold F2R. rewrite bpow_add, mult_IZR, (bpow_IZR k Hk). ring.
Qed.

Lemma F2R_le (a b E : Z) : (a <= b)%Z -> F2R a E <= F2R b E.
Proof.
  intros H. unfold F2R. apply IZR_le in H. pose proof (bpow_pos E). nra.
Qed.

Lemma F2R_add (a b E : Z) : F2R (a + b) E = F2R a E + F2R b E.
Proof. unfold F2R. rewrite plus_IZR. ring. Qed.

Lemma F2R_double (a E : Z) : F2R (2 * a) E = 2 * F2R a E.
Proof. unfold F2R. rewrite mult_IZR. ring. Qed.

Lemma F2R_one (E : Z) : F2R 1 E = bpow E.
Proof. unfold F2R. ring. Qed.

Lemma Zdigits2_small (m : Z) :
  (0 <= m < 2 ^ 53)%Z -> (Zdigits2 m <= 53)%Z.
Proof.
  intros [H0 H]. destruct (Z.eq_dec m 0) as [->|Hne]; [simpl; lia|].
  destruct (Zdigits2_bounds m ltac:(lia)) as [Hlo _].
  destruct (Z_le_gt_dec (Zdigits2 m) 53) as [|Hgt]; [assumption|].
  exfalso.
  assert ((2 ^ 53 <= 2 ^ (Zdigits2 m - 1))%Z)
    by (apply Z.pow_le_mono_r; lia).
  lia.
Qed.

(** One rounding of an exact value returns a double within half a unit in
    the last place of it. *)
Lemma binary_round_aux_nearest (s : bool) (M E : Z) :
  (0 < M)%Z ->
  match binary_round_aux prec emax s M E loc_Exact with
  | S754_zero s' => s' = s /\ 2 * F2R M E <= slack M E loc_Exact
  | S754_finite s' m e =>
      s' = s
      /\ 2 * F2R (Zpos m) e <= 2 * F2R M E + slack M E loc_Exact
      /\ 2 * F2R M E <= 2 * F2R (Zpos m) e + slack M E loc_Exact
      /\ exists q : Z,
           F2R (Zpos m) e
           = F2R q (E + Z.max (fexp prec emax (Zdigits2 M + E) - E) 0)
  | S754_infinity s' =>
      s' = s /\ ((971 < E)%Z \/ bpow 1024 - bpow 970 <= F2R M E)
  | S754_nan => False
  end.
Proof.
  intros HM. unfold binary_round_aux.
  pose proof (shr_fexp_spec M E loc_Exact ltac:(lia)) as [Hno _].
  pose proof (shr_fexp_located M E ltac:(lia)) as Hloc. cbv zeta in Hloc.
  unfold slack.
  set (k := (fexp prec emax (Zdigits2 M + E) - E)%Z) in *.
  destruct (Z_le_gt_dec k 0) as [Hk|Hk].
  - (* nothing is shifted out *)
    rewrite (Hno Hk). cbn [shr_record_of_loc shr_m loc_of_shr_record
                             round_nearest_even].
    rewrite (Hno Hk). cbn [shr_record_of_loc shr_m].
    destruct M as [|p|p]; try lia.
    change (emax - prec)%Z with 971%Z.
    destruct (E <=? 971)%Z eqn:Ee.
    + rewrite Z.max_r by lia. rewrite Z.add_0_r.
      destruct (k <=? 0)%Z;
        (split; [reflexivity|split; [|split; [|exists (Zpos p); reflexivity]]]);
        pose proof (bpow_pos (E + k)); lra.
    + apply Z.leb_gt in Ee. split; [reflexivity|]. left. lia.
  - destruct (k <=? 0)%Z eqn:Ek; [apply Z.leb_le in Ek; lia|]. clear Ek.
    destruct (Hloc ltac:(lia)) as [Hl He].
    destruct (shr_fexp prec emax M E loc_Exact) as [mrs e'].
    cbn [fst snd] in Hl, He. subst e'.
    pose proof (located_round _ _ _ (Z.lt_le_incl _ _ HM) Hl) as Hr. cbv zeta in Hr.
    rewrite Z2Nat.id in Hr by lia.
    set (m2 := round_nearest_even (shr_m mrs) (loc_of_shr_record mrs)) in *.
    destruct Hr as (Hup & Hdown & Hq & _).
    assert (Hpk : (0 < 2 ^ k)%Z) by (apply Z.pow_pos_nonneg; lia).
    assert (Hfe : (E + k = fexp prec emax (Zdigits2 M + E))%Z)
      by (unfold k; lia).
    pose proof (Zdigits2_bounds M HM) as [_ HdM].
    assert (Hq53 : (M / 2 ^ k < 2 ^ 53)%Z).
    { apply Z.div_lt_upper_bound; [lia|].
      rewrite <- Z.pow_add_r by lia.
      assert ((2 ^ Zdigits2 M <= 2 ^ (k + 53))%Z).
      { apply Z.pow_le_mono_r; [lia|]. rewrite fexp_eq in Hfe. lia. }
      lia. }
    assert (Hq0 : (0 <= M / 2 ^ k)%Z) by (apply Z.div_pos; lia).
    assert (HupR : 2 * F2R m2 (E + k) <= 2 * F2R M E + bpow (E + k)).
    { rewrite (F2R_shift m2 E k) by lia.
      rewrite <- !F2R_double, <- (F2R_one (E + k)), (F2R_shift 1 E k) by lia.
      rewrite <- F2R_add. apply F2R_le. lia. }
    assert (HdownR : 2 * F2R M E <= 2 * F2R m2 (E + k) + bpow (E + k)).
    { rewrite (F2R_shift m2 E k) by lia.
      rewrite <- !F2R_double, <- (F2R_one (E + k)), (F2R_shift 1 E k) by lia.
      rewrite <- F2R_add. apply F2R_le. lia. }
    pose proof (shr_fexp_spec m2 (E + k) loc_Exact ltac:(lia)) as [Hno2 _].
    change (emax - prec)%Z with 971%Z.
    destruct (Z.eq_dec m2 (2 ^ 53)) as [E53|E53].
    + (* the rounding carried into the next binade *)
      rewrite E53 in *. unfold shr_fexp.
      change (Zdigits2 (2 ^ 53)) with 54%Z. rewrite fexp_eq.
      rewrite fexp_eq in Hfe.
      replace (Z.max (54 + (E + k) - 53) (-1074) - (E + k))%Z with 1%Z by lia.
      cbn [shr shr_record_of_loc SpecFloat.iter_pos].
      change (shr_m (shr_1 {| shr_m := 2 ^ 53; shr_r := false;
                              shr_s := false |}))
        with (Zpos (2 ^ 52)).
      cbv iota beta.
      assert (Hsame : F2R (Zpos (2 ^ 52)) (E + k + 1) = F2R (2 ^ 53) (E + k)).
      { rewrite (F2R_shift _ (E + k) 1) by lia. reflexivity. }
      destruct (E + k + 1 <=? 971)%Z eqn:Ee.
      * rewrite Hsame, Z.max_l by lia.
        split; [reflexivity|split; [assumption|split; [assumption|]]].
        exists (2 ^ 53)%Z. reflexivity.
      * apply Z.leb_gt in Ee. split; [reflexivity|]. right.
        assert (Hv : F2R (2 ^ 53) (E + k) = bpow (E + k + 53)).
        { unfold F2R. rewrite <- (bpow_IZR 53) by lia. rewrite <- bpow_add.
          f_equal. lia. }
        rewrite Hv in HupR.
        replace (E + k + 53)%Z with (E + k - 971 + 1024)%Z in HupR by lia.
        replace (E + k)%Z with (E + k - 971 + 971)%Z in HupR at 2 by lia.
        rewrite !bpow_add in HupR.
        rewrite (bpow_half 971) in HupR. change (971 - 1)%Z with 970%Z in HupR.
        assert (Hone : 1 <= bpow (E + k - 971)).
        { change 1 with (bpow 0). apply bpow_le. lia. }
        assert (Hlt : bpow 970 <= bpow 1024) by (apply bpow_le; lia).
        pose proof (bpow_pos 970). nra.
    + assert (Hd2 : (Zdigits2 m2 <= 53)%Z) by (apply Zdigits2_small; lia).
      rewrite Hno2 by (rewrite fexp_eq; rewrite fexp_eq in Hfe; lia).
      cbn [shr_record_of_loc shr_m].
      destruct m2 as [|p|p] eqn:Em2; try lia.
      * split; [reflexivity|]. unfold F2R in HdownR at 2.
        rewrite Rmult_0_l in HdownR. lra.
      * destruct (E + k <=? 971)%Z eqn:Ee.
        -- rewrite Z.max_l by lia.
           split; [reflexivity|split; [assumption|split; [assumption|]]].
           exists (Zpos p). reflexivity.
        -- apply Z.leb_gt in Ee. split; [reflexivity|]. right.
           pose proof (F2R_digits_le M E HM) as Hd.
           assert (Hb : bpow 1024 <= bpow (Zdigits2 M - 1 + E)).
           { apply bpow_le. rewrite fexp_eq in Hfe. lia. }
           pose proof (bpow_pos 970). lra.
Qed.

(** Half of the slack, relative to the exact value. *)
Lemma slack_half (M E : Z) :
  (0 < M)%Z ->
  slack M E loc_Exact <= 2 * (F2R M E * bpow (-53) + bpow (-1075)).
Proof.
  intros HM. pose proof (slack_exact M E HM) as H.
  rewrite (bpow_half (-52)), (bpow_half (-1074)) in H.
  change (-52 - 1)%Z with (-53)%Z in H.
  change (-1074 - 1)%Z with (-1075)%Z in H. lra.
Qed.

(** *** Multiplication, to nearest *)

(** The product of two finite numbers is the exact product moved by at most
    half a unit in the last place, with the sign of the exact product. *)
Lemma SFmul_nearest (x y : spec_float) :
  SFfinite x -> SFfinite y ->
  let v := SFmag x * SFmag y in
  let h := v * bpow (-53) + bpow (-1075) in
  match SF64mul x y with
  | S754_zero s => s = xorb (SFsign x) (SFsign y) /\ v <= h
  | S754_finite s m e =>
      s = xorb (SFsign x) (SFsign y)
      /\ F2R (Zpos m) e <= v + h /\ v <= F2R (Zpos m) e + h
  | S754_infinity s =>
      s = xorb (SFsign x) (SFsign y)
      /\ ((971 < SFexp x + SFexp y)%Z \/ bpow 1024 - bpow 970 <= v)
  | S754_nan => False
  end.
Proof.
  pose proof (bpow_pos (-1075)) as Hd.
  destruct x as [sx|sx| |sx mx ex], y as [sy|sy| |sy my ey];
    cbn [SFfinite SF64mul SFmul SFsign SFmag]; try contradiction;
    intros _ _; cbv zeta;
    try (split; [reflexivity|]; rewrite ?Rmult_0_l, ?Rmult_0_r; lra).
  pose proof (binary_round_aux_nearest (xorb sx sy) (Zpos (mx * my))
                (ex + ey) ltac:(lia)) as H.
  pose proof (slack_half (Zpos (mx * my)) (ex + ey) ltac:(lia)) as Hs.
  pose proof (slack_nonneg (Zpos (mx * my)) (ex + ey) loc_Exact) as Hs0.
  rewrite Pos2Z.inj_mul, F2R_mul in *.
  cbn [SFexp].
  destruct (binary_round_aux prec emax (xorb sx sy) (Zpos mx * Zpos my)
              (ex + ey) loc_Exact) as [s|s| |s m e]; auto.
  - destruct H as [-> H]. split; [reflexivity|]. lra.
  - destruct H as (-> & H1 & H2 & _). split; [reflexivity|]. lra.
Qed.

Lemma valid_canonical (s : bool) (m : positive) (e : Z) :
  valid_binary (S754_finite s m e) = true ->
  fexp prec emax (Zdigits2 (Zpos m) + e) = e.
Proof.
  intros Hv. destruct (valid_finite s m e Hv) as (He & Hd & Hn).
  rewrite fexp_eq. cbn [Zdigits2].
  destruct (Z.eq_dec e (-1074)) as [->|Hne]; [lia|].
  rewrite (Hn ltac:(lia)). lia.
Qed.

Lemma Zdigits2_unique (m d : Z) :
  (2 ^ (d - 1) <= m < 2 ^ d)%Z -> (0 < m)%Z -> Zdigits2 m = d.
Proof.
  intros [Hlo Hhi] Hm. destruct (Zdigits2_bounds m Hm) as [Hlo' Hhi'].
  pose proof (Zdigits2_nonneg m) as HD.
  assert (Hd : (0 < d)%Z).
  { destruct (Z_lt_le_dec 0 d) as [|Hle]; [assumption|exfalso].
    destruct (Z.eq_dec d 0) as [->|]; [simpl in Hhi; lia|].
    rewrite Z.pow_neg_r in Hhi by lia. lia. }
  destruct (Z.lt_trichotomy (Zdigits2 m) d) as [Hlt|[Heq|Hgt]];
    [exfalso|assumption|exfalso].
  - assert ((2 ^ Zdigits2 m <= 2 ^ (d - 1))%Z)
      by (apply Z.pow_le_mono_r; lia).
    lia.
  - assert ((2 ^ d <= 2 ^ (Zdigits2 m - 1))%Z)
      by (apply Z.pow_le_mono_r; lia).
    lia.
Qed.

Lemma Zdigits2_shift (m : positive) (k : Z) :
  (0 <= k)%Z -> Zdigits2 (Zpos m * 2 ^ k) = (Zdigits2 (Zpos m) + k)%Z.
Proof.
  intros Hk. destruct (Zdigits2_bounds (Zpos m) ltac:(lia)) as [Hlo Hhi].
  assert (Hp : (0 < 2 ^ k)%Z) by (apply Z.pow_pos_nonneg; lia).
  assert (Hd : (0 < Zdigits2 (Zpos m))%Z) by (cbn [Zdigits2]; lia).
  apply Zdigits2_unique; [|nia].
  replace (Zdigits2 (Zpos m) + k - 1)%Z with (Zdigits2 (Zpos m) - 1 + k)%Z
    by lia.
  rewrite !Z.pow_add_r by lia. nia.
Qed.

(** Multiplying by one is exact. *)
Lemma SFmul_one (x : spec_float) :
  valid_binary x = true ->
  SF64mul x (S754_finite false 4503599627370496 (-52)) = x.
Proof.
  destruct x as [s|s| |s m e]; cbn [SF64mul SFmul]; intros Hv;
    try (rewrite xorb_false_r; reflexivity); try reflexivity.
  rewrite xorb_false_r.
  pose proof (valid_canonical s m e Hv) as Hc.
  destruct (valid_finite s m e Hv) as (He & _).
  rewrite Pos2Z.inj_mul.
  change (Zpos 4503599627370496) with (2 ^ 52)%Z.
  set (M := (Zpos m * 2 ^ 52)%Z).
  assert (HM : (0 < M)%Z) by (unfold M; lia).
  assert (Hk : (fexp prec emax (Zdigits2 M + (e + -52)) - (e + -52) = 52)%Z).
  { unfold M. rewrite Zdigits2_shift by lia.
    replace (Zdigits2 (Zpos m) + 52 + (e + -52))%Z
      with (Zdigits2 (Zpos m) + e)%Z by lia.
    rewrite Hc. lia. }
  unfold binary_round_aux.
  pose proof (shr_fexp_located M (e + -52) ltac:(lia)) as Hloc.
  cbv zeta in Hloc. rewrite Hk in Hloc.
  destruct (Hloc ltac:(lia)) as [Hl He'].
  destruct (shr_fexp prec emax M (e + -52) loc_Exact) as [mrs e'].
  cbn [fst snd] in Hl, He'.
  pose proof (located_round _ _ _ (Z.lt_le_incl _ _ HM) Hl) as Hr.
  cbv zeta in Hr. destruct Hr as (_ & _ & _ & Hex).
  change (Z.of_nat (Z.to_nat 52)) with 52%Z in Hex.
  assert (Hq : (M / 2 ^ 52 = Zpos m)%Z)
    by (unfold M; apply Z.div_mul; lia).
  assert (Hrem : (M mod 2 ^ 52 = 0)%Z)
    by (unfold M; apply Z.mod_mul; lia).
  rewrite (Hex Hrem), Hq.
  replace e' with e by lia.
  pose proof (shr_fexp_spec (Zpos m) e loc_Exact ltac:(lia)) as [Hno _].
  rewrite Hno by (rewrite Hc; lia).
  cbn [shr_record_of_loc shr_m].
  change (emax - prec)%Z with 971%Z.
  destruct (e <=? 971)%Z eqn:Ee; [reflexivity|].
  apply Z.leb_gt in Ee. lia.
Qed.

Lemma mul_1_r (x : float) : (x * 1)%float = x.
Proof.
  apply Prim2SF_inj. rewrite mul_spec.
  change (Prim2SF 1) with (S754_finite false 4503599627370496 (-52)).
  apply SFmul_one, Prim2SF_valid.
Qed.

(** A finite number times zero is a zero. *)
Lemma mul_0_r (x : float) :
  Double.is_finite x = true -> is_zero (x * 0)%float = true.
Proof.
  intros Hx. apply is_finite_iff in Hx.
  unfold is_zero. rewrite FloatAxioms.eqb_spec, mul_spec.
  change (Prim2SF 0) with (S754_zero false).
  destruct (Prim2SF x) as [s|s| |s m e]; try contradiction;
    destruct s; reflexivity.
Qed.

Lemma val_mag (x : float) : Rabs (val x) = mag x.
Proof.
  unfold val, SFval, mag. pose proof (SFmag_nonneg (Prim2SF x)) as H.
  destruct (SFsign (Prim2SF x));
    [rewrite Rabs_Ropp|]; apply Rabs_pos_eq; assumption.
Qed.

(** Two finite doubles whose exponents add up beyond the range have a
    product of at least [2 ^ 1024]. *)
Lemma large_exponents (x y : float) :
  (971 < SFexp (Prim2SF x) + SFexp (Prim2SF y))%Z ->
  bpow 1024 <= mag x * mag y.
Proof.
  unfold mag. pose proof (Prim2SF_valid x) as Hvx.
  pose proof (Prim2SF_valid y) as Hvy.
  pose proof (valid_exponent _ Hvx) as Ex.
  pose proof (valid_exponent _ Hvy) as Ey.
  destruct (Prim2SF x) as [sx|sx| |sx mx ex],
           (Prim2SF y) as [sy|sy| |sy my ey]; cbn [SFexp] in *; try lia.
  cbn [SFexp SFmag]. intros H.
  destruct (valid_finite _ _ _ Hvx) as (Hex & _ & Hnx).
  destruct (valid_finite _ _ _ Hvy) as (Hey & _ & Hny).
  pose proof (F2R_digits_le (Zpos mx) ex ltac:(lia)) as Hx.
  pose proof (F2R_digits_le (Zpos my) ey ltac:(lia)) as Hy.
  cbn [Zdigits2] in Hx, Hy.
  rewrite (Hnx ltac:(lia)) in Hx. rewrite (Hny ltac:(lia)) in Hy.
  assert (Hb : bpow 1024 <= bpow (53 - 1 + ex) * bpow (53 - 1 + ey)).
  { rewrite <- bpow_add. apply bpow_le. lia. }
  pose proof (bpow_pos (53 - 1 + ex)). pose proof (bpow_pos (53 - 1 + ey)).
  nra.
Qed.

(** The product of two finite doubles, when it does not overflow: the
    exact product is below the middle of the largest double and
    [2 ^ 1024]. *)
Lemma mul_nearest (x y : float) :
  Double.is_finite x = true -> Double.is_finite y = true ->
  mag x * mag y < bpow 1024 - bpow 970 ->
  Double.is_finite (x * y)%float = true
  /\ SFsign (Prim2SF (x * y)%float)
     = xorb (SFsign (Prim2SF x)) (SFsign (Prim2SF y))
  /\ mag (x * y)%float <= mag x * mag y * (1 + bpow (-53)) + bpow (-1075)
  /\ mag x * mag y * (1 - bpow (-53)) - bpow (-1075) <= mag (x * y)%float.
Proof.
  intros Hx Hy Hb. apply is_finite_iff in Hx, Hy.
  pose proof (large_exponents x y) as Hlarge.
  rewrite is_finite_iff. unfold mag in *. rewrite mul_spec.
  pose proof (SFmul_nearest _ _ Hx Hy) as H. cbv zeta in H.
  pose proof (SFmag_nonneg (Prim2SF x)) as Hx0.
  pose proof (SFmag_nonneg (Prim2SF y)) as Hy0.
  assert (Hv : 0 <= SFmag (Prim2SF x) * SFmag (Prim2SF y)) by nra.
  set (v := SFmag (Prim2SF x) * SFmag (Prim2SF y)) in *.
  pose proof (bpow_pos (-53)). pose proof (bpow_pos (-1075)).
  pose proof (bpow_pos 970).
  destruct (SF64mul (Prim2SF x) (Prim2SF y)) as [s|s| |s m e];
    cbn [SFfinite SFsign SFmag].
  - destruct H as [-> H]. repeat split; nra.
  - exfalso. destruct H as [_ [H|H]]; [specialize (Hlarge H)|]; lra.
  - contradiction.
  - destruct H as (-> & Hup & Hdown). repeat split; lra.
Qed.

(** No finite double exceeds [2 ^ 1024 - 2 ^ 971]. *)
Lemma valid_mag_le_max (x : spec_float) :
  valid_binary x = true -> SFmag x <= bpow 1024 - bpow 971.
Proof.
  assert (Hlt : bpow 971 <= bpow 1024) by (apply bpow_le; lia).
  destruct x as [s|s| |s m e]; cbn [SFmag]; try (intros _; lra).
  intros Hv. destruct (valid_finite s m e Hv) as (He & Hd & _).
  destruct (digits2_pos_bounds m) as [_ Hhi].
  assert (Hm : (Zpos m <= 2 ^ 53 - 1)%Z).
  { assert ((2 ^ Zpos (digits2_pos m) <= 2 ^ 53)%Z)
      by (apply Z.pow_le_mono_r; lia).
    lia. }
  apply IZR_le in Hm. rewrite minus_IZR in Hm.
  rewrite <- (bpow_IZR 53) in Hm by lia.
  assert (Hb : bpow e <= bpow 971) by (apply bpow_le; lia).
  assert (H53 : bpow 53 * bpow 971 = bpow 1024).
  { rewrite <- bpow_add. reflexivity. }
  unfold F2R. pose proof (bpow_pos e). pose proof (bpow_pos 971).
  assert (0 < IZR (Zpos m)) by (apply IZR_lt; lia).
  nra.
Qed.

Lemma mag_le_max (x : float) : mag x <= bpow 1024 - bpow 971.
Proof. apply valid_mag_le_max, Prim2SF_valid. Qed.

Lemma bpow_970_lt : bpow 970 < bpow 971.
Proof. rewrite (bpow_half 971). pose proof (bpow_pos (971 - 1)). 
  change (971 - 1)%Z with 970%Z in *. lra. Qed.

(** The product as a real number: within half a unit in the last place of
    the product of the factors. *)
Lemma mul_val (x y : float) :
  Double.is_finite x = true -> Double.is_finite y = true ->
  mag x * mag y < bpow 1024 - bpow 970 ->
  Rabs (val (x * y)%float - val x * val y)
  <= mag x * mag y * bpow (-53) + bpow (-1075).
Proof.
  intros Hx Hy Hb.
  destruct (mul_nearest x y Hx Hy Hb) as (_ & Hs & Hup & Hdown).
  unfold val, SFval, mag in *. rewrite Hs.
  pose proof (SFmag_nonneg (Prim2SF x)) as Hx0.
  pose proof (SFmag_nonneg (Prim2SF y)) as Hy0.
  set (a := SFmag (Prim2SF x)) in *. set (b := SFmag (Prim2SF y)) in *.
  set (c := SFmag (Prim2SF (x * y)%float)) in *.
  apply Rabs_le.
  destruct (SFsign (Prim2SF x)), (SFsign (Prim2SF y)); cbn [xorb];
    split; nra.
Qed.

(** *** Doubles below one *)

Lemma SFnonneg_leb (z : spec_float) :
  SFnonneg z -> SFleb (S754_zero false) z = true.
Proof.
  destruct z as [s|s| |[|] m e]; cbn [SFnonneg]; try contradiction;
    intros _; reflexivity.
Qed.

Lemma leb_0_nonneg (x : float) :
  (0 <=? x)%float = true -> (x <? 1)%float = true ->
  SFnonneg (Prim2SF x).
Proof.
  rewrite FloatAxioms.leb_spec, FloatAxioms.ltb_spec.
  change (Prim2SF 0) with (S754_zero false).
  destruct (Prim2SF x) as [s|s| |[|] m e]; cbn [SFnonneg];
    try destruct s; try discriminate; auto.
Qed.

(** The largest double below one is [1 - 2 ^ -53]. *)
Lemma below_one (x : float) :
  (0 <=? x)%float = true -> (x <? 1)%float = true ->
  mag x <= 1 - bpow (-53).
Proof.
  intros H0 H1. pose proof (leb_0_nonneg x H0 H1) as Hn.
  pose proof (Prim2SF_valid x) as Hv.
  rewrite FloatAxioms.ltb_spec in H1. unfold mag.
  change (Prim2SF 1) with (S754_finite false 4503599627370496 (-52)) in H1.
  assert (Hsmall : bpow (-53) <= 1).
  { change 1 with (bpow 0). apply bpow_le. lia. }
  destruct (Prim2SF x) as [s|s| |[|] m e]; cbn [SFnonneg SFmag] in *;
    try contradiction; try lra.
  destruct (valid_finite _ _ _ Hv) as (He & Hd & Hnorm).
  unfold SFltb in H1. cbn [SFcompare] in H1.
  destruct (Z.compare_spec e (-52)) as [E|E|E]; try discriminate.
  - exfalso. subst e.
    destruct (Pos.compare_cont Eq m 4503599627370496) eqn:F;
      try discriminate.
    apply (proj1 (Pos.compare_lt_iff m 4503599627370496)) in F.
    destruct (digits2_pos_bounds m) as [Hlo _].
    assert (Hdig : Zpos (digits2_pos m) = 53%Z) by (apply Hnorm; reflexivity).
    rewrite Hdig in Hlo.
    change (2 ^ (53 - 1))%Z with 4503599627370496%Z in Hlo.
    apply Pos2Z.pos_lt_pos in F. apply Z.lt_nge in F. contradiction.
  - destruct (digits2_pos_bounds m) as [_ Hhi].
    assert (Hm : (Zpos m <= 2 ^ 53 - 1)%Z).
    { assert ((2 ^ Zpos (digits2_pos m) <= 2 ^ 53)%Z)
        by (apply Z.pow_le_mono_r; lia).
      lia. }
    apply IZR_le in Hm. rewrite minus_IZR in Hm.
    rewrite <- (bpow_IZR 53) in Hm by lia.
    assert (Hb : bpow e <= bpow (-53)) by (apply bpow_le; lia).
    assert (H53 : bpow 53 * bpow (-53) = 1).
    { rewrite <- bpow_add. reflexivity. }
    unfold F2R. pose proof (bpow_pos e). pose proof (bpow_pos (-53)).
    pose proof (bpow_pos 53).
    assert (0 < IZR (Zpos m)) by (apply IZR_lt; lia).
    nra.
Qed.

Lemma bpow_1024_large : 1024 <= bpow 1024.
Proof.
  replace 1024 with (bpow 10) by (rewrite (bpow_IZR 10) by lia; reflexivity).
  apply bpow_le. lia.
Qed.

(** A draw in [[0, 1)] times 200 is in [[0, 200)]: the product is rounded,
    and stays below. *)
Lemma offset_range (r : float) :
  (0 <=? r)%float = true -> (r <? 1)%float = true ->
  (0 <=? r * 200)%float = true /\ (r * 200 <? 200)%float = true.
Proof.
  intros H0 H1.
  pose proof (leb_0_nonneg r H0 H1) as Hn.
  pose proof (below_one r H0 H1) as Hm.
  assert (Hf : Double.is_finite r = true).
  { apply is_finite_iff. destruct (Prim2SF r) as [s|s| |[|] m e];
      cbn [SFnonneg] in Hn; try contradiction; exact I. }
  assert (H200 : mag 200 = 200).
  { unfold mag. change (Prim2SF 200)
      with (S754_finite false 7036874417766400 (-45)).
    cbn [SFmag]. unfold F2R. change (-45)%Z with (Z.opp 45).
    rewrite bpow_opp, (bpow_IZR 45) by lia.
    change (2 ^ 45)%Z with 35184372088832%Z. lra. }
  pose proof (mag_nonneg r) as Hr0.
  pose proof bpow_1024_large as Hbig.
  pose proof bpow_m1074_le as Hd. rewrite bpow_m52 in Hd.
  pose proof (bpow_pos (-1074)) as Hd0.
  assert (Hno : mag r * mag 200 < bpow 1024 - bpow 970).
  { rewrite H200. pose proof (mag_le_max 1) as H1max.
    pose proof bpow_970_lt.
    assert (Hone : mag 1 = 1).
    { unfold mag. change (Prim2SF 1)
        with (S754_finite false 4503599627370496 (-52)).
      cbn [SFmag]. unfold F2R. rewrite bpow_m52. lra. }
    pose proof (bpow_pos (-53)).
    assert (Hbig2 : 2048 <= bpow 1024 - bpow 971).
    { rewrite (bpow_half 1024), (bpow_half (1024 - 1)).
      change (1024 - 1 - 1)%Z with 1022%Z.
      assert (bpow 971 <= bpow 1022) by (apply bpow_le; lia).
      assert (1024 <= bpow 1022).
      { replace 1024 with (bpow 10)
          by (rewrite (bpow_IZR 10) by lia; reflexivity).
        apply bpow_le. lia. }
      lra. }
    nra. }
  destruct (mul_nearest r 200 Hf eq_refl Hno) as (Hfin & Hsign & Hup & _).
  rewrite H200 in Hup.
  assert (Hnn : SFnonneg (Prim2SF (r * 200)%float)).
  { apply is_finite_iff in Hfin.
    change (Prim2SF 200) with (S754_finite false 7036874417766400 (-45))
      in Hsign.
    destruct (Prim2SF r) as [s|s| |[|] m e] eqn:Er; cbn [SFnonneg] in Hn;
      try contradiction.
    - rewrite mul_spec, Er. exact I.
    - cbn [SFsign xorb] in Hsign.
      destruct (Prim2SF (r * 200)%float) as [s'|s'| |s' m' e'];
        cbn [SFsign SFnonneg SFfinite] in *; try contradiction; auto.
      subst s'. exact I. }
  split.
  - rewrite FloatAxioms.leb_spec. apply SFnonneg_leb. assumption.
  - rewrite FloatAxioms.ltb_spec.
    apply SFltb_of_mag; try apply Prim2SF_valid; try assumption.
    + exact I.
    + fold (mag (r * 200)%float). fold (mag 200). rewrite H200.
      assert (Hsq : bpow (-1075) <= bpow (-53) * bpow (-53)).
      { rewrite <- bpow_add. apply bpow_le. lia. }
      pose proof (bpow_pos (-53)). pose proof (bpow_pos (-1075)).
      nra.
Qed.

(** *** Rounding between two numbers of the grid *)

Lemma F2R_le_inv (a b E : Z) : F2R a E <= F2R b E -> (a <= b)%Z.
Proof.
  unfold F2R. intros H. apply le_IZR. pose proof (bpow_pos E). nra.
Qed.

Lemma bpow_lt_inv (a b : Z) : bpow a < bpow b -> (a < b)%Z.
Proof.
  intros H. destruct (Z_lt_le_dec a b) as [|Hle]; [assumption|exfalso].
  pose proof (bpow_le b a Hle). lra.
Qed.

(** Rounding to nearest does not cross a number that the doubles near the
    exact value can represent: a multiple of [2 ^ t] when the exact value
    is below [2 ^ p] and the doubles below [2 ^ p] are multiples of
    [2 ^ t]. *)
Lemma binary_round_aux_between (s : bool) (M E lo tl hi th p : Z) :
  (0 < M)%Z -> F2R M E < bpow p ->
  (Z.max (p - 53) (-1074) <= tl)%Z -> (Z.max (p - 53) (-1074) <= th)%Z ->
  F2R lo tl <= F2R M E -> F2R M E <= F2R hi th ->
  match binary_round_aux prec emax s M E loc_Exact with
  | S754_zero _ => (lo <= 0)%Z
  | S754_finite _ m e =>
      F2R lo tl <= F2R (Zpos m) e /\ F2R (Zpos m) e <= F2R hi th
  | _ => True
  end.
Proof.
  intros HM Hp Htl Hth Hlo Hhi.
  pose proof (binary_round_aux_nearest s M E HM) as H.
  pose proof (F2R_pos M E HM) as Hpos.
  unfold slack in H.
  set (k := (fexp prec emax (Zdigits2 M + E) - E)%Z) in *.
  destruct (binary_round_aux prec emax s M E loc_Exact) as [s'|s'| |s' m e];
    try exact I.
  - (* zero *)
    destruct H as [_ H]. destruct (Z_le_gt_dec k 0) as [Hk|Hk].
    + apply Z.leb_le in Hk. rewrite Hk in H. lra.
    + destruct (k <=? 0)%Z eqn:Ek; [apply Z.leb_le in Ek; lia|].
      assert (Hg : (E + k <= tl)%Z).
      { unfold k. rewrite fexp_eq.
        pose proof (F2R_digits_le M E HM) as Hd.
        assert ((Zdigits2 M - 1 + E < p)%Z) by (apply bpow_lt_inv; lra).
        lia. }
      assert (Hlo' : F2R lo tl = F2R (lo * 2 ^ (tl - (E + k))) (E + k)).
      { rewrite <- F2R_shift by lia. f_equal. lia. }
      rewrite Hlo' in Hlo.
      rewrite <- (F2R_one (E + k)) in H.
      assert (Hle : F2R (2 * (lo * 2 ^ (tl - (E + k)))) (E + k)
                    <= F2R 1 (E + k)) by (rewrite F2R_double; lra).
      apply F2R_le_inv in Hle.
      assert ((0 < 2 ^ (tl - (E + k)))%Z) by (apply Z.pow_pos_nonneg; lia).
      nia.
  - destruct H as (_ & Hup & Hdown & q & Hq).
    fold k in Hq.
    destruct (Z_le_gt_dec k 0) as [Hk|Hk].
    + apply Z.leb_le in Hk. rewrite Hk in Hup, Hdown. lra.
    + destruct (k <=? 0)%Z eqn:Ek; [apply Z.leb_le in Ek; lia|].
      rewrite Z.max_l in Hq by lia. rewrite Hq in *.
      assert (Hg : (E + k <= Z.max (p - 53) (-1074))%Z).
      { unfold k. rewrite fexp_eq.
        pose proof (F2R_digits_le M E HM) as Hd.
        assert ((Zdigits2 M - 1 + E < p)%Z) by (apply bpow_lt_inv; lra).
        lia. }
      rewrite <- (F2R_one (E + k)) in Hup, Hdown.
      split.
      * assert (Hlo' : F2R lo tl = F2R (lo * 2 ^ (tl - (E + k))) (E + k)).
        { rewrite <- F2R_shift by lia. f_equal. lia. }
        rewrite Hlo' in *.
        assert (Hle : F2R (2 * (lo * 2 ^ (tl - (E + k)))) (E + k)
                      <= F2R (2 * q + 1) (E + k)).
        { rewrite F2R_add, !F2R_double. lra. }
        apply F2R_le_inv in Hle. apply F2R_le. lia.
      * assert (Hhi' : F2R hi th = F2R (hi * 2 ^ (th - (E + k))) (E + k)).
        { rewrite <- F2R_shift by lia. f_equal. lia. }
        rewrite Hhi' in *.
        assert (Hle : F2R (2 * q) (E + k)
                      <= F2R (2 * (hi * 2 ^ (th - (E + k))) + 1) (E + k)).
        { rewrite F2R_add, !F2R_double. lra. }
        apply F2R_le_inv in Hle. apply F2R_le. lia.
Qed.

(** *** Addition of numbers that are not negative *)

(** The sum of two positive finite numbers is one rounding of the exact
    sum. *)
Lemma SFadd_aligned (mx my : positive) (ex ey : Z) :
  exists (M : positive) (E : Z),
    SF64add (S754_finite false mx ex) (S754_finite false my ey)
    = binary_round_aux prec emax false (Zpos M) E loc_Exact
    /\ F2R (Zpos M) E = F2R (Zpos mx) ex + F2R (Zpos my) ey
    /\ (E <= Z.min ex ey)%Z.
Proof.
  cbn [SF64add SFadd cond_Zopp].
  destruct (shl_align_spec mx ex (Z.min ex ey)) as [Hvx Hex].
  destruct (shl_align_spec my ey (Z.min ex ey)) as [Hvy Hey].
  rewrite (Z.min_r ex (Z.min ex ey)) in Hex by lia.
  rewrite (Z.min_r ey (Z.min ex ey)) in Hey by lia.
  change (IntDef.Z.min ex ey) with (Z.min ex ey).
  rewrite Hex in Hvx. rewrite Hey in Hvy.
  set (ax := fst (shl_align mx ex (Z.min ex ey))) in *.
  set (ay := fst (shl_align my ey (Z.min ex ey))) in *.
  change (Zpos ax + Zpos ay)%Z with (Zpos (ax + ay)).
  cbn [binary_normalize]. unfold binary_round.
  destruct (shl_align_spec (ax + ay) (Z.min ex ey)
              (fexp prec emax (Zpos (digits2_pos (ax + ay)) + Z.min ex ey)))
    as [Hv He].
  destruct (shl_align (ax + ay) (Z.min ex ey)
              (fexp prec emax (Zpos (digits2_pos (ax + ay)) + Z.min ex ey)))
    as [mz ez]. cbn [fst snd] in Hv, He.
  exists mz, ez. split; [reflexivity|]. split; [|lia].
  rewrite Hv, <- Hvx, <- Hvy. unfold F2R.
  rewrite Pos2Z.inj_add, plus_IZR. ring.
Qed.

(** The sum of two doubles that are not negative stays between two numbers
    of the grid that enclose the exact sum. *)
Lemma add_between (a b : float) (lo tl hi th p : Z) :
  SFnonneg (Prim2SF a) -> SFnonneg (Prim2SF b) ->
  mag a + mag b < bpow p -> (p <= 1023)%Z ->
  (Z.max (p - 53) (-1074) <= tl)%Z -> (Z.max (p - 53) (-1074) <= th)%Z ->
  (0 < lo)%Z ->
  F2R lo tl <= mag a + mag b -> mag a + mag b <= F2R hi th ->
  SFnonneg (Prim2SF (a + b)%float)
  /\ Double.is_finite (a + b)%float = true
  /\ F2R lo tl <= mag (a + b)%float /\ mag (a + b)%float <= F2R hi th.
Proof.
  intros Ha Hb Hp Hp' Htl Hth Hlo0 Hlo Hhi.
  pose proof (Prim2SF_valid a) as Hva. pose proof (Prim2SF_valid b) as Hvb.
  rewrite is_finite_iff. unfold mag in *. rewrite add_spec.
  pose proof (F2R_pos lo tl Hlo0) as Hlopos.
  destruct (Prim2SF a) as [sa|sa| |[|] ma ea],
           (Prim2SF b) as [sb|sb| |[|] mb eb];
    cbn [SFnonneg SFmag] in *; try contradiction.
  - exfalso. lra.
  - cbn [SF64add SFadd SFnonneg SFfinite SFmag].
    rewrite Rplus_0_l in *. repeat split; auto.
  - cbn [SF64add SFadd SFnonneg SFfinite SFmag].
    rewrite Rplus_0_r in *. repeat split; auto.
  - destruct (SFadd_aligned ma mb ea eb) as (M & E & -> & Hv & HE).
    rewrite <- Hv in *.
    pose proof (binary_round_aux_nearest false (Zpos M) E ltac:(lia)) as Hn.
    pose proof (binary_round_aux_between false (Zpos M) E lo tl hi th p
                  ltac:(lia) Hp Htl Hth Hlo Hhi) as Hw.
    destruct (valid_finite _ _ _ Hva) as (Hea & _).
    destruct (valid_finite _ _ _ Hvb) as (Heb & _).
    destruct (binary_round_aux prec emax false (Zpos M) E loc_Exact)
      as [s'|s'| |s' m e]; cbn [SFnonneg SFfinite SFmag].
    + lia.
    + exfalso. destruct Hn as [_ [Hn|Hn]]; [lia|].
      assert (bpow p <= bpow 1023) by (apply bpow_le; lia).
      rewrite (bpow_half 1024) in Hn. change (1024 - 1)%Z with 1023%Z in Hn.
      assert (bpow 970 < bpow 1023).
      { destruct (Rlt_le_dec (bpow 970) (bpow 1023)) as [|Hc]; [assumption|].
        apply bpow_le_inv in Hc. lia. }
      lra.
    + contradiction.
    + destruct Hn as (-> & _). repeat split; try exact I; apply Hw.
Qed.

(** Among valid numbers that are not negative, a magnitude that is not
    larger compares at or below. *)
Lemma SFleb_of_mag (x y : spec_float) :
  valid_binary x = true -> valid_binary y = true ->
  SFfinite x -> SFfinite y -> SFnonneg x -> SFnonneg y ->
  SFmag x <= SFmag y -> SFleb x y = true.
Proof.
  intros Hvx Hvy Hfx Hfy Hx Hy Hle.
  destruct (Rle_lt_or_eq_dec _ _ Hle) as [Hlt|Heq].
  - pose proof (SFltb_of_mag x y Hvx Hvy Hx Hy Hlt) as H.
    unfold SFltb in H. unfold SFleb.
    destruct (SFcompare x y) as [[ | | ]|]; congruence.
  - destruct x as [sx|sx| |[|] mx ex], y as [sy|sy| |[|] my ey];
      cbn [SFnonneg SFmag SFfinite] in *; try contradiction;
      try (destruct sx; destruct sy; reflexivity);
      try (destruct sx; reflexivity); try (destruct sy; reflexivity).
    + pose proof (F2R_pos (Zpos mx) ex ltac:(lia)). lra.
    + destruct (valid_finite _ _ _ Hvx) as (Hex & Hdx & Hnx).
      destruct (valid_finite _ _ _ Hvy) as (Hey & Hdy & Hny).
      unfold SFleb. cbn [SFcompare].
      destruct (Z.compare_spec ex ey) as [E|E|E].
      * subst ey.
        assert (mx = my).
        { unfold F2R in Heq. pose proof (bpow_pos ex).
          assert (HI : IZR (Zpos mx) = IZR (Zpos my)) by nra.
          apply eq_IZR in HI. congruence. }
        subst my. rewrite Pos.compare_cont_refl. reflexivity.
      * reflexivity.
      * exfalso.
        pose proof (F2R_digits_le (Zpos mx) ex ltac:(lia)) as Hlo.
        pose proof (F2R_lt_digits (Zpos my) ey ltac:(lia)) as Hhi.
        cbn [Zdigits2] in Hlo, Hhi. rewrite (Hnx ltac:(lia)) in Hlo.
        assert (bpow (Zpos (digits2_pos my) + ey) <= bpow (53 - 1 + ex))
          by (apply bpow_le; lia).
        lra.
Qed.

(** *** The substituted distance *)

(** A double below a double that is not a power of two is at most the one
    before it. *)
Lemma below_of_ltb (x : float) (mc : positive) (ec : Z) :
  valid_binary (S754_finite false mc ec) = true ->
  (2 ^ 52 < Zpos mc)%Z ->
  SFnonneg (Prim2SF x) ->
  SFltb (Prim2SF x) (S754_finite false mc ec) = true ->
  mag x <= F2R (Zpos mc - 1) ec.
Proof.
  intros Hvc Hmc Hn Hlt. pose proof (Prim2SF_valid x) as Hv. unfold mag.
  assert (Hc0 : 0 <= F2R (Zpos mc - 1) ec).
  { unfold F2R. assert (0 <= IZR (Zpos mc - 1)) by (apply IZR_le; lia).
    pose proof (bpow_pos ec). nra. }
  destruct (Prim2SF x) as [s|s| |[|] m e]; cbn [SFnonneg SFmag] in *;
    try contradiction; try lra.
  destruct (valid_finite _ _ _ Hv) as (He & Hd & Hnorm).
  unfold SFltb in Hlt. cbn [SFcompare] in Hlt.
  destruct (Z.compare_spec e ec) as [E|E|E]; try discriminate.
  - subst e.
    destruct (Pos.compare_cont Eq m mc) eqn:F; try discriminate.
    apply (proj1 (Pos.compare_lt_iff m mc)) in F.
    apply F2R_le. lia.
  - destruct (digits2_pos_bounds m) as [_ Hhi].
    assert (Hm : (Zpos m <= 2 ^ 53 - 1)%Z).
    { assert ((2 ^ Zpos (digits2_pos m) <= 2 ^ 53)%Z)
        by (apply Z.pow_le_mono_r; lia).
      lia. }
    apply Rle_trans with (F2R (2 ^ 53 - 1) e); [apply F2R_le; assumption|].
    apply Rle_trans with (F2R (2 ^ 53 - 1) (ec - 1)).
    { unfold F2R. assert (bpow e <= bpow (ec - 1)) by (apply bpow_le; lia).
      assert (0 <= IZR (2 ^ 53 - 1)) by (apply IZR_le; lia). nra. }
    apply Rle_trans with (F2R (2 * 2 ^ 52) (ec - 1)).
    { apply F2R_le. lia. }
    rewrite F2R_double. unfold F2R. rewrite (bpow_half ec).
    assert (IZR (2 ^ 52) <= IZR (Zpos mc - 1)) by (apply IZR_le; lia).
    pose proof (bpow_pos (ec - 1)). nra.
Qed.

Lemma F2R_exact (m : Z) (e : Z) (n : Z) :
  (0 <= e)%Z -> (m * 2 ^ e = n)%Z -> F2R m e = IZR n.
Proof.
  intros He <-. unfold F2R. rewrite mult_IZR, (bpow_IZR e He). reflexivity.
Qed.

Lemma F2R_scaled (m : Z) (e : Z) (n : Z) :
  (e < 0)%Z -> (m = n * 2 ^ (- e))%Z -> F2R m e = IZR n.
Proof.
  intros He ->. unfold F2R. rewrite mult_IZR.
  replace e with (Z.opp (- e)) at 2 by lia.
  rewrite bpow_opp, (bpow_IZR (- e)) by lia.
  field. apply not_0_IZR. apply Z.pow_nonzero; lia.
Qed.

(** Fifty plus an offset in [[0, 200)] is in [[50, 250)]. *)
Lemma distance_range (offset : float) :
  (0 <=? offset)%float = true -> (offset <? 200)%float = true ->
  (50 <=? 50 + offset)%float = true /\ (50 + offset <? 250)%float = true.
Proof.
  intros H0 H1.
  assert (Hn : SFnonneg (Prim2SF offset)).
  { revert H0 H1. rewrite FloatAxioms.leb_spec, FloatAxioms.ltb_spec.
    change (Prim2SF 0) with (S754_zero false).
    destruct (Prim2SF offset) as [s|s| |[|] m e]; cbn [SFnonneg];
      try destruct s; try discriminate; auto. }
  assert (Hm : mag offset <= F2R (7036874417766400 - 1) (-45)).
  { apply below_of_ltb; try assumption; try reflexivity.
    rewrite FloatAxioms.ltb_spec in H1. exact H1. }
  assert (H50 : mag 50 = 50).
  { unfold mag. change (Prim2SF 50)
      with (S754_finite false 7036874417766400 (-47)).
    cbn [SFmag]. apply (F2R_scaled _ _ 50); reflexivity. }
  assert (H250 : mag 250 = 250).
  { unfold mag. change (Prim2SF 250)
      with (S754_finite false 8796093022208000 (-45)).
    cbn [SFmag]. apply (F2R_scaled _ _ 250); reflexivity. }
  assert (Hlo : F2R 1759218604441600 (-45) = 50)
    by (apply (F2R_scaled _ _ 50); reflexivity).
  assert (Hhi : F2R (8796093022208000 - 1) (-45) = 250 - bpow (-45)).
  { unfold F2R. rewrite minus_IZR.
    assert (IZR 8796093022208000 * bpow (-45) = 250)
      by (apply (F2R_scaled _ _ 250); reflexivity).
    lra. }
  assert (Hoff : F2R (7036874417766400 - 1) (-45) = 200 - bpow (-45)).
  { unfold F2R. rewrite minus_IZR.
    assert (IZR 7036874417766400 * bpow (-45) = 200)
      by (apply (F2R_scaled _ _ 200); reflexivity).
    lra. }
  pose proof (mag_nonneg offset) as Ho0.
  pose proof (bpow_pos (-45)) as H45.
  assert (H256 : bpow 8 = 256)
    by (rewrite (bpow_IZR 8) by lia; reflexivity).
  destruct (add_between 50 offset 1759218604441600 (-45)
              (8796093022208000 - 1) (-45) 8)
    as (Hnn & Hfin & Hge & Hle);
    try assumption; try exact I; try lia; try (rewrite H50; lra).
  apply is_finite_iff in Hfin.
  split.
  - rewrite FloatAxioms.leb_spec.
    apply SFleb_of_mag; try apply Prim2SF_valid; try assumption;
      try exact I.
    fold (mag 50). fold (mag (50 + offset)%float). lra.
  - rewrite FloatAxioms.ltb_spec.
    apply SFltb_of_mag; try apply Prim2SF_valid; try assumption;
      try exact I.
    fold (mag 250). fold (mag (50 + offset)%float). lra.
Qed.

(** *** A draw times a constant *)

(** A draw in [[0, 1)] times a positive constant [c] is in [[0, c)]: the
    product is rounded, and stays below. *)
Lemma draw_scaled (r c : float) :
  (0 <=? r)%float = true -> (r <? 1)%float = true ->
  (0 <? c)%float = true -> Double.is_finite c = true ->
  (-968 <= SFexp (Prim2SF c))%Z ->
  (0 <=? r * c)%float = true /\ (r * c <? c)%float = true.
Proof.
  intros H0 H1 Hc0 Hcf Hce.
  pose proof (leb_0_nonneg r H0 H1) as Hn.
  pose proof (below_one r H0 H1) as Hm.
  assert (Hf : Double.is_finite r = true).
  { apply is_finite_iff. destruct (Prim2SF r) as [s|s| |[|] m e];
      cbn [SFnonneg] in Hn; try contradiction; exact I. }
  assert (Hcs : exists mc ec, Prim2SF c = S754_finite false mc ec).
  { apply is_finite_iff in Hcf. rewrite FloatAxioms.ltb_spec in Hc0.
    change (Prim2SF 0) with (S754_zero false) in Hc0.
    destruct (Prim2SF c) as [s|s| |[|] mc ec]; try contradiction;
      try discriminate; try (destruct s; discriminate).
    exists mc, ec. reflexivity. }
  destruct Hcs as (mc & ec & Ec).
  assert (Hcm : bpow (-968) <= mag c).
  { unfold mag. rewrite Ec in *. cbn [SFmag SFexp] in *.
    apply Rle_trans with (bpow ec); [apply bpow_le; assumption|].
    unfold F2R. assert (1 <= IZR (Zpos mc)) by (apply IZR_le; lia).
    pose proof (bpow_pos ec). nra. }
  pose proof (mag_nonneg r) as Hr0.
  pose proof (mag_le_max c) as Hcmax.
  pose proof bpow_970_lt as H970.
  pose proof (bpow_pos (-53)) as H53.
  assert (H53' : bpow (-53) <= 1).
  { change 1 with (bpow 0). apply bpow_le. lia. }
  assert (Hno : mag r * mag c < bpow 1024 - bpow 970).
  { apply Rle_lt_trans with (1 * mag c); [|pow_arith lra].
    apply Rmult_le_compat_r; [pow_arith lra|pow_arith lra]. }
  destruct (mul_nearest r c Hf Hcf Hno) as (Hfin & Hsign & Hup & _).
  assert (Hnn : SFnonneg (Prim2SF (r * c)%float)).
  { apply is_finite_iff in Hfin. rewrite Ec in Hsign.
    destruct (Prim2SF r) as [s|s| |[|] m e] eqn:Er; cbn [SFnonneg] in Hn;
      try contradiction.
    - rewrite mul_spec, Er, Ec. exact I.
    - cbn [SFsign xorb] in Hsign.
      destruct (Prim2SF (r * c)%float) as [s'|s'| |s' m' e'];
        cbn [SFsign SFnonneg SFfinite] in *; try contradiction; auto.
      subst s'. exact I. }
  split.
  - rewrite FloatAxioms.leb_spec. apply SFnonneg_leb. assumption.
  - rewrite FloatAxioms.ltb_spec.
    apply SFltb_of_mag; try apply Prim2SF_valid; try assumption.
    + rewrite Ec. exact I.
    + fold (mag (r * c)%float). fold (mag c).
      assert (Hsq : bpow (-1075) < bpow (-968) * (bpow (-53) * bpow (-53))).
      { rewrite <- !bpow_add. 
        destruct (Rlt_le_dec (bpow (-1075)) (bpow (-968 + (-53 + -53))))
          as [|Hc]; [assumption|].
        apply bpow_le_inv in Hc. lia. }
      assert (Hprod : mag r * mag c <= (1 - bpow (-53)) * mag c).
      { apply Rmult_le_compat_r; [pow_arith lra|assumption]. }
      assert (Hsq2 : bpow (-968) * (bpow (-53) * bpow (-53))
                     <= mag c * (bpow (-53) * bpow (-53))).
      { apply Rmult_le_compat_r; [|assumption].
        apply Rmult_le_pos; lra. }
      pow_arith nra.
Qed.

(** *** The floor of a double below seven *)

Lemma floor_below_7 (x : float) :
  (0 <=? x)%float = true -> (x <? 7)%float = true ->
  exists i, Double.to_index (Double.floor x) = Some i /\ (i < 7)%nat.
Proof.
  intros H0 H1.
  assert (Hn : SFnonneg (Prim2SF x)).
  { revert H0 H1. rewrite FloatAxioms.leb_spec, FloatAxioms.ltb_spec.
    change (Prim2SF 0) with (S754_zero false).
    destruct (Prim2SF x) as [s|s| |[|] m e]; cbn [SFnonneg];
      try destruct s; try discriminate; auto. }
  assert (Hm : mag x <= F2R (7881299347898368 - 1) (-50)).
  { apply below_of_ltb; try assumption; try reflexivity.
    rewrite FloatAxioms.ltb_spec in H1. exact H1. }
  assert (H7 : F2R (7881299347898368 - 1) (-50) < 7).
  { unfold F2R. rewrite minus_IZR.
    assert (IZR 7881299347898368 * bpow (-50) = 7)
      by (apply (F2R_scaled _ _ 7); reflexivity).
    pose proof (bpow_pos (-50)). lra. }
  pose proof (Prim2SF_valid x) as Hv.
  unfold Double.floor. unfold mag in Hm.
  destruct (Prim2SF x) as [s|s| |[|] m e] eqn:Ex; cbn [SFnonneg] in Hn;
    try contradiction.
  - exists 0%nat. unfold Double.to_index. rewrite Ex. split; [reflexivity|lia].
  - cbn [SFmag] in Hm. destruct (valid_finite _ _ _ Hv) as (He & Hd & Hnorm).
    destruct (0 <=? e)%Z eqn:E0.
    + exfalso. apply Z.leb_le in E0.
      pose proof (F2R_digits_le (Zpos m) e ltac:(lia)) as Hlo.
      cbn [Zdigits2] in Hlo. rewrite (Hnorm ltac:(lia)) in Hlo.
      assert (bpow 3 <= bpow (53 - 1 + e)) by (apply bpow_le; lia).
      assert (bpow 3 = 8) by (rewrite (bpow_IZR 3) by lia; reflexivity).
      lra.
    + apply Z.leb_gt in E0. cbn [cond_Zopp].
      rewrite Z.shiftl_div_pow2 by lia.
      assert (Hp : (0 < 2 ^ (- e))%Z) by (apply Z.pow_pos_nonneg; lia).
      assert (Hz : (0 <= Zpos m / 2 ^ (- e) < 7)%Z).
      { split; [apply Z.div_pos; lia|].
        apply Z.div_lt_upper_bound; [assumption|].
        apply lt_IZR. rewrite mult_IZR.
        assert (Hx : F2R (Zpos m) e < 7) by lra.
        unfold F2R in Hx. replace e with (Z.opp (- e)) in Hx at 1 by lia.
        rewrite bpow_opp, (bpow_IZR (- e)) in Hx by lia.
        assert (Hpos : 0 < IZR (2 ^ (- e))) by (apply IZR_lt; assumption).
        apply (Rmult_lt_compat_r _ _ _ Hpos) in Hx.
        rewrite Rmult_assoc, Rinv_l, Rmult_1_r in Hx by lra.
        rewrite Rmult_comm. exact Hx. }
      set (z := (Zpos m / 2 ^ (- e))%Z) in *.
      assert (Hc : z = 0%Z \/ z = 1%Z \/ z = 2%Z \/ z = 3%Z \/ z = 4%Z
                   \/ z = 5%Z \/ z = 6%Z) by lia.
      destruct Hc as [->|[->|[->|[->|[->|[->| ->]]]]]];
        eexists; (split; [reflexivity|simpl; lia]).
Qed.

End Nearest.

(** ** The coordinate mapper and the substituted distance in binary64 *)

Section CoordinatesOverDoubles.

Variables cos64 sin64 : float -> float.
#[local] Hint Extern 0 JSNumber => exact (binary64 cos64 sin64)
  : typeclass_instances.

Local Open Scope R_scope.

Ltac pow_arith tac :=
  repeat match goal with
    | |- context [bpow ?e] =>
        let b := fresh "b" in
        let Hb := fresh "Hb" in
        pose proof (bpow_pos e) as Hb;
        set (b := bpow e) in *; clearbody b
    | H : context [bpow ?e] |- _ =>
        let b := fresh "b" in
        let Hb := fresh "Hb" in
        pose proof (bpow_pos e) as Hb;
        set (b := bpow e) in *; clearbody b
    end;
  tac.

Lemma astronomicalToCartesian_doubles (ra dec d : float) :
  astronomicalToCartesian ra dec (Some d)
  = THREE_Vector3
      (d * cos64 (dec * (Double.PI / 180)) * cos64 (ra * 15 * (Double.PI / 180)))%float
      (d * sin64 (dec * (Double.PI / 180)))%float
      (d * cos64 (dec * (Double.PI / 180)) * sin64 (ra * 15 * (Double.PI / 180)))%float.
Proof. reflexivity. Qed.

(** C3, over binary64.  For all doubles the mapper returns the three
    products of the formula, with the angles, the cosines, the sines and the
    products as the engine computes them.  With [Math.cos] and [Math.sin] of
    [+0] being 1 and [+0], as ECMAScript prescribes: every finite distance
    [d] at RA 0, Dec 0 maps to [(d, 0, 0)] exactly (the zeros carry the sign
    of [d]); and at RA 6, Dec 0 it maps to [(d * c, 0, d * s)] for the
    cosine [c] and the sine [s] the engine returns at the double nearest to
    a quarter turn, which is within [|d| * |c|] and one rounding of [0],
    and within [|d| * |s - 1|] and one rounding of [d], when [c] and [s]
    are at most 1 in magnitude. *)
Theorem astronomicalToCartesian_spherical :
  (forall ra dec d : float,
      astronomicalToCartesian ra dec (Some d)
      = THREE_Vector3
          (d * cos64 (dec * (Double.PI / 180))
           * cos64 (ra * 15 * (Double.PI / 180)))%float
          (d * sin64 (dec * (Double.PI / 180)))%float
          (d * cos64 (dec * (Double.PI / 180))
           * sin64 (ra * 15 * (Double.PI / 180)))%float)
  /\ (cos64 0%float = 1%float -> sin64 0%float = 0%float ->
      forall d : float, Double.is_finite d = true ->
        astronomicalToCartesian 0%float 0%float (Some d)
        = THREE_Vector3 d (d * 0)%float (d * 0)%float
        /\ is_zero (d * 0)%float = true)
  /\ (cos64 0%float = 1%float -> sin64 0%float = 0%float ->
      Double.is_finite (cos64 rightAngle) = true ->
      mag (cos64 rightAngle) <= 1 ->
      Double.is_finite (sin64 rightAngle) = true ->
      mag (sin64 rightAngle) <= 1 ->
      forall d : float, Double.is_finite d = true ->
        astronomicalToCartesian 6%float 0%float (Some d)
        = THREE_Vector3 (d * cos64 rightAngle)%float (d * 0)%float
            (d * sin64 rightAngle)%float
        /\ is_zero (d * 0)%float = true
        /\ Double.is_finite (d * cos64 rightAngle)%float = true
        /\ Double.is_finite (d * sin64 rightAngle)%float = true
        /\ mag (d * cos64 rightAngle)%float
           <= mag d * mag (cos64 rightAngle) * (1 + bpow (-53))
              + bpow (-1075)
        /\ Rabs (val (d * sin64 rightAngle)%float - val d)
           <= mag d * (Rabs (val (sin64 rightAngle) - 1) + bpow (-53))
              + bpow (-1075)).
Proof.
  split; [|split].
  - intros ra dec d. reflexivity.
  - intros Hc Hs d Hd. rewrite astronomicalToCartesian_doubles.
    change (0 * (Double.PI / 180))%float with 0%float.
    change (0 * 15 * (Double.PI / 180))%float with 0%float.
    rewrite Hc, Hs, !mul_1_r. split; [reflexivity|]. apply mul_0_r, Hd.
  - intros Hc Hs Hcf Hcm Hsf Hsm d Hd.
    rewrite astronomicalToCartesian_doubles.
    change (0 * (Double.PI / 180))%float with 0%float.
    change (6 * 15 * (Double.PI / 180))%float with rightAngle.
    rewrite Hc, Hs, !mul_1_r.
    pose proof (mag_le_max d) as Hmax. pose proof (mag_nonneg d) as Hd0.
    pose proof (mag_nonneg (cos64 rightAngle)) as Hc0.
    pose proof (mag_nonneg (sin64 rightAngle)) as Hs0.
    pose proof bpow_970_lt as Hlt.
    assert (Hnc : mag d * mag (cos64 rightAngle) < bpow 1024 - bpow 970).
    { apply Rle_lt_trans with (mag d * 1); [|pow_arith lra].
      apply Rmult_le_compat_l; assumption. }
    assert (Hns : mag d * mag (sin64 rightAngle) < bpow 1024 - bpow 970).
    { apply Rle_lt_trans with (mag d * 1); [|pow_arith lra].
      apply Rmult_le_compat_l; assumption. }
    destruct (mul_nearest d (cos64 rightAngle) Hd Hcf Hnc)
      as (Hfc & _ & Hup & _).
    destruct (mul_nearest d (sin64 rightAngle) Hd Hsf Hns)
      as (Hfs & _ & _ & _).
    pose proof (mul_val d (sin64 rightAngle) Hd Hsf Hns) as Hv.
    repeat split; try assumption; try (apply mul_0_r, Hd).
    assert (Hsplit : val (d * sin64 rightAngle)%float - val d
                     = (val (d * sin64 rightAngle)%float
                        - val d * val (sin64 rightAngle))
                       + val d * (val (sin64 rightAngle) - 1)) by ring.
    rewrite Hsplit.
    eapply Rle_trans; [apply Rabs_triang|].
    rewrite Rabs_mult, val_mag.
    pose proof (Rabs_pos (val (sin64 rightAngle) - 1)) as Hr0.
    pose proof (bpow_pos (-53)) as H53.
    assert (mag d * mag (sin64 rightAngle) * bpow (-53)
            <= mag d * bpow (-53)).
    { rewrite (Rmult_comm (mag d) (mag (sin64 rightAngle))), Rmult_assoc.
      rewrite <- (Rmult_1_l (mag d * bpow (-53))) at 2.
      apply Rmult_le_compat_r; [|assumption].
      apply Rmult_le_pos; lra. }
    pow_arith nra.
Qed.

(** For every engine that obeys ECMAScript at [+0], an infinite distance at
    RA 0, Dec 0 gives NaN for [y] and [z]. *)
Lemma infinite_distance_gives_nan :
  cos64 0%float = 1%float -> sin64 0%float = 0%float ->
  astronomicalToCartesian 0%float 0%float (Some infinity)
  = THREE_Vector3 infinity PrimFloat.nan PrimFloat.nan.
Proof.
  intros Hc Hs. rewrite astronomicalToCartesian_doubles.
  change (0 * (Double.PI / 180))%float with 0%float.
  change (0 * 15 * (Double.PI / 180))%float with 0%float.
  rewrite Hc, Hs. reflexivity.
Qed.

(** An infinite distance times a positive number is infinite. *)
Lemma infinity_mul_positive (c : float) :
  (0 <? c)%float = true -> (infinity * c)%float = infinity.
Proof.
  rewrite FloatAxioms.ltb_spec. intros H. apply Prim2SF_inj.
  rewrite mul_spec. change (Prim2SF infinity) with (S754_infinity false).
  change (Prim2SF 0) with (S754_zero false) in H.
  destruct (Prim2SF c) as [s|s| |s m e]; try destruct s;
    try discriminate; reflexivity.
Qed.

(** For every engine whose cosine and sine at an eighth of a turn are
    positive, a record at RA 3, Dec 45 with an infinite distance is mapped
    to a point whose coordinates are all infinite, at an infinite distance
    from the origin. *)
Lemma infinite_distance_is_placed :
  (0 <? cos64 halfRightAngle)%float = true ->
  (0 <? sin64 halfRightAngle)%float = true ->
  astronomicalToCartesian 3%float 45%float (Some infinity)
  = THREE_Vector3 infinity infinity infinity
  /\ Vector3_length (THREE_Vector3 infinity infinity infinity) = infinity.
Proof.
  intros Hc Hs. split; [|reflexivity].
  rewrite astronomicalToCartesian_doubles.
  change (45 * (Double.PI / 180))%float with halfRightAngle.
  change (3 * 15 * (Double.PI / 180))%float with halfRightAngle.
  rewrite !(infinity_mul_positive _ Hc), !(infinity_mul_positive _ Hs).
  reflexivity.
Qed.

(** C10, as the code has it.  For a record with right ascension and
    declination that does not give all of [x], [y] and [z]: when the
    distance is absent, a zero or NaN, the position is computed at distance
    [50 + Math.random() * 200], with one draw, exactly as for the record
    without the distance field, and for a draw in [[0, 1)] the offset is in
    [[0, 200)] and the distance in [[50, 250)], roundings included; when
    the distance is any other number, infinities included, the position is
    computed at that distance and nothing is drawn. *)
Theorem falsy_distance_is_substituted (star : StarData) (ra dec : number)
    (w : World) :
  hasCartesian star = false ->
  star_ra star = Some ra -> star_dec star = Some dec ->
  (star_distance star = None
   \/ (exists d, star_distance star = Some d
                 /\ (is_zero d = true \/ is_nan d = true)) ->
   let draw := draws (rng w) (taken (rng w)) in
   starPosition star w
   = (inr (astronomicalToCartesian ra dec (Some (50 + draw * 200)%float)),
      advance 1 w)
   /\ starPosition star w = starPosition (withoutDistance star) w
   /\ ((0 <=? draw)%float = true -> (draw <? 1)%float = true ->
       (0 <=? draw * 200)%float = true
       /\ (draw * 200 <? 200)%float = true
       /\ (50 <=? 50 + draw * 200)%float = true
       /\ (50 + draw * 200 <? 250)%float = true))
  /\ (forall d,
        star_distance star = Some d ->
        is_zero d = false -> is_nan d = false ->
        starPosition star w
        = (inr (astronomicalToCartesian ra dec (Some d)), w)).
Proof.
  intros Hc Hra Hdec. split.
  - intros Hfalsy draw.
    assert (Hsub : starDistance star w
                   = (inr (50 + draw * 200)%float, advance 1 w)).
    { apply (starDistance_substituted star w).
      destruct Hfalsy as [Hd|(d & Hd & Hz)]; [now left|right].
      exists d. split; [assumption|]. now apply truthy_false. }
    rewrite (starPosition_astronomical star ra dec w Hc Hra Hdec), Hsub.
    split; [reflexivity|]. split.
    + rewrite (starPosition_astronomical (withoutDistance star) ra dec w
                 Hc Hra Hdec).
      rewrite (starDistance_substituted (withoutDistance star) w)
        by (now left).
      reflexivity.
    + intros H0 H1. destruct (offset_range draw H0 H1) as [Ho0 Ho1].
      destruct (distance_range _ Ho0 Ho1) as [Hd0 Hd1]. auto.
  - intros d Hd Hz Hn.
    rewrite (starPosition_astronomical star ra dec w Hc Hra Hdec).
    rewrite (starDistance_stated star d w Hd); [reflexivity|].
    change (Double.truthy d = true). unfold Double.truthy.
    now rewrite Hz, Hn.
Qed.

End CoordinatesOverDoubles.

(** *** Evaluations of the coordinate mapper *)

Section CoordinateExamples.

#[local] Existing Instance Tabled.engine.

Local Open Scope R_scope.

Lemma Tabled_cos_small : mag (Tabled.cos64 rightAngle) <= 1.
Proof.
  unfold mag.
  change (Prim2SF (Tabled.cos64 rightAngle))
    with (S754_finite false 4967757600021511 (-106)).
  cbn [SFmag].
  pose proof (F2R_lt_digits 4967757600021511 (-106) ltac:(lia)) as H.
  change (Zdigits2 4967757600021511 + -106)%Z with (-53)%Z in H.
  assert (bpow (-53) <= bpow 0) by (apply bpow_le; lia).
  rewrite bpow_0 in *. lra.
Qed.

Lemma Tabled_sin_one : mag (Tabled.sin64 rightAngle) <= 1.
Proof.
  unfold mag.
  change (Prim2SF (Tabled.sin64 rightAngle))
    with (S754_finite false 4503599627370496 (-52)).
  cbn [SFmag]. unfold F2R. rewrite bpow_m52. lra.
Qed.

(** C3 as stated fails at an infinite distance, which [JSON.parse] gives for
    [1e999]: at RA 0, Dec 0 the point is (Infinity, NaN, NaN), and NaN is
    not 0. *)
Lemma infinite_distance_not_on_axis :
  astronomicalToCartesian 0%float 0%float (Some infinity)
  = THREE_Vector3 infinity PrimFloat.nan PrimFloat.nan
  /\ is_zero PrimFloat.nan = false
  /\ Double.is_finite infinity = false.
Proof. repeat split. Qed.

Lemma astronomicalToCartesian_spherical_witness :
  astronomicalToCartesian 0%float 0%float (Some 100%float)
  = THREE_Vector3 100%float 0%float 0%float
  /\ astronomicalToCartesian 6%float 0%float (Some 100%float)
     = THREE_Vector3 6.1232339957367661e-15%float 0%float 100%float
  /\ mag 6.1232339957367661e-15%float
     <= mag 100 * mag (Tabled.cos64 rightAngle) * (1 + bpow (-53))
        + bpow (-1075)
  /\ Rabs (val (100 * Tabled.sin64 rightAngle)%float - val 100)
     <= mag 100 * (Rabs (val (Tabled.sin64 rightAngle) - 1) + bpow (-53))
        + bpow (-1075).
Proof.
  destruct (astronomicalToCartesian_spherical Tabled.cos64 Tabled.sin64)
    as (_ & H0 & H6).
  destruct (H0 eq_refl eq_refl 100%float eq_refl) as [E0 _].
  destruct (H6 eq_refl eq_refl eq_refl Tabled_cos_small eq_refl
              Tabled_sin_one 100%float eq_refl)
    as (E6 & _ & _ & _ & Hx & Hz).
  split; [exact E0|split; [exact E6|split; [exact Hx|exact Hz]]].
Defined.

(** C10 as stated fails twice.  A record that gives right ascension,
    declination and distance 0 and also [x], [y] and [z], here all 0, is
    placed at the origin, at distance 0, and nothing is substituted or
    drawn.  A record with an infinite distance, which is not finite, is
    placed at its stated distance: at RA 3, Dec 45 every coordinate is
    infinite, and so is the distance from the origin. *)
Lemma zero_distance_kept_and_infinite_distance_placed :
  starPosition Tabled.atOrigin (Tabled.world 0.5)
  = (inr (THREE_Vector3 0%float 0%float 0%float), Tabled.world 0.5)
  /\ star_distance Tabled.atOrigin = Some 0%float
  /\ starPosition Tabled.farAway (Tabled.world 0.5)
     = (inr (THREE_Vector3 infinity infinity infinity), Tabled.world 0.5)
  /\ Vector3_length (THREE_Vector3 infinity infinity infinity) = infinity
  /\ star_distance Tabled.farAway = Some infinity
  /\ Double.is_finite infinity = false.
Proof. repeat split. Qed.

Lemma falsy_distance_is_substituted_witness :
  starPosition (Sample.starAt (Some PrimFloat.nan)) (Sample.world 0.5)
  = (inr (@astronomicalToCartesian Sample.engine 6%float 0%float
            (Some 150%float)),
     advance 1 (Sample.world 0.5))
  /\ starPosition (Sample.starAt (Some PrimFloat.nan)) (Sample.world 0.5)
     = starPosition (Sample.starAt None) (Sample.world 0.5)
  /\ (0 <=? 0.5 * 200)%float = true
  /\ (0.5 * 200 <? 200)%float = true
  /\ (50 <=? 50 + 0.5 * 200)%float = true
  /\ (50 + 0.5 * 200 <? 250)%float = true.
Proof.
  destruct (falsy_distance_is_substituted
              (fun _ => 1%float) (fun _ => 0%float)
              (Sample.starAt (Some PrimFloat.nan)) 6%float 0%float
              (Sample.world 0.5) eq_refl eq_refl eq_refl) as [H _].
  destruct (H (or_intror
                 (ex_intro _ PrimFloat.nan
                    (conj eq_refl (or_intror eq_refl)))))
    as (E1 & E2 & R).
  destruct (R eq_refl eq_refl) as (R1 & R2 & R3 & R4).
  split; [exact E1|split; [exact E2|]].
  split; [exact R1|split; [exact R2|split; [exact R3|exact R4]]].
Defined.

End CoordinateExamples.

(** ** Signed results in binary64

    Sums, differences and products of finite doubles as real numbers:
    rounding does not cross a number of the grid it rounds to, whatever
    the signs. *)

Section Signed.

Local Open Scope R_scope.

Ltac pow_arith tac :=
  repeat match goal with
    | |- context [bpow ?e] =>
        let b := fresh "b" in
        let Hb := fresh "Hb" in
        pose proof (bpow_pos e) as Hb;
        set (b := bpow e) in *; clearbody b
    | H : context [bpow ?e] |- _ =>
        let b := fresh "b" in
        let Hb := fresh "Hb" in
        pose proof (bpow_pos e) as Hb;
        set (b := bpow e) in *; clearbody b
    end;
  tac.

Lemma F2R_opp (a E : Z) : F2R (- a) E = - F2R a E.
Proof. unfold F2R. rewrite opp_IZR. ring. Qed.

Lemma F2R_0 (E : Z) : F2R 0 E = 0.
Proof. unfold F2R. ring. Qed.

Lemma bpow_lt (a b : Z) : (a < b)%Z -> bpow a < bpow b.
Proof.
  intros H. destruct (Rlt_le_dec (bpow a) (bpow b)) as [|Hc]; [assumption|].
  apply bpow_le_inv in Hc. lia.
Qed.

(** One rounding of [M * 2 ^ E] with the sign [s], between two numbers of
    the grid. *)
Lemma binary_round_aux_val_between (s : bool) (M : positive)
    (E lo tl hi th p : Z) :
  let v := if s then - F2R (Zpos M) E else F2R (Zpos M) E in
  F2R (Zpos M) E < bpow p -> (p <= 1023)%Z -> (E <= 971)%Z ->
  (Z.max (p - 53) (-1074) <= tl)%Z -> (Z.max (p - 53) (-1074) <= th)%Z ->
  F2R lo tl <= v -> v <= F2R hi th ->
  let r := binary_round_aux prec emax s (Zpos M) E loc_Exact in
  SFfinite r /\ F2R lo tl <= SFval r /\ SFval r <= F2R hi th.
Proof.
  intros v Hp Hp' HE Htl Hth Hlo Hhi r.
  pose proof (F2R_pos (Zpos M) E ltac:(lia)) as Hpos.
  pose proof (binary_round_aux_nearest s (Zpos M) E ltac:(lia)) as Hn.
  assert (Hbig : bpow p <= bpow 1024 - bpow 970).
  { apply Rle_trans with (bpow 1023); [apply bpow_le; assumption|].
    rewrite (bpow_half 1024). change (1024 - 1)%Z with 1023%Z.
    pose proof (bpow_lt 970 1023 ltac:(lia)). lra. }
  destruct s; unfold v in *.
  - (* negative *)
    assert (Hlo' : F2R (Z.max (- hi) 0) th <= F2R (Zpos M) E).
    { destruct (Z.max_spec (- hi) 0) as [[_ ->]|[_ ->]].
      - rewrite F2R_0. lra.
      - rewrite F2R_opp. lra. }
    assert (Hhi' : F2R (Zpos M) E <= F2R (- lo) tl)
      by (rewrite F2R_opp; lra).
    pose proof (binary_round_aux_between true (Zpos M) E
                  (Z.max (- hi) 0) th (- lo) tl p ltac:(lia) Hp Hth Htl
                  Hlo' Hhi') as Hw.
    fold r in Hn, Hw.
    destruct r as [s'|s'| |s' m e]; cbn [SFfinite].
    + unfold SFval. cbn [SFmag]. split; [exact I|].
      assert (Hh : (0 <= hi)%Z) by lia.
      apply (F2R_le 0 hi th) in Hh. rewrite F2R_0 in Hh.
      destruct (SFsign (S754_zero s')); lra.
    + exfalso. destruct Hn as [_ [Hn|Hn]]; [lia|lra].
    + contradiction.
    + destruct Hn as (-> & _). unfold SFval. cbn [SFsign SFmag].
      destruct Hw as [Hw1 Hw2]. rewrite F2R_opp in Hw2.
      split; [exact I|]. split; [lra|].
      destruct (Z.max_spec (- hi) 0) as [[Hc Em]|[Hc Em]]; rewrite Em in Hw1.
      * rewrite F2R_0 in Hw1.
        assert (Hh : (0 <= hi)%Z) by lia.
        apply (F2R_le 0 hi th) in Hh. rewrite F2R_0 in Hh. lra.
      * rewrite F2R_opp in Hw1. lra.
  - (* positive *)
    assert (Hlo' : F2R (Z.max lo 0) tl <= F2R (Zpos M) E).
    { destruct (Z.max_spec lo 0) as [[_ ->]|[_ ->]]; [rewrite F2R_0|]; lra. }
    pose proof (binary_round_aux_between false (Zpos M) E
                  (Z.max lo 0) tl hi th p ltac:(lia) Hp Htl Hth
                  Hlo' Hhi) as Hw.
    fold r in Hn, Hw.
    destruct r as [s'|s'| |s' m e]; cbn [SFfinite].
    + unfold SFval. cbn [SFmag]. split; [exact I|].
      assert (Hl : (lo <= 0)%Z) by lia.
      apply (F2R_le lo 0 tl) in Hl. rewrite F2R_0 in Hl.
      destruct (SFsign (S754_zero s')); lra.
    + exfalso. destruct Hn as [_ [Hn|Hn]]; [lia|lra].
    + contradiction.
    + destruct Hn as (-> & _). unfold SFval. cbn [SFsign SFmag].
      destruct Hw as [Hw1 Hw2]. split; [exact I|]. split; [|lra].
      destruct (Z.max_spec lo 0) as [[Hc Em]|[Hc Em]]; rewrite Em in Hw1.
      * rewrite F2R_0 in Hw1.
        assert (Hl : (lo <= 0)%Z) by lia.
        apply (F2R_le lo 0 tl) in Hl. rewrite F2R_0 in Hl. lra.
      * lra.
Qed.

(** [binary_round] is one rounding of the same value. *)
Lemma binary_round_spec (s : bool) (m : positive) (e : Z) :
  exists (mz : positive) (ez : Z),
    binary_round prec emax s m e
    = binary_round_aux prec emax s (Zpos mz) ez loc_Exact
    /\ F2R (Zpos mz) ez = F2R (Zpos m) e /\ (ez <= e)%Z.
Proof.
  unfold binary_round.
  destruct (shl_align_spec m e (fexp prec emax (Zpos (digits2_pos m) + e)))
    as [Hv He].
  destruct (shl_align m e (fexp prec emax (Zpos (digits2_pos m) + e)))
    as [mz ez]. cbn [fst snd] in Hv, He.
  exists mz, ez. split; [reflexivity|]. split; [exact Hv|lia].
Qed.

(** [binary_normalize] of a signed integer, between two numbers of the
    grid. *)
Lemma binary_normalize_val_between (S E lo tl hi th p : Z) :
  Rabs (F2R S E) < bpow p -> (p <= 1023)%Z -> (E <= 971)%Z ->
  (Z.max (p - 53) (-1074) <= tl)%Z -> (Z.max (p - 53) (-1074) <= th)%Z ->
  F2R lo tl <= F2R S E -> F2R S E <= F2R hi th ->
  let r := binary_normalize prec emax S E false in
  SFfinite r /\ F2R lo tl <= SFval r /\ SFval r <= F2R hi th.
Proof.
  intros Hp Hp' HE Htl Hth Hlo Hhi r. unfold r.
  destruct S as [|m|m]; cbn [binary_normalize].
  - rewrite F2R_0 in *. unfold SFval. cbn. repeat split; lra.
  - destruct (binary_round_spec false m E) as (mz & ez & -> & Hv & Hez).
    rewrite <- Hv in *.
    pose proof (F2R_pos (Zpos mz) ez ltac:(lia)) as Hpos.
    rewrite Rabs_pos_eq in Hp by lra.
    apply (binary_round_aux_val_between false mz ez lo tl hi th p);
      try assumption; lia.
  - destruct (binary_round_spec true m E) as (mz & ez & -> & Hv & Hez).
    assert (Hneg : F2R (Zneg m) E = - F2R (Zpos mz) ez).
    { rewrite Hv. change (Zneg m) with (- Zpos m)%Z. apply F2R_opp. }
    rewrite Hneg in *.
    pose proof (F2R_pos (Zpos mz) ez ltac:(lia)) as Hpos.
    rewrite Rabs_Ropp, Rabs_pos_eq in Hp by lra.
    apply (binary_round_aux_val_between true mz ez lo tl hi th p);
      try assumption; lia.
Qed.

Lemma F2R_cond_Zopp (s : bool) (m : positive) (e : Z) :
  F2R (cond_Zopp s (Zpos m)) e = SFval (S754_finite s m e).
Proof.
  unfold SFval. cbn [SFsign SFmag]. destruct s; cbn [cond_Zopp].
  - change (Z.opp (Zpos m)) with (- Zpos m)%Z. apply F2R_opp.
  - reflexivity.
Qed.

(** The aligned mantissas of a sum or a difference. *)
Lemma aligned_val (s : bool) (m : positive) (e e' : Z) :
  (e' <= e)%Z ->
  F2R (cond_Zopp s (Zpos (fst (shl_align m e e')))) e'
  = SFval (S754_finite s m e).
Proof.
  intros He. destruct (shl_align_spec m e e') as [Hv Hs].
  rewrite Z.min_r in Hs by lia. rewrite Hs in Hv.
  unfold SFval. cbn [SFsign SFmag]. rewrite <- Hv.
  destruct s; cbn [cond_Zopp]; [|reflexivity].
  change (Z.opp (Zpos (fst (shl_align m e e'))))
    with (- Zpos (fst (shl_align m e e')))%Z. apply F2R_opp.
Qed.

Lemma F2R_sub (a b E : Z) : F2R (a - b) E = F2R a E - F2R b E.
Proof. unfold F2R. rewrite minus_IZR. ring. Qed.

Lemma SFval_zero (s : bool) : SFval (S754_zero s) = 0.
Proof. unfold SFval. cbn. destruct s; lra. Qed.

Lemma SFval_opp (s : bool) (m : positive) (e : Z) :
  SFval (S754_finite (negb s) m e) = - SFval (S754_finite s m e).
Proof. unfold SFval. cbn [SFsign SFmag]. destruct s; cbn [negb]; lra. Qed.

(** The difference of two finite doubles, between two numbers of the
    grid. *)
Lemma sub_val_between (a b : float) (lo tl hi th p : Z) :
  Double.is_finite a = true -> Double.is_finite b = true ->
  Rabs (val a - val b) < bpow p -> (p <= 1023)%Z ->
  (Z.max (p - 53) (-1074) <= tl)%Z -> (Z.max (p - 53) (-1074) <= th)%Z ->
  F2R lo tl <= val a - val b -> val a - val b <= F2R hi th ->
  Double.is_finite (a - b)%float = true
  /\ F2R lo tl <= val (a - b)%float /\ val (a - b)%float <= F2R hi th.
Proof.
  intros Ha Hb Hp Hp' Htl Hth Hlo Hhi.
  apply is_finite_iff in Ha, Hb. rewrite is_finite_iff.
  pose proof (Prim2SF_valid a) as Hva. pose proof (Prim2SF_valid b) as Hvb.
  unfold val in *. rewrite sub_spec.
  destruct (Prim2SF a) as [sa|sa| |sa ma ea],
           (Prim2SF b) as [sb|sb| |sb mb eb];
    cbn [SFfinite] in *; try contradiction.
  - rewrite !SFval_zero in *.
    assert (E : SFval (SF64sub (S754_zero sa) (S754_zero sb)) = 0)
      by (destruct sa, sb; apply SFval_zero).
    rewrite E. split; [destruct sa, sb; exact I|]. lra.
  - cbn [SF64sub SFsub]. rewrite SFval_opp. rewrite SFval_zero in *.
    split; [exact I|]. lra.
  - cbn [SF64sub SFsub]. rewrite SFval_zero in *. split; [exact I|]. lra.
  - cbn [SF64sub SFsub].
    change (IntDef.Z.min ea eb) with (Z.min ea eb).
    destruct (valid_finite _ _ _ Hva) as (Hea & _).
    destruct (valid_finite _ _ _ Hvb) as (Heb & _).
    assert (Hv : F2R (cond_Zopp sa (Zpos (fst (shl_align ma ea (Z.min ea eb))))
                      - cond_Zopp sb
                          (Zpos (fst (shl_align mb eb (Z.min ea eb)))))
                     (Z.min ea eb)
                 = SFval (S754_finite sa ma ea)
                   - SFval (S754_finite sb mb eb)).
    { rewrite F2R_sub, !aligned_val by lia. reflexivity. }
    rewrite <- Hv in *.
    apply (binary_normalize_val_between _ _ lo tl hi th p);
      try assumption; lia.
Qed.

(** The sum of two finite doubles, between two numbers of the grid. *)
Lemma add_val_between (a b : float) (lo tl hi th p : Z) :
  Double.is_finite a = true -> Double.is_finite b = true ->
  Rabs (val a + val b) < bpow p -> (p <= 1023)%Z ->
  (Z.max (p - 53) (-1074) <= tl)%Z -> (Z.max (p - 53) (-1074) <= th)%Z ->
  F2R lo tl <= val a + val b -> val a + val b <= F2R hi th ->
  Double.is_finite (a + b)%float = true
  /\ F2R lo tl <= val (a + b)%float /\ val (a + b)%float <= F2R hi th.
Proof.
  intros Ha Hb Hp Hp' Htl Hth Hlo Hhi.
  apply is_finite_iff in Ha, Hb. rewrite is_finite_iff.
  pose proof (Prim2SF_valid a) as Hva. pose proof (Prim2SF_valid b) as Hvb.
  unfold val in *. rewrite add_spec.
  destruct (Prim2SF a) as [sa|sa| |sa ma ea],
           (Prim2SF b) as [sb|sb| |sb mb eb];
    cbn [SFfinite] in *; try contradiction.
  - rewrite !SFval_zero in *.
    assert (E : SFval (SF64add (S754_zero sa) (S754_zero sb)) = 0)
      by (destruct sa, sb; apply SFval_zero).
    rewrite E. split; [destruct sa, sb; exact I|]. lra.
  - cbn [SF64add SFadd]. rewrite SFval_zero in *.
    split; [exact I|]. lra.
  - cbn [SF64add SFadd]. rewrite SFval_zero in *. split; [exact I|]. lra.
  - cbn [SF64add SFadd].
    change (IntDef.Z.min ea eb) with (Z.min ea eb).
    destruct (valid_finite _ _ _ Hva) as (Hea & _).
    destruct (valid_finite _ _ _ Hvb) as (Heb & _).
    assert (Hv : F2R (cond_Zopp sa (Zpos (fst (shl_align ma ea (Z.min ea eb))))
                      + cond_Zopp sb
                          (Zpos (fst (shl_align mb eb (Z.min ea eb)))))
                     (Z.min ea eb)
                 = SFval (S754_finite sa ma ea)
                   + SFval (S754_finite sb mb eb)).
    { rewrite F2R_add, !aligned_val by lia. reflexivity. }
    rewrite <- Hv in *.
    apply (binary_normalize_val_between _ _ lo tl hi th p);
      try assumption; lia.
Qed.

(** The product of two finite doubles, between two numbers of the grid. *)
Lemma mul_val_between (a b : float) (lo tl hi th p : Z) :
  Double.is_finite a = true -> Double.is_finite b = true ->
  Rabs (val a * val b) < bpow p -> (p <= 1023)%Z ->
  (Z.max (p - 53) (-1074) <= tl)%Z -> (Z.max (p - 53) (-1074) <= th)%Z ->
  F2R lo tl <= val a * val b -> val a * val b <= F2R hi th ->
  Double.is_finite (a * b)%float = true
  /\ F2R lo tl <= val (a * b)%float /\ val (a * b)%float <= F2R hi th.
Proof.
  intros Ha Hb Hp Hp' Htl Hth Hlo Hhi.
  pose proof (large_exponents a b) as Hlarge.
  assert (Hmag : Rabs (val a * val b) = mag a * mag b)
    by (rewrite Rabs_mult, !val_mag; reflexivity).
  apply is_finite_iff in Ha, Hb. rewrite is_finite_iff.
  unfold val, mag in *. rewrite mul_spec.
  destruct (Prim2SF a) as [sa|sa| |sa ma ea],
           (Prim2SF b) as [sb|sb| |sb mb eb];
    cbn [SFfinite] in *; try contradiction;
    try (cbn [SF64mul SFmul]; rewrite ?SFval_zero in *;
         rewrite ?Rmult_0_l, ?Rmult_0_r in *; split; [exact I|lra]).
  cbn [SF64mul SFmul SFexp SFmag] in *.
  assert (HE : (ea + eb <= 971)%Z).
  { destruct (Z_le_gt_dec (ea + eb) 971) as [|Hgt]; [assumption|exfalso].
    specialize (Hlarge ltac:(lia)).
    assert (bpow p <= bpow 1023) by (apply bpow_le; assumption).
    pose proof (bpow_lt 1023 1024 ltac:(lia)). lra. }
  assert (Hv : (if xorb sa sb then - F2R (Zpos (ma * mb)) (ea + eb)
                else F2R (Zpos (ma * mb)) (ea + eb))
               = SFval (S754_finite sa ma ea) * SFval (S754_finite sb mb eb)).
  { rewrite Pos2Z.inj_mul, F2R_mul. unfold SFval. cbn [SFsign SFmag].
    destruct sa, sb; cbn [xorb]; ring. }
  rewrite <- Hv in Hlo, Hhi.
  apply (binary_round_aux_val_between (xorb sa sb) (ma * mb) (ea + eb)
           lo tl hi th p); try assumption.
  rewrite Pos2Z.inj_mul, F2R_mul. lra.
Qed.

(** *** Comparison by value *)

Lemma SFcompare_negative (m1 m2 : positive) (e1 e2 : Z) :
  SFcompare (S754_finite true m1 e1) (S754_finite true m2 e2)
  = SFcompare (S754_finite false m2 e2) (S754_finite false m1 e1).
Proof.
  cbn [SFcompare]. rewrite (Z.compare_antisym e1 e2).
  destruct (e1 ?= e2)%Z; cbn [CompOpp]; try reflexivity.
  change (Pos.compare_cont Eq m2 m1) with (Pos.compare m2 m1).
  change (Pos.compare_cont Eq m1 m2) with (Pos.compare m1 m2).
  rewrite (Pos.compare_antisym m1 m2).
  destruct (m1 ?= m2)%positive; reflexivity.
Qed.

Lemma valid_negative (m : positive) (e : Z) :
  valid_binary (S754_finite true m e) = valid_binary (S754_finite false m e).
Proof. reflexivity. Qed.

(** Finite doubles compare as their values do. *)
Lemma SFleb_of_val (x y : spec_float) :
  valid_binary x = true -> valid_binary y = true ->
  SFfinite x -> SFfinite y ->
  SFval x <= SFval y -> SFleb x y = true.
Proof.
  intros Hvx Hvy Hfx Hfy Hle.
  destruct x as [sx|sx| |[|] mx ex], y as [sy|sy| |[|] my ey];
    cbn [SFfinite] in *; try contradiction;
    rewrite ?SFval_zero in *;
    try (destruct sx; destruct sy; reflexivity);
    try (destruct sx; reflexivity); try (destruct sy; reflexivity);
    try reflexivity;
    unfold SFval in *; cbn [SFsign SFmag] in *;
    try (pose proof (F2R_pos (Zpos mx) ex ltac:(lia));
         pose proof (F2R_pos (Zpos my) ey ltac:(lia)); exfalso; lra);
    try (pose proof (F2R_pos (Zpos mx) ex ltac:(lia)); exfalso; lra);
    try (pose proof (F2R_pos (Zpos my) ey ltac:(lia)); exfalso; lra).
  - unfold SFleb. rewrite SFcompare_negative.
    fold (SFleb (S754_finite false my ey) (S754_finite false mx ex)).
    apply SFleb_of_mag; try assumption; try exact I. cbn [SFmag]. lra.
  - apply SFleb_of_mag; try assumption; exact I.
Qed.

Lemma SFltb_of_val (x y : spec_float) :
  valid_binary x = true -> valid_binary y = true ->
  SFfinite x -> SFfinite y ->
  SFval x < SFval y -> SFltb x y = true.
Proof.
  intros Hvx Hvy Hfx Hfy Hlt.
  destruct x as [sx|sx| |[|] mx ex], y as [sy|sy| |[|] my ey];
    cbn [SFfinite] in *; try contradiction;
    rewrite ?SFval_zero in *; try lra;
    try (destruct sx; reflexivity); try (destruct sy; reflexivity);
    try reflexivity;
    unfold SFval in *; cbn [SFsign SFmag] in *;
    try (pose proof (F2R_pos (Zpos mx) ex ltac:(lia));
         pose proof (F2R_pos (Zpos my) ey ltac:(lia)); exfalso; lra);
    try (pose proof (F2R_pos (Zpos mx) ex ltac:(lia)); exfalso; lra);
    try (pose proof (F2R_pos (Zpos my) ey ltac:(lia)); exfalso; lra).
  - unfold SFltb. rewrite SFcompare_negative.
    fold (SFltb (S754_finite false my ey) (S754_finite false mx ex)).
    apply SFltb_of_mag; try assumption; try exact I. cbn [SFmag]. lra.
  - apply SFltb_of_mag; try assumption; exact I.
Qed.

Lemma leb_of_val (x y : float) :
  Double.is_finite x = true -> Double.is_finite y = true ->
  val x <= val y -> (x <=? y)%float = true.
Proof.
  intros Hx Hy H. apply is_finite_iff in Hx, Hy.
  rewrite FloatAxioms.leb_spec.
  apply SFleb_of_val; try apply Prim2SF_valid; assumption.
Qed.

Lemma ltb_of_val (x y : float) :
  Double.is_finite x = true -> Double.is_finite y = true ->
  val x < val y -> (x <? y)%float = true.
Proof.
  intros Hx Hy H. apply is_finite_iff in Hx, Hy.
  rewrite FloatAxioms.ltb_spec.
  apply SFltb_of_val; try apply Prim2SF_valid; assumption.
Qed.

(** A draw: its value is its magnitude, at most [1 - 2 ^ -53]. *)
Lemma draw_val (r : float) :
  (0 <=? r)%float = true -> (r <? 1)%float = true ->
  Double.is_finite r = true /\ 0 <= val r /\ val r <= F2R (2 ^ 53 - 1) (-53).
Proof.
  intros H0 H1. pose proof (leb_0_nonneg r H0 H1) as Hn.
  pose proof (below_one r H0 H1) as Hm.
  assert (Hv : val r = mag r).
  { unfold val, SFval, mag.
    destruct (Prim2SF r) as [s|s| |[|] m e]; cbn [SFnonneg] in Hn;
      try contradiction; cbn [SFsign SFmag]; try reflexivity.
    destruct s; lra. }
  rewrite Hv. split; [|split].
  - apply is_finite_iff. destruct (Prim2SF r) as [s|s| |[|] m e];
      cbn [SFnonneg] in Hn; try contradiction; exact I.
  - apply mag_nonneg.
  - unfold F2R. rewrite minus_IZR, <- (bpow_IZR 53) by lia.
    assert (bpow 53 * bpow (-53) = 1) by (rewrite <- bpow_add; reflexivity).
    lra.
Qed.

(** *** Below the middle of two neighbours *)

Lemma F2R_lt_inv (a b E : Z) : F2R a E < F2R b E -> (a < b)%Z.
Proof.
  unfold F2R. intros H. apply lt_IZR. pose proof (bpow_pos E). nra.
Qed.

(** An exact value in the binade below [2 ^ p] that is below the middle of
    a double and the next one is rounded to that double at most. *)
Lemma binary_round_aux_below_middle (s : bool) (M E hi p : Z) :
  (0 < M)%Z -> bpow (p - 1) <= F2R M E -> F2R M E < bpow p ->
  let g := Z.max (p - 53) (-1074) in
  2 * F2R M E < F2R (2 * hi + 1) g ->
  match binary_round_aux prec emax s M E loc_Exact with
  | S754_finite _ m e => F2R (Zpos m) e <= F2R hi g
  | _ => True
  end.
Proof.
  intros HM Hlow Hp g Hmid.
  pose proof (binary_round_aux_nearest s M E HM) as Hn.
  pose proof (F2R_digits_le M E HM) as Hd1.
  pose proof (F2R_lt_digits M E ltac:(lia)) as Hd2.
  assert (Hdig : (Zdigits2 M + E = p)%Z).
  { assert ((Zdigits2 M - 1 + E < p)%Z) by (apply bpow_lt_inv; lra).
    assert ((p - 1 < Zdigits2 M + E)%Z) by (apply bpow_lt_inv; lra).
    lia. }
  unfold slack in Hn. rewrite Hdig, fexp_eq in Hn. fold g in Hn.
  destruct (binary_round_aux prec emax s M E loc_Exact)
    as [s'|s'| |s' m e]; try exact I.
  destruct Hn as (_ & Hup & _ & q & Hq).
  destruct (Z_le_gt_dec (g - E) 0) as [Hk|Hk].
  - assert (Ek : (g - E <=? 0)%Z = true) by (apply Z.leb_le; assumption).
    rewrite Ek in Hup.
    assert (Hv : F2R M E = F2R (M * 2 ^ (E - g)) g).
    { rewrite <- F2R_shift by lia. f_equal. lia. }
    rewrite Hv in *.
    assert (Hlt : F2R (2 * (M * 2 ^ (E - g))) g < F2R (2 * hi + 1) g)
      by (rewrite F2R_double; lra).
    apply F2R_lt_inv in Hlt.
    apply Rle_trans with (F2R (M * 2 ^ (E - g)) g); [lra|].
    apply F2R_le. lia.
  - assert (Ek : (g - E <=? 0)%Z = false) by (apply Z.leb_gt; lia).
    rewrite Ek in Hup.
    rewrite Z.max_l in Hq by lia.
    replace (E + (g - E))%Z with g in * by lia.
    rewrite Hq in *. rewrite <- (F2R_one g) in Hup.
    assert (Hlt : F2R (2 * q) g < F2R (2 * hi + 1 + 1) g).
    { rewrite F2R_double, (F2R_add (2 * hi + 1) 1). lra. }
    apply F2R_lt_inv in Hlt. apply F2R_le. lia.
Qed.

(** A valid double in the binade below [2 ^ p] is on its grid. *)
Lemma valid_below_middle (m : positive) (e hi p : Z) :
  valid_binary (S754_finite false m e) = true ->
  bpow (p - 1) <= F2R (Zpos m) e -> F2R (Zpos m) e < bpow p ->
  let g := Z.max (p - 53) (-1074) in
  2 * F2R (Zpos m) e < F2R (2 * hi + 1) g ->
  F2R (Zpos m) e <= F2R hi g.
Proof.
  intros Hv Hlow Hp g Hmid.
  pose proof (valid_canonical _ _ _ Hv) as Hc.
  pose proof (F2R_digits_le (Zpos m) e ltac:(lia)) as Hd1.
  pose proof (F2R_lt_digits (Zpos m) e ltac:(lia)) as Hd2.
  assert (Hdig : (Zdigits2 (Zpos m) + e = p)%Z).
  { assert ((Zdigits2 (Zpos m) - 1 + e < p)%Z)
      by (apply bpow_lt_inv; lra).
    assert ((p - 1 < Zdigits2 (Zpos m) + e)%Z)
      by (apply bpow_lt_inv; lra).
    lia. }
  rewrite Hdig, fexp_eq in Hc. fold g in Hc. subst e.
  assert (Hlt : F2R (2 * Zpos m) g < F2R (2 * hi + 1) g)
    by (rewrite F2R_double; lra).
  apply F2R_lt_inv in Hlt. apply F2R_le. lia.
Qed.

(** The sum of two doubles that are not negative, when the exact sum is
    below the middle of a double and the next one. *)
Lemma add_below_middle (a b : float) (hi p : Z) :
  SFnonneg (Prim2SF a) -> SFnonneg (Prim2SF b) ->
  bpow (p - 1) <= mag a + mag b -> mag a + mag b < bpow p ->
  let g := Z.max (p - 53) (-1074) in
  2 * (mag a + mag b) < F2R (2 * hi + 1) g ->
  mag (a + b)%float <= F2R hi g.
Proof.
  intros Ha Hb Hlow Hp g Hmid.
  pose proof (Prim2SF_valid a) as Hva. pose proof (Prim2SF_valid b) as Hvb.
  unfold mag in *. rewrite add_spec.
  pose proof (bpow_pos (p - 1)) as Hpp.
  assert (Hh0 : 0 <= F2R hi g).
  { assert (Hlt : F2R 0 g < F2R (2 * hi + 1) g).
    { rewrite F2R_0. pose proof (SFmag_nonneg (Prim2SF a)).
      pose proof (SFmag_nonneg (Prim2SF b)). lra. }
    apply F2R_lt_inv in Hlt.
    assert (Hh : (0 <= hi)%Z) by lia.
    apply (F2R_le 0 hi g) in Hh. rewrite F2R_0 in Hh. exact Hh. }
  destruct (Prim2SF a) as [sa|sa| |[|] ma ea],
           (Prim2SF b) as [sb|sb| |[|] mb eb];
    cbn [SFnonneg SFmag] in *; try contradiction.
  - exfalso. lra.
  - cbn [SF64add SFadd SFmag]. rewrite Rplus_0_l in *.
    apply (valid_below_middle mb eb hi p); assumption.
  - cbn [SF64add SFadd SFmag]. rewrite Rplus_0_r in *.
    apply (valid_below_middle ma ea hi p); assumption.
  - destruct (SFadd_aligned ma mb ea eb) as (M & E & -> & Hv & HE).
    rewrite <- Hv in *.
    pose proof (binary_round_aux_below_middle false (Zpos M) E hi p
                  ltac:(lia) Hlow Hp Hmid) as Hw.
    fold g in Hw.
    destruct (binary_round_aux prec emax false (Zpos M) E loc_Exact)
      as [s'|s'| |s' m e]; cbn [SFmag]; assumption.
Qed.

End Signed.

(** ** Coasting to rest in binary64 *)

Section RestOverDoubles.

Local Open Scope R_scope.

Variables cos64 sin64 : float -> float.
#[local] Hint Extern 0 JSNumber => exact (binary64 cos64 sin64)
  : typeclass_instances.

Lemma finiteVector_spec (v : Vector3) :
  finiteVector cos64 sin64 v = true
  <-> Double.is_finite (vx v) = true /\ Double.is_finite (vy v) = true
      /\ Double.is_finite (vz v) = true.
Proof.
  unfold finiteVector. rewrite !andb_true_iff. tauto.
Qed.

(** A vector whose components are at most 1/64 in magnitude has a computed
    length that tests below 0.1. *)
Lemma length_small (v : Vector3) :
  finiteVector cos64 sin64 v = true -> within cos64 sin64 (/ 64) v ->
  (Vector3_length v <? 0.1)%float = true.
Proof.
  intros Hf (Hx & Hy & Hz). apply finiteVector_spec in Hf.
  destruct Hf as (Fx & Fy & Fz).
  destruct (square_bound _ Fx Hx) as [Nx Bx].
  destruct (square_bound _ Fy Hy) as [Ny By].
  destruct (square_bound _ Fz Hz) as [Nz Bz].
  destruct (add_bound _ _ _ _ Nx Ny Bx By ltac:(lra)) as [Nxy Bxy].
  assert (Bxy' : mag (vx v * vx v + vy v * vy v)%float <= / 1999) by lra.
  destruct (add_bound _ _ _ _ Nxy Nz Bxy' Bz ltac:(lra)) as [Ns Bs].
  assert (Bs' : mag (vx v * vx v + vy v * vy v + vz v * vz v)%float
                <= / 1000) by lra.
  destruct (sqrt_bound _ Ns Bs') as [Nr Br].
  change (Vector3_length v)
    with (PrimFloat.sqrt (vx v * vx v + vy v * vy v + vz v * vz v)%float).
  rewrite FloatAxioms.ltb_spec.
  apply SFltb_of_mag; try apply Prim2SF_valid; try assumption.
  - rewrite Prim2SF_01. exact I.
  - fold (mag (PrimFloat.sqrt (vx v * vx v + vy v * vy v + vz v * vz v))).
    rewrite Prim2SF_01. cbn [SFmag]. unfold F2R. rewrite bpow_m56. lra.
Qed.

(** One multiplication by 0.9 keeps the components finite and shrinks
    their bound. *)
Lemma multiplyScalar_09 (B : R) (v : Vector3) :
  finiteVector cos64 sin64 v = true -> within cos64 sin64 B v ->
  finiteVector cos64 sin64 (multiplyScalar v 0.9%float) = true
  /\ within cos64 sin64 (B * shrink + bpow (-1074))
       (multiplyScalar v 0.9%float).
Proof.
  intros Hf (Hx & Hy & Hz). apply finiteVector_spec in Hf.
  destruct Hf as (Fx & Fy & Fz).
  destruct (mul_09_bound _ Fx) as [Gx Bx].
  destruct (mul_09_bound _ Fy) as [Gy By].
  destruct (mul_09_bound _ Fz) as [Gz Bz].
  assert (0 < shrink) by (unfold shrink; lra).
  split.
  - apply finiteVector_spec. cbn [multiplyScalar vx vy vz]. auto.
  - unfold within. cbn [multiplyScalar vx vy vz].
    change (@nmul (binary64 cos64 sin64)) with PrimFloat.mul.
    repeat split; nra.
Qed.

Lemma zero_within (B : R) :
  0 <= B ->
  finiteVector cos64 sin64 (THREE_Vector3 0%float 0%float 0%float) = true
  /\ within cos64 sin64 B (THREE_Vector3 0%float 0%float 0%float).
Proof.
  intros HB. split; [reflexivity|].
  unfold within, mag. cbn [THREE_Vector3 vx vy vz].
  change (Prim2SF 0%float) with (S754_zero false). cbn [SFmag].
  auto.
Qed.

Lemma decay_within (B : R) (v : Vector3) :
  finiteVector cos64 sin64 v = true -> within cos64 sin64 B v ->
  finiteVector cos64 sin64 (decay v) = true
  /\ within cos64 sin64 (B * shrink + bpow (-1074)) (decay v).
Proof.
  intros Hf Hw.
  destruct (multiplyScalar_09 B v Hf Hw) as [Hf' Hw'].
  assert (HB : 0 <= B * shrink + bpow (-1074)).
  { destruct Hw' as (H & _). pose proof (mag_nonneg (vx (multiplyScalar v 0.9%float))).
    lra. }
  unfold decay.
  change (Vector3_length (multiplyScalar v (lit 0.9)) <? lit 0.1)%js
    with (Vector3_length (multiplyScalar v 0.9%float) <? 0.1)%float.
  destruct (Vector3_length (multiplyScalar v 0.9%float) <? 0.1)%float.
  - apply (zero_within _ HB).
  - split; assumption.
Qed.

(** Once the bound is small enough, the frame sets the zero vector. *)
Lemma decay_rests (B : R) (v : Vector3) :
  finiteVector cos64 sin64 v = true -> within cos64 sin64 B v ->
  B * shrink + bpow (-1074) <= / 64 ->
  decay v = THREE_Vector3 0%float 0%float 0%float.
Proof.
  intros Hf Hw HB.
  destruct (multiplyScalar_09 B v Hf Hw) as [Hf' (Hx & Hy & Hz)].
  apply decay_below_threshold. apply length_small; [assumption|].
  repeat split; lra.
Qed.

(** After [n] frames a bound [B] has become [B * shrink ^ n + dust]. *)
Lemma decay_iter_within (B : R) (v : Vector3) (n : nat) :
  finiteVector cos64 sin64 v = true -> within cos64 sin64 B v ->
  finiteVector cos64 sin64 (Nat.iter n decay v) = true
  /\ within cos64 sin64 (B * shrink ^ n + dust) (Nat.iter n decay v).
Proof.
  intros Hf Hw. pose proof (bpow_pos (-1074)) as Hd.
  induction n as [|n [IHf IHw]].
  - split; [exact Hf|]. simpl. destruct Hw as (Hx & Hy & Hz).
    unfold dust. repeat split; lra.
  - cbn [Nat.iter nat_rect].
    destruct (decay_within _ _ IHf IHw) as [Hf' (Hx & Hy & Hz)].
    split; [exact Hf'|].
    assert ((B * shrink ^ n + dust) * shrink + bpow (-1074)
            <= B * shrink ^ S n + dust).
    { simpl pow. unfold dust, shrink. nra. }
    repeat split; eapply Rle_trans; eassumption.
Qed.

Lemma shrink_pow_bound (n : nat) : shrink ^ n <= 10 / (10 + INR n).
Proof.
  induction n as [|n IH].
  - simpl. replace (10 + 0) with 10 by ring. lra.
  - rewrite S_INR. simpl pow.
    pose proof (pos_INR n) as Hn.
    assert (Hs : 0 <= shrink) by (unfold shrink; lra).
    apply Rle_trans with (shrink * (10 / (10 + INR n)));
      [apply Rmult_le_compat_l; assumption|].
    unfold Rdiv, shrink.
    assert (H1 : 0 < / (10 + INR n)) by (apply Rinv_0_lt_compat; lra).
    assert (H2 : 0 < / (10 + (INR n + 1))) by (apply Rinv_0_lt_compat; lra).
    assert (E1 : (10 + INR n) * / (10 + INR n) = 1) by (apply Rinv_r; lra).
    assert (E2 : (10 + (INR n + 1)) * / (10 + (INR n + 1)) = 1)
      by (apply Rinv_r; lra).
    nra.
Qed.

Lemma within_realLength (v : Vector3) :
  within cos64 sin64 (realLength cos64 sin64 v) v.
Proof.
  unfold within, realLength.
  pose proof (mag_nonneg (vx v)) as Hx.
  pose proof (mag_nonneg (vy v)) as Hy.
  pose proof (mag_nonneg (vz v)) as Hz.
  repeat split.
  - rewrite <- (sqrt_square (mag (vx v))) at 1 by assumption.
    apply sqrt_le_1_alt. nra.
  - rewrite <- (sqrt_square (mag (vy v))) at 1 by assumption.
    apply sqrt_le_1_alt. nra.
  - rewrite <- (sqrt_square (mag (vz v))) at 1 by assumption.
    apply sqrt_le_1_alt. nra.
Qed.

Lemma realLength_nonneg (v : Vector3) : 0 <= realLength cos64 sin64 v.
Proof. apply sqrt_pos. Qed.

(** From [restFrames] of its length on, a finite vector has decayed to the
    zero vector. *)
Lemma decay_iter_rests (v : Vector3) (n : nat) :
  finiteVector cos64 sin64 v = true ->
  (restFrames (realLength cos64 sin64 v) <= n)%nat ->
  Nat.iter n decay v = THREE_Vector3 0%float 0%float 0%float.
Proof.
  intros Hf Hn. unfold restFrames in Hn.
  set (L := realLength cos64 sin64 v) in *.
  assert (HL : 0 <= L) by apply realLength_nonneg.
  destruct (archimed (640 * L)) as [Hup _].
  assert (Hpos : (0 < up (640 * L))%Z) by (apply lt_IZR; lra).
  assert (Hb : IZR (up (640 * L)) <= INR n).
  { rewrite <- (Z2Nat.id (up (640 * L))) by lia.
    rewrite <- INR_IZR_INZ. apply le_INR. exact Hn. }
  destruct n as [|n]; [simpl in Hb; lra|].
  rewrite S_INR in Hb. cbn [Nat.iter nat_rect].
  destruct (decay_iter_within L v n Hf (within_realLength v)) as [Hf' Hw'].
  apply (decay_rests _ _ Hf' Hw').
  pose proof (shrink_pow_bound n) as Hp.
  pose proof (pos_INR n) as Hn0.
  pose proof bpow_m1074_le as Hd. pose proof (bpow_pos (-1074)) as Hd0.
  rewrite bpow_m52 in Hd.
  assert (H1 : 0 < / (10 + INR n)) by (apply Rinv_0_lt_compat; lra).
  assert (E1 : (10 + INR n) * / (10 + INR n) = 1) by (apply Rinv_r; lra).
  assert (Hq : L * shrink ^ n <= / 64).
  { apply Rle_trans with (L * (10 / (10 + INR n)));
      [apply Rmult_le_compat_l; assumption|].
    unfold Rdiv.
    assert (H2 : 0 <= (10 + INR n - 640 * L) * / (10 + INR n))
      by (apply Rmult_le_pos; lra).
    nra. }
  assert (0 <= L * shrink ^ n).
  { apply Rmult_le_pos; [assumption|]. apply pow_le. unfold shrink. lra. }
  unfold dust, shrink in *. nra.
Qed.

(** C8.  In binary64, with no movement key held, every velocity of finite
    components is exactly the zero vector after [restFrames] of the initial
    length frames, and in every later frame, whatever the camera does: a
    number of frames that depends on the initial magnitude only. *)
Theorem velocity_reaches_zero (camera : nat -> Vector3 * Vector3)
    (f : Frame) :
  noMovementKey (controls f) = true ->
  finiteVector cos64 sin64 (velocity (controls f)) = true ->
  forall n,
    (restFrames (realLength cos64 sin64 (velocity (controls f))) <= n)%nat ->
    velocity (controls (frames camera n f))
    = THREE_Vector3 0%float 0%float 0%float.
Proof.
  intros Hk Hf n Hn. rewrite (coasting_binary64 cos64 sin64 camera f n Hk).
  apply decay_iter_rests; assumption.
Qed.

(** The components have to be finite: an infinite one never decays. *)
Lemma infinite_velocity_stays (n : nat) :
  Nat.iter n decay (THREE_Vector3 infinity 0%float 0%float)
  = THREE_Vector3 infinity 0%float 0%float.
Proof.
  induction n as [|n IH]; [reflexivity|].
  change (decay (Nat.iter n decay (THREE_Vector3 infinity 0%float 0%float))
          = THREE_Vector3 infinity 0%float 0%float).
  rewrite IH. reflexivity.
Qed.

End RestOverDoubles.

(** *** The sample frame *)

Section RestExample.

Local Open Scope R_scope.

Lemma bpow_m51 : bpow (-51) = / 2251799813685248.
Proof.
  change (bpow (-51)) with (bpow (Z.opp 51)).
  rewrite (bpow_opp 51), (bpow_IZR 51) by lia. reflexivity.
Qed.

Lemma bpow_m50 : bpow (-50) = / 1125899906842624.
Proof.
  change (bpow (-50)) with (bpow (Z.opp 50)).
  rewrite (bpow_opp 50), (bpow_IZR 50) by lia. reflexivity.
Qed.

Lemma coasting64_speed :
  realLength (fun _ => 1%float) (fun _ => 0%float)
    (velocity (controls Sample.coasting64)) = 5.
Proof.
  unfold realLength, mag.
  change (Prim2SF (vx (velocity (controls Sample.coasting64))))
    with (S754_finite false 6755399441055744 (-51)).
  change (Prim2SF (vy (velocity (controls Sample.coasting64))))
    with (S754_finite false 4503599627370496 (-50)).
  change (Prim2SF (vz (velocity (controls Sample.coasting64))))
    with (S754_zero false).
  cbn [SFmag]. unfold F2R. rewrite bpow_m51, bpow_m50.
  replace (_ + _) with (5 * 5) by lra.
  apply sqrt_square. lra.
Qed.

(** The sample frame coasts at speed 5: it is at rest at frame 3201. *)
Lemma velocity_reaches_zero_witness :
  noMovementKey (controls Sample.coasting64) = true
  /\ finiteVector (fun _ => 1%float) (fun _ => 0%float)
       (velocity (controls Sample.coasting64)) = true
  /\ (restFrames (realLength (fun _ => 1%float) (fun _ => 0%float)
                    (velocity (controls Sample.coasting64))) <= 3201)%nat
  /\ velocity (controls (frames Sample.camera64 3201 Sample.coasting64))
     = @THREE_Vector3 Sample.engine 0%float 0%float 0%float.
Proof.
  assert (H : (restFrames (realLength (fun _ => 1%float) (fun _ => 0%float)
                  (velocity (controls Sample.coasting64))) <= 3201)%nat).
  { replace (realLength _ _ _) with 5
      by (symmetry; exact coasting64_speed).
    unfold restFrames.
    rewrite <- (tech_up (640 * 5) 3201) by lra. apply Nat.le_refl. }
  split; [reflexivity|]. split; [reflexivity|]. split; [exact H|].
  apply (velocity_reaches_zero (fun _ => 1%float) (fun _ => 0%float)).
  - reflexivity.
  - reflexivity.
  - exact H.
Defined.


End RestExample.

(** *** Evaluations over binary64 *)

Section DoubleExamples.

#[local] Existing Instance Sample.engine.

Lemma loadStarData_falls_back_witness :
  exists generated,
    loadStarData Sample.parse Sample.bareWindow (Sample.world 0.5)
    = (inr (famousStars ++ generated),
       with_ui (advance (5 * 2000) (Sample.world 0.5)) 2010 false "")
    /\ fst (randomStars 2000 0 (started (Sample.world 0.5))) = inr generated
    /\ length famousStars = 10%nat
    /\ length generated = 2000%nat
    /\ length (famousStars ++ generated) = 2010%nat.
Proof.
  apply (loadStarData_falls_back Sample.parse Sample.bareWindow).
  left. eexists. apply NoFileSystem. reflexivity.
Defined.

(** C5.  A draw of 0 for the B-V index of a generated entry, which
    [Math.random] may return, gives the index -0.6, below the -0.3 that the
    comment of the generator and the specification state as the lower end
    of the range. *)
Theorem generated_bv_below_stated_range :
  fst (randomStar 0 (Sample.world 0))
  = inr {| star_id := Some (IdNumber 10%float);
           star_name := Some "Star-0"%string;
           star_ra := Some 0%float;
           star_dec := Some (-90)%float;
           star_mag := Some (-1)%float;
           star_bv := Some (-0.6)%float;
           star_distance := None;
           star_x := None; star_y := None; star_z := None;
           star_spectralClass := Some "O"%string |}
  /\ bvOfEntry 10 (fst (generateSampleStarData (Sample.world 0)))
     = Some (-0.6)%float
  /\ (-0.6 <? -0.3)%float = true.
Proof.
  split; [reflexivity|]. split; [|reflexivity].
  vm_compute. reflexivity.
Qed.


(** C9 as stated fails: a file that holds the empty array is accepted, and
    the catalog is empty. *)
Lemma empty_array_gives_empty_catalog :
  loadStarData Sample.parse (Sample.fileWindow "[]") (Sample.world 0.5)
  = (inr [], with_ui (Sample.world 0.5) 0 false "").
Proof. reflexivity. Qed.

Lemma targets_stay_clamped_witness :
  let c :=
    handleAll
      ([MouseDown 100 100; MouseMove true 130 4000]
       ++ repeat (Wheel 3) 40)%float
      initialControls in
  (targetZoom c = 2000%float /\ targetRotationX c = (Double.PI / 2)%float)
  /\ (10 <=? targetZoom c)%float = true
  /\ (targetZoom c <=? 2000)%float = true
  /\ (- Double.PI / 2 <=? targetRotationX c)%float = true
  /\ (targetRotationX c <=? Double.PI / 2)%float = true.
Proof.
  split.
  - split; reflexivity.
  - apply (targets_stay_clamped (fun _ => 1%float) (fun _ => 0%float)).
    reflexivity.
Defined.

(** In binary64 the sample frame, which coasts at speed 5, is at rest from
    frame 38 on; an infinite component never decays. *)
Lemma coasting64_rests :
  (0.1 <=? Vector3_length
             (velocity (controls (frames Sample.camera64 37
                                         Sample.coasting64))))%float = true
  /\ components (velocity (controls (frames Sample.camera64 38
                                           Sample.coasting64)))
     = (0, 0, 0)%float
  /\ components (Nat.iter 1000 decay (THREE_Vector3 infinity 0 0)%float)
     = (infinity, 0, 0)%float.
Proof. vm_compute. repeat split. Qed.

End DoubleExamples.

(** ** Properties over the reals *)

Section OverReals.

#[local] Hint Extern 0 JSNumber => exact exact : typeclass_instances.
Local Open Scope R_scope.

Lemma Q2R_zero : Q2R 0 = 0.
Proof. unfold Q2R; simpl; lra. Qed.

Ltac reals :=
  change (@number exact) with R in *;
  change (@nadd exact) with Rplus in *;
  change (@nsub exact) with Rminus in *;
  change (@nmul exact) with Rmult in *;
  change (@ndiv exact) with Rdiv in *;
  change (@nneg exact) with Ropp in *;
  change (@Math_sqrt exact) with sqrt in *;
  change (@Math_cos exact) with cos in *;
  change (@Math_sin exact) with sin in *;
  change (@Math_PI exact) with PI in *;
  change (@nlt exact) with Exact.lt in *;
  change (@lit exact) with Q2R in *.

Lemma lit_01 : lit 0.1 = 0.1.
Proof. simpl. unfold Q2R; simpl; lra. Qed.

Lemma lit_09 : lit 0.9 = 0.9.
Proof. simpl. unfold Q2R; simpl; lra. Qed.

Lemma Vector3_zero_exact : Vector3_zero = THREE_Vector3 0 0 0.
Proof. unfold Vector3_zero. simpl. now rewrite !Q2R_zero. Qed.

Lemma lt_true (a b : R) : Exact.lt a b = true <-> a < b.
Proof. unfold Exact.lt. destruct (Rlt_dec a b); split; intros; auto; try discriminate; try contradiction. Qed.

Lemma lt_false (a b : R) : Exact.lt a b = false <-> b <= a.
Proof. unfold Exact.lt. destruct (Rlt_dec a b); split; intros; auto; try discriminate; lra. Qed.

Lemma length_nonneg (v : Vector3) : 0 <= Vector3_length v.
Proof. apply sqrt_pos. Qed.

Lemma length_scaled (v : Vector3) (k : R) :
  0 <= k ->
  Vector3_length (multiplyScalar v k) = k * Vector3_length v.
Proof.
  intros Hk. unfold Vector3_length, multiplyScalar. simpl.
  replace (vx v * k * (vx v * k) + vy v * k * (vy v * k)
           + vz v * k * (vz v * k))
    with (k * k * (vx v * vx v + vy v * vy v + vz v * vz v)) by ring.
  rewrite sqrt_mult_alt by nra.
  now rewrite sqrt_square.
Qed.

Lemma zero_is_still_exact :
  (Vector3_length (THREE_Vector3 (lit 0) (lit 0) (lit 0)) >? lit 0)%js = false.
Proof.
  apply lt_false. unfold Vector3_length. simpl. rewrite Q2R_zero.
  replace (0 * 0 + 0 * 0 + 0 * 0) with 0 by ring. rewrite sqrt_0. lra.
Qed.

Lemma decay_zero : decay Vector3_zero = Vector3_zero.
Proof.
  unfold decay.
  replace (Vector3_length (multiplyScalar Vector3_zero (lit 0.9)) <? lit 0.1)%js
    with true; [reflexivity|].
  symmetry. apply lt_true. rewrite length_scaled.
  - unfold Vector3_length, Vector3_zero. simpl. rewrite Q2R_zero.
    replace (0 * 0 + 0 * 0 + 0 * 0) with 0 by ring. rewrite sqrt_0.
    unfold Q2R; simpl; lra.
  - simpl. unfold Q2R; simpl; lra.
Qed.

Lemma multiplyScalar_decay (v : Vector3) (k : R) :
  multiplyScalar (multiplyScalar v k) (lit 0.9) = multiplyScalar v (0.9 * k).
Proof.
  unfold multiplyScalar. rewrite lit_09. simpl.
  f_equal; ring.
Qed.

(** After [n] frames of decay the velocity is zero or the initial one scaled
    by [0.9 ^ n]. *)
Lemma decay_iter_cases (v : Vector3) (n : nat) :
  Nat.iter n decay v = Vector3_zero
  \/ Nat.iter n decay v = multiplyScalar v (0.9 ^ n).
Proof.
  induction n as [|n [IH|IH]]; simpl.
  - right. destruct v as [x y z]. unfold multiplyScalar. simpl.
    change (@number exact) with R in *. f_equal; ring.
  - left. rewrite IH. apply decay_zero.
  - rewrite IH. unfold decay. rewrite multiplyScalar_decay.
    destruct (_ <? _)%js; auto.
Qed.

Lemma decay_iter_zero (v : Vector3) (n : nat) :
  0.9 ^ S n * Vector3_length v < 0.1 ->
  Nat.iter (S n) decay v = Vector3_zero.
Proof.
  intros Hlt. simpl Nat.iter.
  destruct (decay_iter_cases v n) as [IH|IH]; rewrite IH.
  - apply decay_zero.
  - unfold decay. rewrite multiplyScalar_decay.
    destruct (_ <? _)%js eqn:E; [reflexivity|exfalso].
    apply lt_false in E. rewrite length_scaled in E.
    + rewrite lit_01 in E. change (0.9 ^ S n) with (0.9 * 0.9 ^ n) in Hlt.
      reals. lra.
    + assert (0 <= 0.9 ^ n) by (apply pow_le; lra). reals. nra.
Qed.

Lemma pow_decay_bound (n : nat) : 0.9 ^ n <= 9 / (9 + INR n).
Proof.
  induction n as [|n IH].
  - simpl. replace (9 + 0) with 9 by ring. lra.
  - rewrite S_INR. simpl pow.
    pose proof (pos_INR n) as Hn.
    apply Rle_trans with (0.9 * (9 / (9 + INR n))); [lra|].
    unfold Rdiv.
    assert (H1 : 0 < / (9 + INR n)) by (apply Rinv_0_lt_compat; lra).
    assert (H2 : 0 < / (9 + (INR n + 1))) by (apply Rinv_0_lt_compat; lra).
    assert (E1 : (9 + INR n) * / (9 + INR n) = 1) by (apply Rinv_r; lra).
    assert (E2 : (9 + (INR n + 1)) * / (9 + (INR n + 1)) = 1)
      by (apply Rinv_r; lra).
    nra.
Qed.

(** In real arithmetic, with no movement key held, every velocity is exactly
    the zero vector after [decayFrames] of the initial speed frames, and in
    every later frame, whatever the camera does. *)
Lemma exact_velocity_rests
    (camera : nat -> Vector3 * Vector3) (f : Frame) :
  noMovementKey (controls f) = true ->
  forall n,
    (decayFrames (Vector3_length (velocity (controls f))) <= n)%nat ->
    velocity (controls (frames camera n f)) = THREE_Vector3 0 0 0.
Proof.
  intros Hk n Hn. unfold decayFrames in Hn.
  destruct (frames_decay zero_is_still_exact camera f n Hk) as [-> _].
  rewrite <- Vector3_zero_exact.
  set (L := Vector3_length (velocity (controls f))) in *.
  assert (HL : 0 <= L) by apply length_nonneg.
  destruct (archimed (90 * L)) as [Hup _].
  assert (Hpos : (0 < up (90 * L))%Z).
  { apply lt_IZR. lra. }
  assert (Hb : IZR (up (90 * L)) <= INR n).
  { rewrite <- (Z2Nat.id (up (90 * L))) by lia.
    rewrite <- INR_IZR_INZ. apply le_INR. exact Hn. }
  destruct n as [|n].
  - simpl in Hb. lra.
  - apply decay_iter_zero.
    pose proof (pow_decay_bound (S n)) as Hp.
    pose proof (pos_INR (S n)) as Hn0.
    assert (H1 : 0 < / (9 + INR (S n))) by (apply Rinv_0_lt_compat; lra).
    assert (E1 : (9 + INR (S n)) * / (9 + INR (S n)) = 1)
      by (apply Rinv_r; lra).
    unfold Rdiv in Hp. fold L. reals.
    apply Rle_lt_trans with (9 * / (9 + INR (S n)) * L).
    + apply Rmult_le_compat_r; assumption.
    + assert (H2 : 0 < (9 + INR (S n) - 90 * L) * / (9 + INR (S n)))
        by (apply Rmult_lt_0_compat; lra).
      nra.
Qed.

(** *** What the generator draws *)

Lemma Int_part_IZR (z : Z) : Int_part (IZR z) = z.
Proof.
  unfold Int_part. rewrite <- (tech_up (IZR z) (z + 1)).
  - lia.
  - rewrite plus_IZR. lra.
  - rewrite plus_IZR. lra.
Qed.

Lemma Int_part_bounds (x : R) (n : Z) :
  0 <= x < IZR n -> (0 <= Int_part x < n)%Z.
Proof.
  intros [H0 Hn]. destruct (base_Int_part x) as [Hle Hgt].
  split.
  - assert (H : -1 < IZR (Int_part x)) by lra.
    apply (lt_IZR (-1)) in H. lia.
  - apply lt_IZR. lra.
Qed.

Lemma spectral_letter (r : R) :
  0 <= r < 1 ->
  exists cls,
    element_at spectralLetters (Math_floor (r * lit 7)%js) = Some cls
    /\ In cls spectralLetters.
Proof.
  intros Hr. unfold element_at. simpl ToIndex. simpl Math_floor.
  unfold Exact.to_index, Exact.floor.
  set (z := Int_part _).
  assert (Hz : (0 <= z < 7)%Z).
  { apply Int_part_bounds. reals. unfold Q2R. simpl. lra. }
  clearbody z.
  rewrite Int_part_IZR.
  destruct (Rle_dec 0 (IZR z)) as [_|Hneg];
    [|exfalso; apply Hneg; apply IZR_le; lia].
  destruct (Req_dec_T (IZR z) (IZR z)) as [_|Hne]; [|congruence].
  assert (Hcases : z = 0%Z \/ z = 1%Z \/ z = 2%Z \/ z = 3%Z \/ z = 4%Z
                   \/ z = 5%Z \/ z = 6%Z) by lia.
  destruct Hcases as [-> |[-> |[-> |[-> |[-> |[-> | ->]]]]]];
    eexists; (split; [reflexivity|simpl; tauto]).
Qed.

(** What the generator really draws: right ascension in [0, 24),
    declination in [-90, 90), magnitude in [-1, 7), B-V index in
    [-0.6, 1.4) and one of the seven letters. *)
Lemma randomStar_ranges (i : nat) (w : World) :
  (forall k, (k < 5)%nat ->
             0 <= draws (rng w) (k + taken (rng w)) < 1) ->
  exists star ra dec mag bv cls,
    randomStar i w = (inr star, advance 5 w)
    /\ star_ra star = Some ra /\ 0 <= ra < 24
    /\ star_dec star = Some dec /\ -90 <= dec < 90
    /\ star_mag star = Some mag /\ -1 <= mag < 7
    /\ star_bv star = Some bv /\ -0.6 <= bv < 1.4
    /\ star_spectralClass star = Some cls /\ In cls spectralLetters.
Proof.
  intros Hd.
  pose proof (Hd 0%nat ltac:(lia)) as H0.
  pose proof (Hd 1%nat ltac:(lia)) as H1.
  pose proof (Hd 2%nat ltac:(lia)) as H2.
  pose proof (Hd 3%nat ltac:(lia)) as H3.
  pose proof (Hd 4%nat ltac:(lia)) as H4.
  simpl plus in *.
  destruct (spectral_letter _ H4) as (cls & Hcls & Hin).
  eexists. do 4 eexists. exists cls.
  split; [reflexivity|]. simpl.
  repeat split; try reflexivity; try exact Hcls; try exact Hin;
    reals; unfold Q2R; simpl; lra.
Qed.

End OverReals.

(** *** An evaluation over the reals *)

Lemma coasting_speed :
  @Vector3_length exact (velocity (controls Sample.coasting)) = 5%R.
Proof.
  unfold Vector3_length. simpl.
  replace (3 * 3 + 4 * 4 + 0 * 0)%R with (5 * 5)%R by ring.
  apply sqrt_square. lra.
Qed.

Lemma exact_coasting_rests :
  noMovementKey (controls Sample.coasting) = true
  /\ velocity (controls (frames Sample.camera 451 Sample.coasting))
     = @THREE_Vector3 exact 0%R 0%R 0%R.
Proof.
  split; [reflexivity|].
  apply (exact_velocity_rests Sample.camera Sample.coasting);
    [reflexivity|].
  unfold decayFrames. rewrite coasting_speed.
  rewrite <- (tech_up (90 * 5) 451) by lra.
  apply Nat.le_refl.
Qed.

(** ** More of the component, for any numbers *)

Section ComponentAnyNumbers.

Context {N : JSNumber}.

(** *** The generator, entry by entry *)

Lemma advance_advance (a b : nat) (w : World) :
  advance a (advance b w) = advance (a + b) w.
Proof. unfold advance. simpl. do 2 f_equal. lia. Qed.

Lemma advance_0 (w : World) : advance 0 w = w.
Proof. destruct w as [[d t] u]. reflexivity. Qed.

Lemma randomStars_nth (count : nat) :
  forall from w k,
    (k < count)%nat ->
    exists star,
      nth_error (match fst (randomStars count from w) with
                 | inr stars => stars
                 | inl _ => []
                 end) k = Some star
      /\ randomStar (from + k) (advance (5 * k) w)
         = (inr star, advance (5 * k + 5) w).
Proof.
  induction count as [|count IH]; intros from w k Hk; [lia|].
  destruct (randomStar_returns from w) as [star Hs].
  destruct (randomStars_returns count (S from) (advance 5 w))
    as (stars & Hr & Hl).
  assert (E : fst (randomStars (S count) from w) = inr (star :: stars)).
  { simpl randomStars. unfold bind at 1. rewrite Hs.
    unfold bind at 1. rewrite Hr. reflexivity. }
  rewrite E. destruct k as [|k].
  - exists star. split; [reflexivity|].
    rewrite Nat.add_0_r. change (5 * 0)%nat with 0%nat.
    rewrite advance_0. exact Hs.
  - destruct (IH (S from) (advance 5 w) k ltac:(lia)) as (s & Hn & Hk').
    rewrite Hr in Hn. simpl fst in Hn.
    exists s. split; [exact Hn|].
    rewrite advance_advance in Hk'. rewrite advance_advance in Hk'.
    replace (from + S k)%nat with (S from + k)%nat by lia.
    replace (5 * S k)%nat with (5 * k + 5)%nat by lia.
    replace (5 * S k + 5)%nat with (5 * k + 5 + 5)%nat by lia.
    exact Hk'.
Qed.

Lemma generateSampleStarData_nth (w : World) :
  exists catalog,
    generateSampleStarData w = (inr catalog, advance (5 * 2000) w)
    /\ length catalog = 2010%nat
    /\ firstn 10 catalog = famousStars
    /\ forall k, (k < 2000)%nat ->
         exists star,
           nth_error catalog (10 + k) = Some star
           /\ randomStar k (advance (5 * k) w)
              = (inr star, advance (5 * k + 5) w).
Proof.
  destruct (generateSampleStarData_returns w) as (generated & Hg & Hr & Hl).
  exists (famousStars ++ generated).
  split; [exact Hg|]. split; [rewrite length_app, Hl; reflexivity|].
  split; [reflexivity|].
  intros k Hk.
  destruct (randomStars_nth 2000 0 w k Hk) as (star & Hn & Hs).
  rewrite Hr in Hn. exists star.
  split; [|exact Hs].
  change (10 + k)%nat with (length famousStars + k)%nat.
  rewrite nth_error_app2 by lia.
  replace (length famousStars + k - length famousStars)%nat with k by lia.
  exact Hn.
Qed.

(** X1.  [generateSampleStarData] never throws and takes 10000 draws.  Its
    result has 2010 entries: the ten hardcoded stars first, in their order
    and without an [id], then for every [k] below 2000, at index [10 + k],
    the record built from draws [5 k] to [5 k + 4], whose name is
    [Star-k] and whose [id] is [k + 10]. *)
Theorem generateSampleStarData_entries (w : World) :
  exists catalog,
    generateSampleStarData w = (inr catalog, advance (5 * 2000) w)
    /\ length catalog = 2010%nat
    /\ firstn 10 catalog = famousStars
    /\ Forall (fun star => star_id star = None) famousStars
    /\ forall k, (k < 2000)%nat ->
         exists star,
           nth_error catalog (10 + k) = Some star
           /\ randomStar k (advance (5 * k) w)
              = (inr star, advance (5 * k + 5) w)
           /\ star_name star = Some ("Star-" ++ nat_toString k)%string
           /\ star_id star
              = Some (IdNumber (nadd (of_nat k) (of_nat 10))).
Proof.
  destruct (generateSampleStarData_nth w) as (catalog & Hg & Hl & Hf & He).
  exists catalog. split; [exact Hg|]. split; [exact Hl|].
  split; [exact Hf|]. split; [repeat constructor|].
  intros k Hk. destruct (He k Hk) as (star & Hn & Hs).
  exists star. split; [exact Hn|]. split; [exact Hs|].
  unfold randomStar, bind, Math_random, ret in Hs. simpl in Hs.
  injection Hs as Hs. subst star. split; reflexivity.
Qed.

(** *** The loader's cells and draws *)

(** X2.  [loadStarData] never reports an error: after every call the error
    cell is empty and the loading flag is down, whatever they held before.
    It takes draws only on the fallback path, 10000 of them, and none when
    the file holds an accepted shape. *)
Theorem loadStarData_error_stays_empty (JSON_parse : string -> Exn + JSValue)
    (window : Window) (w : World) :
  let w' := snd (loadStarData JSON_parse window w) in
  error (ui w') = ""%string
  /\ loading (ui w') = false
  /\ draws (rng w') = draws (rng w)
  /\ ((exists v records,
         FileOutcome JSON_parse window (inr v)
         /\ acceptedShape v = Some records)
      /\ taken (rng w') = taken (rng w)
      \/ CatalogUnavailable JSON_parse window
         /\ taken (rng w') = (5 * 2000 + taken (rng w))%nat).
Proof.
  destruct (FileOutcome_total JSON_parse window) as [[e|v] Hr].
  - assert (Hu : CatalogUnavailable JSON_parse window) by (left; eauto).
    destruct (loadStarData_unavailable JSON_parse window w Hu)
      as (generated & -> & _).
    cbn zeta. repeat split. right. split; [exact Hu|reflexivity].
  - destruct (acceptedShape v) as [records|] eqn:Hs.
    + rewrite (loadStarData_accepted JSON_parse window v records w Hr Hs).
      cbn zeta. repeat split. left. split; [eauto|reflexivity].
    + assert (Hu : CatalogUnavailable JSON_parse window)
        by (right; eauto).
      destruct (loadStarData_unavailable JSON_parse window w Hu)
        as (generated & -> & _).
      cbn zeta. repeat split. right. split; [exact Hu|reflexivity].
Qed.

(** X3.  Of an object that holds both, the [stars] array is loaded and not
    the [catalog] one; [catalog] is loaded when [stars] is missing or is not
    an array; with neither array the fallback catalog is returned. *)
Theorem loadStarData_prefers_stars (JSON_parse : string -> Exn + JSValue)
    (window : Window) (props : list (string * JSValue)) (w : World) :
  FileOutcome JSON_parse window (inr (JObject props)) ->
  (forall stars,
     lookup "stars" props = Some (JArray stars) ->
     loadStarData JSON_parse window w
     = (inr stars, with_ui w (length stars) false ""))
  /\ (forall catalog,
        Array_isArray (lookup "stars" props) = false ->
        lookup "catalog" props = Some (JArray catalog) ->
        loadStarData JSON_parse window w
        = (inr catalog, with_ui w (length catalog) false ""))
  /\ (Array_isArray (lookup "stars" props) = false ->
      Array_isArray (lookup "catalog" props) = false ->
      exists generated,
        loadStarData JSON_parse window w
        = (inr (famousStars ++ generated),
           with_ui (advance (5 * 2000) w) 2010 false "")).
Proof.
  intros Hr. repeat split.
  - intros stars Hs.
    apply (loadStarData_accepted JSON_parse window _ stars w Hr).
    simpl. rewrite Hs. reflexivity.
  - intros catalog Hs Hc.
    apply (loadStarData_accepted JSON_parse window _ catalog w Hr).
    simpl. rewrite Hc.
    destruct (lookup "stars" props) as [[ | | | | |]|]; try reflexivity.
    discriminate Hs.
  - intros Hs Hc.
    assert (Hu : CatalogUnavailable JSON_parse window).
    { right. exists (JObject props). split; [exact Hr|]. simpl.
      destruct (lookup "stars" props) as [[ | | | | |]|];
        try discriminate Hs;
        destruct (lookup "catalog" props) as [[ | | | | |]|];
        try discriminate Hc; reflexivity. }
    destruct (loadStarData_unavailable JSON_parse window w Hu)
      as (generated & Hg & _).
    exists generated. exact Hg.
Qed.

(** *** One mesh for every record *)

Lemma starPosition_returns (star : StarData) (w : World) :
  exists pos,
    starPosition star w = (inr pos, advance (positionDraws star) w).
Proof.
  unfold starPosition, positionDraws, hasCartesian, starDistance.
  destruct w as [[d t] u].
  destruct (star_x star), (star_y star), (star_z star),
    (star_ra star), (star_dec star), (star_distance star) as [dist|];
    try destruct (ToBoolean dist); eexists; reflexivity.
Qed.

Lemma getStarColor_returns (star : StarData) (w : World) :
  exists col,
    getStarColor (star_bv star) (star_spectralClass star) w
    = (inr col, advance (colourDraws star) w).
Proof.
  unfold getStarColor, colourDraws. destruct w as [[d t] u].
  destruct (star_bv star), (star_spectralClass star) as [s|];
    try destruct (string_truthy s); eexists; reflexivity.
Qed.

Lemma createStar_returns (star : StarData) (index : nat) (w : World) :
  exists mesh,
    createStar star index w = (inr mesh, advance (starDraws star) w)
    /\ userData mesh = (star, index)
    /\ size mesh = magnitudeToSize (star_mag star)
    /\ opacity mesh
       = Math_max (lit 0.3) (nsub (lit 1.0) (nmul (magOrZero star) (lit 0.1)))
    /\ fst (starPosition star w) = inr (position mesh).
Proof.
  destruct (starPosition_returns star w) as [pos Hp].
  destruct (getStarColor_returns star (advance (positionDraws star) w))
    as [col Hc].
  eexists. unfold createStar. unfold bind at 1. rewrite Hp.
  unfold bind at 1. rewrite Hc. unfold ret, starDraws.
  rewrite advance_advance, (Nat.add_comm (colourDraws star)).
  repeat split.
Qed.

Lemma createStars_returns (starData : list StarData) :
  forall (index : nat) (w : World),
  exists meshes,
    createStars starData index w
    = (inr meshes, advance (list_sum (map starDraws starData)) w)
    /\ length meshes = length starData.
Proof.
  induction starData as [|star rest IH]; intros index w.
  - exists []. split; [simpl; rewrite advance_0; reflexivity|reflexivity].
  - destruct (createStar_returns star index w) as (mesh & Hm & _).
    destruct (IH (S index) (advance (starDraws star) w))
      as (meshes & Hr & Hl).
    exists (mesh :: meshes). split.
    + simpl createStars. unfold bind at 1. rewrite Hm.
      unfold bind at 1. rewrite Hr. unfold ret.
      rewrite advance_advance. simpl map. simpl list_sum.
      rewrite (Nat.add_comm (list_sum _)). reflexivity.
    + simpl. congruence.
Qed.

(** One mesh for every record, in the order of the catalog: mesh [k] keeps
    record [k] and the index [k] as its user data and has the size of the
    record's magnitude; the draws taken are those of the records. *)
Lemma createStars_one_mesh_per_record (starData : list StarData) :
  forall (index : nat) (w : World),
  exists meshes,
    createStars starData index w
    = (inr meshes, advance (list_sum (map starDraws starData)) w)
    /\ length meshes = length starData
    /\ forall k star,
         nth_error starData k = Some star ->
         exists mesh,
           nth_error meshes k = Some mesh
           /\ userData mesh = (star, index + k)%nat
           /\ size mesh = magnitudeToSize (star_mag star)
           /\ fst (starPosition star
                     (advance (list_sum (map starDraws (firstn k starData)))
                              w))
              = inr (position mesh).
Proof.
  induction starData as [|star rest IH]; intros index w.
  - exists []. split; [simpl; rewrite advance_0; reflexivity|].
    split; [reflexivity|]. intros [|k] s H; discriminate H.
  - destruct (createStar_returns star index w)
      as (mesh & Hm & Hu & Hs & _ & Hp).
    destruct (IH (S index) (advance (starDraws star) w))
      as (meshes & Hr & Hl & Hk).
    exists (mesh :: meshes). split; [|split].
    + simpl createStars. unfold bind at 1. rewrite Hm.
      unfold bind at 1. rewrite Hr. unfold ret.
      rewrite advance_advance. simpl map. simpl list_sum.
      rewrite (Nat.add_comm (list_sum _)). reflexivity.
    + simpl. congruence.
    + intros [|k] s H.
      * injection H as <-. exists mesh.
        rewrite Nat.add_0_r. simpl firstn. simpl list_sum.
        rewrite advance_0. repeat split; assumption.
      * destruct (Hk k s H) as (m & Hn & Hu' & Hs' & Hp').
        exists m. rewrite advance_advance in Hp'.
        replace (index + S k)%nat with (S index + k)%nat by lia.
        simpl firstn. simpl map. simpl list_sum.
        rewrite (Nat.add_comm (starDraws star)).
        repeat split; assumption.
Qed.

(** *** The records of the fallback catalog *)

Lemma randomStars_placedByAngles (count : nat) :
  forall from w stars,
    fst (randomStars count from w) = inr stars ->
    Forall (fun star => placedByAngles star = true) stars.
Proof.
  induction count as [|count IH]; intros from w stars H.
  - simpl in H. injection H as <-. constructor.
  - destruct (randomStar_returns from w) as [star Hs].
    destruct (randomStars_returns count (S from) (advance 5 w))
      as (rest & Hr & _).
    simpl randomStars in H. unfold bind at 1 in H. rewrite Hs in H.
    unfold bind at 1 in H. rewrite Hr in H. simpl in H.
    injection H as <-. constructor.
    + unfold randomStar, bind, Math_random, ret in Hs. simpl in Hs.
      injection Hs as Hs. subst star. reflexivity.
    + apply (IH (S from) (advance 5 w)). rewrite Hr. reflexivity.
Qed.

Lemma placedByAngles_position (star : StarData) (w : World) :
  placedByAngles star = true ->
  exists ra dec,
    star_ra star = Some ra /\ star_dec star = Some dec
    /\ starPosition star w
       = (inr (astronomicalToCartesian ra dec
                 (Some (nadd (lit 50) (nmul (draw w 0) (lit 200))))),
          advance 1 w).
Proof.
  unfold placedByAngles, starPosition, hasCartesian, starDistance, draw.
  destruct w as [[d t] u].
  destruct (star_x star), (star_y star), (star_z star),
    (star_ra star) as [ra|], (star_dec star) as [dec|],
    (star_distance star); simpl; intros H; try discriminate H;
    exists ra, dec; repeat split.
Qed.

(** *** Where a record is placed *)

(** X6.  A record that gives all of [x], [y] and [z] is placed there,
    without a draw, whatever else it holds.  A record that misses one of
    the three is placed as if it gave none of them; when it also misses
    the right ascension or the declination, it is placed at random in the
    cube of side 1000 around the origin, with three draws, even if it
    states a distance. *)
Theorem starPosition_sources (star : StarData) (w : World) :
  (forall x y z,
     star_x star = Some x -> star_y star = Some y -> star_z star = Some z ->
     starPosition star w = (inr (THREE_Vector3 x y z), w))
  /\ (hasCartesian star = false ->
      starPosition star w = starPosition (withoutCartesian star) w)
  /\ (hasCartesian star = false ->
      star_ra star = None \/ star_dec star = None ->
      starPosition star w
      = (inr (THREE_Vector3
                (nmul (nsub (draw w 0) (lit 0.5)) (lit 1000))
                (nmul (nsub (draw w 1) (lit 0.5)) (lit 1000))
                (nmul (nsub (draw w 2) (lit 0.5)) (lit 1000))),
         advance 3 w)).
Proof.
  unfold starPosition, hasCartesian, withoutCartesian. simpl.
  repeat split.
  - intros x y z -> -> ->. reflexivity.
  - destruct (star_x star), (star_y star), (star_z star);
      intros H; try discriminate H; reflexivity.
  - destruct (star_x star), (star_y star), (star_z star);
      intros H; try discriminate H; intros [E|E]; rewrite E;
      try destruct (star_ra star); reflexivity.
Qed.

(** *** Colour by spectral class *)

Lemma toUpperCase_ascii_idempotent (c : ascii) :
  toUpperCase_ascii (toUpperCase_ascii c) = toUpperCase_ascii c.
Proof. destruct c as [[] [] [] [] [] [] [] []]; reflexivity. Qed.

(** X7.  Without a B-V index the spectral class decides the colour, by its
    first character alone and whatever the case of that character; the
    seven letters have fixed colours, every other first character gives
    white, nothing is drawn, and the empty class is treated as a missing
    one. *)
Theorem getStarColor_by_first_letter (w : World) :
  (forall (c : ascii) (rest : string),
     getStarColor None (Some (String c rest)) w
     = getStarColor None
         (Some (String (toUpperCase_ascii c) EmptyString)) w)
  /\ getStarColor None (Some "O"%string) w
     = (inr (THREE_Color (lit 0.6) (lit 0.8) (lit 1.0)), w)
  /\ getStarColor None (Some "B"%string) w
     = (inr (THREE_Color (lit 0.8) (lit 0.9) (lit 1.0)), w)
  /\ getStarColor None (Some "A"%string) w
     = (inr (THREE_Color (lit 1.0) (lit 1.0) (lit 1.0)), w)
  /\ getStarColor None (Some "F"%string) w
     = (inr (THREE_Color (lit 1.0) (lit 1.0) (lit 0.9)), w)
  /\ getStarColor None (Some "G"%string) w
     = (inr (THREE_Color (lit 1.0) (lit 1.0) (lit 0.7)), w)
  /\ getStarColor None (Some "K"%string) w
     = (inr (THREE_Color (lit 1.0) (lit 0.7) (lit 0.4)), w)
  /\ getStarColor None (Some "M"%string) w
     = (inr (THREE_Color (lit 1.0) (lit 0.5) (lit 0.3)), w)
  /\ (forall (c : ascii) (rest : string),
        ~ In (String (toUpperCase_ascii c) EmptyString) spectralLetters ->
        getStarColor None (Some (String c rest)) w
        = (inr (THREE_Color (lit 1.0) (lit 1.0) (lit 1.0)), w))
  /\ getStarColor None (Some EmptyString) w = getStarColor None None w.
Proof.
  split; [|repeat split].
  - intros c rest. unfold getStarColor. simpl string_truthy. cbv iota.
    unfold charAt0_toUpperCase. rewrite toUpperCase_ascii_idempotent.
    reflexivity.
  - intros c rest Hn. unfold getStarColor. simpl string_truthy. cbv iota.
    unfold charAt0_toUpperCase.
    destruct (toUpperCase_ascii c) as [[] [] [] [] [] [] [] []];
      try reflexivity; exfalso; apply Hn; simpl; tauto.
Qed.

(** *** Keys *)

Lemma key_set_key (code code' : string) (pressed : bool)
    (ks : list (string * bool)) :
  key code' (set_key code pressed ks)
  = if String.eqb code code' then pressed else key code' ks.
Proof.
  induction ks as [|[k p] ks IH]; simpl.
  - rewrite String.eqb_sym. reflexivity.
  - destruct (String.eqb k code) eqn:E; simpl.
    + apply String.eqb_eq in E. subst k.
      destruct (String.eqb code code'); reflexivity.
    + destruct (String.eqb k code') eqn:E'.
      * apply String.eqb_eq in E'. subst k.
        rewrite String.eqb_sym, E. reflexivity.
      * exact IH.
Qed.

(** X8.  After [handleKeyDown] a key reads as held and after [handleKeyUp]
    as released; every other key reads as before, and the acceleration
    flag is what the two Shift keys read after the event.  Nothing else in
    the controls changes. *)
Theorem handleKey_sets_one_key (code : string) (pressed : bool)
    (c : ControlState) :
  let c' := if pressed then handleKeyDown code c else handleKeyUp code c in
  (forall code',
     key code' (keys c')
     = if String.eqb code code' then pressed else key code' (keys c))
  /\ isAccelerating c'
     = (key "ShiftLeft" (keys c') || key "ShiftRight" (keys c'))
  /\ c' = with_keys c (keys c').
Proof.
  destruct pressed; cbv zeta; unfold handleKeyDown, handleKeyUp;
    (split; [intros code'; apply key_set_key|split; reflexivity]).
Qed.

(** *** The indicators of a session *)

Lemma key_true_In (code : string) (ks : list (string * bool)) :
  key code ks = true -> In code (map fst ks).
Proof.
  induction ks as [|[k p] ks IH]; simpl; [discriminate|].
  destruct (String.eqb k code) eqn:E.
  - apply String.eqb_eq in E. auto.
  - auto.
Qed.

Lemma set_key_In (code k : string) (pressed : bool)
    (ks : list (string * bool)) :
  In k (map fst (set_key code pressed ks))
  <-> k = code \/ In k (map fst ks).
Proof.
  induction ks as [|[k0 p] ks IH]; simpl.
  - intuition.
  - destruct (String.eqb k0 code) eqn:E; simpl.
    + apply String.eqb_eq in E. subst k0. intuition.
    + rewrite IH. intuition.
Qed.

Lemma set_key_NoDup (code : string) (pressed : bool)
    (ks : list (string * bool)) :
  NoDup (map fst ks) -> NoDup (map fst (set_key code pressed ks)).
Proof.
  induction ks as [|[k p] ks IH]; simpl; intros H.
  - constructor; [intros []|constructor].
  - inversion H as [|? ? Hn Hd]; subst.
    destruct (String.eqb k code) eqn:E; simpl.
    + constructor; assumption.
    + constructor; [|auto].
      rewrite set_key_In. intros [->|Hin]; [|contradiction].
      rewrite String.eqb_refl in E. discriminate.
Qed.

Lemma Object_values_some_key (ks : list (string * bool)) :
  NoDup (map fst ks) ->
  Object_values_some ks = true <-> exists code, key code ks = true.
Proof.
  intros Hd. induction ks as [|[k p] ks IH]; simpl.
  - split; [discriminate|intros [_ H]; discriminate].
  - inversion Hd as [|? ? Hn Hd']; subst. split.
    + destruct p; simpl.
      * intros _. exists k. rewrite String.eqb_refl. reflexivity.
      * intros H. apply (IH Hd') in H. destruct H as [code Hc].
        exists code. destruct (String.eqb k code) eqn:E; [|exact Hc].
        apply String.eqb_eq in E. subst k.
        exfalso. apply Hn. now apply key_true_In.
    + intros [code Hc]. destruct p; [reflexivity|]. simpl.
      apply (IH Hd'). exists code.
      destruct (String.eqb k code); [discriminate|exact Hc].
Qed.

Lemma animate_keeps (cameraDirection cameraUp : Vector3) (f : Frame) :
  let c := controls f in
  let c' := controls (animate cameraDirection cameraUp f) in
  keys c' = keys c /\ isAccelerating c' = isAccelerating c
  /\ baseSpeed c' = baseSpeed c
  /\ acceleratedSpeed c' = acceleratedSpeed c
  /\ targetZoom c' = targetZoom c
  /\ targetRotationX c' = targetRotationX c
  /\ targetRotationY c' = targetRotationY c
  /\ mouseDown c' = mouseDown c
  /\ mouseX c' = mouseX c /\ mouseY c' = mouseY c.
Proof.
  cbv zeta. unfold animate.
  repeat match goal with
    | |- context [if ?b then _ else _] => destruct b
    end; repeat split.
Qed.

Lemma handle_keeps (e : InputEvent) (c : ControlState) :
  let c' := handle e c in
  keys c' = keys c /\ isAccelerating c' = isAccelerating c
  /\ baseSpeed c' = baseSpeed c
  /\ acceleratedSpeed c' = acceleratedSpeed c
  /\ velocity c' = velocity c /\ acceleration c' = acceleration c
  /\ zoom c' = zoom c
  /\ currentRotationX c' = currentRotationX c
  /\ currentRotationY c' = currentRotationY c.
Proof.
  cbv zeta. destruct e as [x y| |mounted x y|d]; simpl;
    unfold handleMouseMove;
    repeat match goal with
      | |- context [if ?b then _ else _] => destruct b
      end; repeat split.
Qed.

Lemma act_indicatorsAgree (a : Action) (s : Session) :
  indicatorsAgree s -> indicatorsAgree (act a s).
Proof.
  unfold indicatorsAgree. cbv zeta. intros (Hd & Hf & Ha & Hb & Hs).
  destruct a as [code|code|e|d u]; cbn [act frame isFlying].
  - cbn [with_controls controls]. unfold handleKeyDown.
    cbn [with_keys keys isAccelerating baseSpeed acceleratedSpeed].
    repeat split; try assumption. now apply set_key_NoDup.
  - cbn [with_controls controls]. unfold handleKeyUp.
    cbn [with_keys keys isAccelerating baseSpeed acceleratedSpeed].
    repeat split; try assumption. now apply set_key_NoDup.
  - cbn [with_controls controls].
    destruct (handle_keeps e (controls (frame s)))
      as (-> & -> & -> & -> & _).
    repeat split; assumption.
  - destruct (animate_keeps d u (frame s)) as (-> & -> & -> & -> & _).
    repeat split; assumption.
Qed.

Lemma actAll_indicatorsAgree (actions : list Action) :
  forall s, indicatorsAgree s -> indicatorsAgree (actAll actions s).
Proof.
  induction actions as [|a actions IH]; intros s H; [exact H|].
  apply IH. now apply act_indicatorsAgree.
Qed.

(** X9.  From mount on, after any sequence of key events, pointer and
    wheel events and frames: the flying indicator is on exactly when some
    key reads as held, whichever key it is; the acceleration flag is what
    the two Shift keys read; and the two speeds are still 5 and 50. *)
Theorem session_indicators (actions : list Action) :
  let s := actAll actions initialSession in
  let c := controls (frame s) in
  (isFlying s = true <-> exists code, key code (keys c) = true)
  /\ isAccelerating c
     = (key "ShiftLeft" (keys c) || key "ShiftRight" (keys c))
  /\ baseSpeed c = lit 5 /\ acceleratedSpeed c = lit 50.
Proof.
  cbv zeta.
  assert (H0 : indicatorsAgree initialSession).
  { unfold indicatorsAgree. simpl. repeat split. constructor. }
  destruct (actAll_indicatorsAgree actions _ H0) as (Hd & Hf & Ha & Hb & Hs).
  repeat split; try assumption.
  - rewrite Hf. apply (Object_values_some_key _ Hd).
  - rewrite Hf. apply (Object_values_some_key _ Hd).
Qed.

(** X10.  Key events and pointer or wheel events do not interfere: a key
    event and a pointer or wheel event leave the same session in either
    order. *)
Theorem key_and_pointer_commute (code : string) (pressed : bool)
    (e : InputEvent) (s : Session) :
  let k := if pressed then KeyDown code else KeyUp code in
  act k (act (Pointer e) s) = act (Pointer e) (act k s).
Proof.
  cbv zeta. destruct s as [[c pos speed] flying].
  destruct pressed, e as [x y| |mounted x y|d];
    cbn [act frame isFlying with_controls controls cameraPosition
         movementSpeed handle];
    unfold handleKeyDown, handleKeyUp, handleMouseDown, handleMouseUp,
      handleMouseMove, handleWheel;
    try (destruct mounted; cbn [negb]);
    try (destruct (mouseDown c) eqn:E);
    cbn [with_keys with_mouse with_targetZoom keys mouseDown mouseX mouseY
         targetRotationX targetRotationY zoom targetZoom];
    rewrite ?E; reflexivity.
Qed.

End ComponentAnyNumbers.

(** ** The render loop, for any numbers *)

Section RenderLoopAnyNumbers.

Context {N : JSNumber}.

Lemma holdsWASD_free (c : ControlState) :
  negb (key "KeyW" (keys c)) && negb (key "KeyS" (keys c))
  && negb (key "KeyA" (keys c)) && negb (key "KeyD" (keys c))
  = negb (holdsWASD c).
Proof.
  unfold holdsWASD.
  destruct (key "KeyW" (keys c)), (key "KeyS" (keys c)),
    (key "KeyA" (keys c)), (key "KeyD" (keys c)); reflexivity.
Qed.

Lemma animate_turns (cameraDirection cameraUp : Vector3) (f : Frame) :
  let c := controls f in
  let c' := controls (animate cameraDirection cameraUp f) in
  (holdsWASD c = true ->
   currentRotationX c' = currentRotationX c
   /\ currentRotationY c' = currentRotationY c)
  /\ (holdsWASD c = false ->
      currentRotationX c'
      = nadd (currentRotationX c)
          (nmul (nsub (targetRotationX c) (currentRotationX c)) (lit 0.05))
      /\ currentRotationY c'
         = nadd (currentRotationY c)
             (nmul (nsub (targetRotationY c) (currentRotationY c))
                (lit 0.05))).
Proof.
  cbv zeta. unfold animate. rewrite holdsWASD_free.
  split; intros ->; cbn [negb];
    repeat match goal with
      | |- context [if ?b then _ else _] => destruct b
      end; split; reflexivity.
Qed.

Lemma frames_keys (camera : nat -> Vector3 * Vector3) (f : Frame) (n : nat) :
  keys (controls (frames camera n f)) = keys (controls f).
Proof.
  induction n as [|n IH]; [reflexivity|]. cbn [frames].
  rewrite (proj1 (animate_keeps _ _ _)). exact IH.
Qed.

(** X19.  While one of W, A, S and D is held the frames do not turn the
    view: after any number of frames the current rotation is the one the
    first frame found, whatever the targets are.  A frame with none of the
    four held moves each angle by a twentieth of its distance to the
    target, the arrow keys and the other keys notwithstanding. *)
Theorem rotation_waits_for_keys :
  (forall (camera : nat -> Vector3 * Vector3) (f : Frame) (n : nat),
      holdsWASD (controls f) = true ->
      currentRotationX (controls (frames camera n f))
      = currentRotationX (controls f)
      /\ currentRotationY (controls (frames camera n f))
         = currentRotationY (controls f))
  /\ (forall (cameraDirection cameraUp : Vector3) (f : Frame),
        holdsWASD (controls f) = false ->
        let c := controls f in
        let c' := controls (animate cameraDirection cameraUp f) in
        currentRotationX c'
        = nadd (currentRotationX c)
            (nmul (nsub (targetRotationX c) (currentRotationX c))
               (lit 0.05))
        /\ currentRotationY c'
           = nadd (currentRotationY c)
               (nmul (nsub (targetRotationY c) (currentRotationY c))
                  (lit 0.05))).
Proof.
  split.
  - intros camera f n Hheld. induction n as [|n IH]; [split; reflexivity|].
    cbn [frames].
    destruct (animate_turns (fst (camera n)) (snd (camera n))
                (frames camera n f)) as [Hstay _].
    cbv zeta in Hstay.
    assert (Hk : holdsWASD (controls (frames camera n f)) = true).
    { unfold holdsWASD in *. rewrite frames_keys. exact Hheld. }
    destruct (Hstay Hk) as [-> ->]. exact IH.
  - intros cameraDirection cameraUp f Hfree.
    exact (proj2 (animate_turns cameraDirection cameraUp f) Hfree).
Qed.

(** X20.  Where a frame leaves the camera.  With none of W, A, S and D held
    and a velocity that the frame leaves shorter than 0.1, the camera is put
    on the orbit, at the rotation the frame leaves and the zoom it found,
    even while an arrow key or an up or down key moves it.  Otherwise it
    is moved by the velocity when a movement key asks for a direction, and
    stays where it is when none does. *)
Theorem camera_after_frame (cameraDirection cameraUp : Vector3) (f : Frame) :
  let c := controls f in
  let f' := animate cameraDirection cameraUp f in
  let c' := controls f' in
  let slow := nlt (Vector3_length (velocity c')) (lit 0.1) in
  (holdsWASD c = false -> slow = true ->
   cameraPosition f'
   = orbitPosition (currentRotationX c') (currentRotationY c') (zoom c))
  /\ (holdsWASD c = true \/ slow = false ->
      cameraPosition f'
      = if nlt (lit 0) (Vector3_length (moveVector c))
        then Vector3_add (cameraPosition f) (velocity c')
        else cameraPosition f).
Proof.
  cbv zeta. unfold animate. rewrite holdsWASD_free. split.
  - intros -> . cbn [negb].
    repeat match goal with
      | |- context [if ?b then _ else _] => destruct b eqn:?
      end;
      cbv beta iota zeta; cbn [controls with_motion velocity cameraPosition];
      intros H; try reflexivity; congruence.
  - intros [->|Hs]; cbn [negb].
    + repeat match goal with
        | |- context [if ?b then _ else _] => destruct b eqn:?
        end; reflexivity.
    + revert Hs.
      repeat match goal with
        | |- context [if ?b then _ else _] => destruct b eqn:?
        end;
        cbv beta iota zeta;
        cbn [controls with_motion velocity cameraPosition];
        intros H; try reflexivity; congruence.
Qed.

End RenderLoopAnyNumbers.

(** ** More of the component, over binary64 *)

Section ComponentOverDoubles.

Variables cos64 sin64 : float -> float.
#[local] Hint Extern 0 JSNumber => exact (binary64 cos64 sin64)
  : typeclass_instances.

(** *** Opacity *)

Lemma magOrZero_not_nan (star : StarData) :
  is_nan (magOrZero star) = false.
Proof.
  unfold magOrZero. destruct (star_mag star) as [m|]; [|reflexivity].
  change (ToBoolean m) with (Double.truthy m). unfold Double.truthy.
  destruct (is_nan m) eqn:E; simpl; [reflexivity|].
  destruct (is_zero m); simpl; [reflexivity|exact E].
Qed.

(** X11.  The opacity of a mesh is a number and at least 0.3, whatever the
    magnitude of the record; it is exactly 1 when the magnitude is missing,
    zero or NaN. *)
Theorem opacity_at_least (star : StarData) (index : nat) (w : World) :
  exists mesh w',
    createStar star index w = (inr mesh, w')
    /\ is_nan (opacity mesh) = false
    /\ (0.3 <=? opacity mesh)%float = true
    /\ (star_mag star = None
        \/ (exists m, star_mag star = Some m
                      /\ (is_zero m = true \/ is_nan m = true)) ->
        opacity mesh = 1%float).
Proof.
  destruct (createStar_returns star index w) as (mesh & Hm & _ & _ & Ho & _).
  exists mesh. eexists. split; [exact Hm|].
  change (opacity mesh
          = Double.max 0.3 (1.0 - magOrZero star * 0.1)%float) in Ho.
  assert (Hx : is_nan (1.0 - magOrZero star * 0.1)%float = false).
  { apply DoubleFacts.sub_finite_any_not_nan; [reflexivity|].
    apply DoubleFacts.mul_const_not_nan;
      [reflexivity|reflexivity|apply magOrZero_not_nan]. }
  destruct (DoubleFacts.max_cases 0.3 _ eq_refl Hx) as ([E|E] & Ha & Hb).
  - rewrite Ho. repeat split.
    + rewrite E. reflexivity.
    + exact Ha.
    + intros H. unfold magOrZero.
      destruct H as [->|(m & -> & Hz)]; [reflexivity|].
      change (ToBoolean m) with (Double.truthy m). unfold Double.truthy.
      destruct Hz as [Hz|Hz]; rewrite Hz, ?orb_true_r; reflexivity.
  - rewrite Ho. repeat split.
    + rewrite E. exact Hx.
    + exact Ha.
    + intros H. unfold magOrZero.
      destruct H as [->|(m & -> & Hz)]; [reflexivity|].
      change (ToBoolean m) with (Double.truthy m). unfold Double.truthy.
      destruct Hz as [Hz|Hz]; rewrite Hz, ?orb_true_r; reflexivity.
Qed.

(** *** Identifiers of the generated records *)

Lemma generated_ids_checked :
  forallb (fun k =>
             match Double.to_index
                     (Double.of_Z (Z.of_nat k) + Double.of_Z 10)%float with
             | Some i => Nat.eqb i (10 + k)
             | None => false
             end) (seq 0 2000) = true.
Proof. vm_compute. reflexivity. Qed.

(** X12.  In the fallback catalog the [id] of every generated record is
    exactly its own index in the catalog, 10 to 2009: the addition
    [i + famousStars.length] is exact, and no two records share an id. *)
Theorem generated_id_is_index (w : World) (k : nat) :
  (k < 2000)%nat ->
  exists catalog star i,
    fst (generateSampleStarData w) = inr catalog
    /\ nth_error catalog (10 + k) = Some star
    /\ star_id star = Some (IdNumber i)
    /\ ToIndex i = Some (10 + k)%nat.
Proof.
  intros Hk.
  destruct (generateSampleStarData_nth w) as (catalog & Hg & _ & _ & He).
  destruct (He k Hk) as (star & Hn & Hs).
  assert (Hi : star_id star
               = Some (IdNumber (nadd (of_nat k) (of_nat 10)))).
  { unfold randomStar, bind, Math_random, ret in Hs. simpl in Hs.
    injection Hs as Hs. subst star. reflexivity. }
  exists catalog, star. eexists. rewrite Hg.
  split; [reflexivity|]. split; [exact Hn|]. split; [exact Hi|].
  pose proof generated_ids_checked as H.
  rewrite forallb_forall in H. specialize (H k).
  assert (Hin : In k (seq 0 2000)) by (apply in_seq; lia).
  specialize (H Hin).
  change (ToIndex (nadd (of_nat k) (of_nat 10)))
    with (Double.to_index
            (Double.of_Z (Z.of_nat k) + Double.of_Z 10)%float).
  destruct (Double.to_index _) as [i|]; [|discriminate H].
  apply Nat.eqb_eq in H. congruence.
Qed.

(** *** The speed shown *)

Lemma animate_readout (cameraDirection cameraUp : Vector3) (f : Frame) :
  movementSpeed (animate cameraDirection cameraUp f)
  = Vector3_length (velocity (controls (animate cameraDirection cameraUp f))).
Proof.
  unfold animate.
  repeat match goal with
    | |- context [if ?b then _ else _] => destruct b
    end; reflexivity.
Qed.

(** X13.  At mount the speed shown is 5 although the velocity is zero.
    Every frame makes the speed shown the length of the velocity it
    leaves, and no key, pointer or wheel event breaks this. *)
Theorem speed_shown_is_speed :
  movementSpeed (frame initialSession) = 5%float
  /\ Vector3_length (velocity (controls (frame initialSession))) = 0%float
  /\ (forall cameraDirection cameraUp s,
        readoutAgrees (act (AnimationFrame cameraDirection cameraUp) s))
  /\ (forall a s, readoutAgrees s -> readoutAgrees (act a s)).
Proof.
  split; [reflexivity|]. split; [reflexivity|]. split.
  - intros d u s. apply animate_readout.
  - intros [code|code|e|d u] s H; unfold readoutAgrees in *;
      cbn [act frame with_controls controls movementSpeed].
    + exact H.
    + exact H.
    + destruct (handle_keeps e (controls (frame s)))
        as (_ & _ & _ & _ & -> & _).
      exact H.
    + apply animate_readout.
Qed.

(** *** Keys that cancel *)

Lemma moveVector_balanced (c : ControlState) :
  baseSpeed c = 5%float -> acceleratedSpeed c = 50%float ->
  balanced c = true ->
  moveVector c = THREE_Vector3 0%float 0%float 0%float.
Proof.
  intros Hb Ha. unfold balanced, moveVector. cbv zeta. rewrite Hb, Ha.
  destruct (key "KeyW" (keys c) || key "ArrowUp" (keys c)),
    (key "KeyS" (keys c) || key "ArrowDown" (keys c)),
    (key "KeyA" (keys c) || key "ArrowLeft" (keys c)),
    (key "KeyD" (keys c) || key "ArrowRight" (keys c)),
    (key "KeyQ" (keys c) || key "Space" (keys c)),
    (key "KeyE" (keys c) || key "ControlLeft" (keys c));
    simpl; intros H; try discriminate H;
    destruct (isAccelerating c); reflexivity.
Qed.

(** X14.  From mount on, when on each axis the keys of both directions are
    held or none is (W together with S, say), the movement vector is
    exactly zero and the next frame decelerates as if no key were held:
    the velocity is multiplied by 0.9, or set to zero once that is shorter
    than 0.1, and the acceleration is cleared. *)
Theorem opposite_keys_cancel (actions : list Action)
    (cameraDirection cameraUp : Vector3) :
  let f := frame (actAll actions initialSession) in
  balanced (controls f) = true ->
  moveVector (controls f) = THREE_Vector3 0%float 0%float 0%float
  /\ velocity (controls (animate cameraDirection cameraUp f))
     = decay (velocity (controls f))
  /\ acceleration (controls (animate cameraDirection cameraUp f))
     = THREE_Vector3 0%float 0%float 0%float.
Proof.
  cbv zeta. intros Hbal.
  assert (H0 : indicatorsAgree (@initialSession (binary64 cos64 sin64))).
  { unfold indicatorsAgree. simpl. repeat split. constructor. }
  destruct (actAll_indicatorsAgree actions _ H0) as (_ & _ & _ & Hb & Ha).
  set (f := frame (actAll actions initialSession)) in *.
  pose proof (moveVector_balanced (controls f) Hb Ha Hbal) as Hm.
  split; [exact Hm|].
  unfold animate. rewrite Hm.
  change (@nlt (binary64 cos64 sin64) (lit 0)
            (Vector3_length
               (@THREE_Vector3 (binary64 cos64 sin64)
                  0%float 0%float 0%float))) with false.
  cbv iota. unfold decay.
  destruct (Vector3_length (multiplyScalar (velocity (controls f)) (lit 0.9))
            <? lit 0.1)%js;
    repeat match goal with
      | |- context [if ?b then _ else _] => destruct b
      end; split; reflexivity.
Qed.

End ComponentOverDoubles.

(** W and S held together from mount: forward and back cancel. *)
Lemma opposite_keys_cancel_witness :
  let f := frame (actAll [KeyDown "KeyW"; KeyDown "KeyS"]
                    (@initialSession Sample.engine)) in
  let ahead := @THREE_Vector3 Sample.engine 0%float 0%float (-1)%float in
  let above := @THREE_Vector3 Sample.engine 0%float 1%float 0%float in
  balanced (controls f) = true
  /\ noMovementKey (controls f) = false
  /\ moveVector (controls f)
     = @THREE_Vector3 Sample.engine 0%float 0%float 0%float
  /\ velocity (controls (animate ahead above f))
     = decay (velocity (controls f))
  /\ acceleration (controls (animate ahead above f))
     = @THREE_Vector3 Sample.engine 0%float 0%float 0%float.
Proof.
  cbv zeta. split; [reflexivity|]. split; [reflexivity|].
  apply (opposite_keys_cancel (fun _ => 1%float) (fun _ => 0%float)
           [KeyDown "KeyW"; KeyDown "KeyS"]
           (@THREE_Vector3 Sample.engine 0%float 0%float (-1)%float)
           (@THREE_Vector3 Sample.engine 0%float 1%float 0%float)
           eq_refl).
Defined.

(** ** The fallback catalog and its scene in binary64 *)

Section FallbackOverDoubles.

Variables cos64 sin64 : float -> float.
#[local] Hint Extern 0 JSNumber => exact (binary64 cos64 sin64)
  : typeclass_instances.

Lemma draw_advance (w : World) (a j : nat) :
  draw (advance a w) j = draw w (j + a).
Proof. unfold draw, advance. simpl. f_equal. lia. Qed.

Lemma randomStar_fields (i : nat) (w : World) (star : StarData) :
  randomStar i w = (inr star, advance 5 w) ->
  star_ra star = Some (draw w 0 * 24)%float
  /\ star_dec star = Some ((draw w 1 - 0.5) * 180)%float
  /\ star_mag star = Some (draw w 2 * 8 - 1)%float
  /\ star_bv star = Some ((draw w 3 - 0.3) * 2)%float
  /\ star_spectralClass star
     = element_at spectralLetters (Double.floor (draw w 4 * 7)%float)
  /\ placedByAngles star = true
  /\ colourDraws star = 0%nat.
Proof.
  unfold randomStar, bind, Math_random, ret, draw. simpl. intros H.
  injection H as H. subst star. repeat split.
Qed.

Local Open Scope R_scope.

Lemma bpow_neg (k : Z) : (0 < k)%Z -> bpow (- k) = / IZR (2 ^ k).
Proof. intros Hk. rewrite bpow_opp, (bpow_IZR k) by lia. reflexivity. Qed.

(** Numbers of the grid as fractions. *)
Ltac fractions :=
  unfold F2R in *;
  repeat match goal with
    | |- context [IZR ?z] =>
        let n := eval vm_compute in z in progress change z with n in *
    | H : context [IZR ?z] |- _ =>
        let n := eval vm_compute in z in progress change z with n in *
    end;
  repeat match goal with
    | |- context [bpow (Zneg ?k)] =>
        let n := eval vm_compute in (2 ^ Zpos k)%Z in
        replace (bpow (Zneg k)) with (/ IZR n) in *
          by (symmetry; apply (bpow_neg (Zpos k) eq_refl))
    | H : context [bpow (Zneg ?k)] |- _ =>
        let n := eval vm_compute in (2 ^ Zpos k)%Z in
        replace (bpow (Zneg k)) with (/ IZR n) in *
          by (symmetry; apply (bpow_neg (Zpos k) eq_refl))
    | |- context [bpow (Zpos ?k)] =>
        let n := eval vm_compute in (2 ^ Zpos k)%Z in
        replace (bpow (Zpos k)) with (IZR n) in *
          by (symmetry; apply (bpow_IZR (Zpos k)); lia)
    | H : context [bpow (Zpos ?k)] |- _ =>
        let n := eval vm_compute in (2 ^ Zpos k)%Z in
        replace (bpow (Zpos k)) with (IZR n) in *
          by (symmetry; apply (bpow_IZR (Zpos k)); lia)
    end;
  rewrite ?bpow_0 in *.

Lemma val_05 : val 0.5 = / 2.
Proof.
  change (val 0.5) with (F2R 4503599627370496 (-53)). fractions. lra.
Qed.

Lemma val_180 : val 180 = 180.
Proof.
  change (val 180) with (F2R 6333186975989760 (-45)). fractions. lra.
Qed.

Lemma val_8 : val 8 = 8.
Proof.
  change (val 8) with (F2R 4503599627370496 (-49)). fractions. lra.
Qed.

Lemma val_1 : val 1 = 1.
Proof.
  change (val 1) with (F2R 4503599627370496 (-52)). fractions. lra.
Qed.

Lemma val_2 : val 2 = 2.
Proof.
  change (val 2) with (F2R 4503599627370496 (-51)). fractions. lra.
Qed.

Lemma val_03 : val 0.3 = F2R 5404319552844595 (-54).
Proof. reflexivity. Qed.

(** Bounds between numbers of the grid, as inequalities of fractions. *)
Ltac bounds :=
  rewrite ?val_05, ?val_180, ?val_8, ?val_1, ?val_2, ?val_03 in *;
  try apply Rabs_def1; fractions; lra.

(** The declination of a generated record. *)
Lemma generated_dec (r : float) :
  (0 <=? r)%float = true -> (r <? 1)%float = true ->
  (-90 <=? (r - 0.5) * 180)%float = true
  /\ ((r - 0.5) * 180 <? 90)%float = true.
Proof.
  intros H0 H1. destruct (draw_val r H0 H1) as (Hf & Hr0 & Hr1).
  assert (A1 : Rabs (val r - val 0.5) < bpow 0) by bounds.
  assert (A2 : F2R (- 2 ^ 52) (-53) <= val r - val 0.5) by bounds.
  assert (A3 : val r - val 0.5 <= F2R (2 ^ 52 - 1) (-53)) by bounds.
  destruct (sub_val_between r 0.5 (- 2 ^ 52) (-53) (2 ^ 52 - 1) (-53) 0
              Hf eq_refl A1 ltac:(lia)
              ltac:(lia) ltac:(lia) A2 A3) as (Hft & Ht0 & Ht1).
  assert (B1 : Rabs (val (r - 0.5)%float * val 180) < bpow 7) by bounds.
  assert (B2 : F2R (- (90 * 2 ^ 46)) (-46)
               <= val (r - 0.5)%float * val 180) by bounds.
  assert (B3 : val (r - 0.5)%float * val 180
               <= F2R (90 * 2 ^ 46 - 1) (-46)) by bounds.
  destruct (mul_val_between (r - 0.5) 180 (- (90 * 2 ^ 46)) (-46) (90 * 2 ^ 46 - 1) (-46) 7
              Hft eq_refl B1
              ltac:(lia) ltac:(lia) ltac:(lia) B2 B3) as (Hfd & Hd0 & Hd1).
  split.
  - apply leb_of_val; [reflexivity|assumption|].
    change (val (-90)) with (- F2R 6333186975989760 (-46)). bounds.
  - apply ltb_of_val; [assumption|reflexivity|].
    change (val 90) with (F2R 6333186975989760 (-46)). bounds.
Qed.

(** The magnitude of a generated record. *)
Lemma generated_mag (r : float) :
  (0 <=? r)%float = true -> (r <? 1)%float = true ->
  (-1 <=? r * 8 - 1)%float = true /\ (r * 8 - 1 <? 7)%float = true.
Proof.
  intros H0 H1. destruct (draw_val r H0 H1) as (Hf & Hr0 & Hr1).
  assert (A1 : Rabs (val r * val 8) < bpow 3) by bounds.
  assert (A2 : F2R 0 (-50) <= val r * val 8) by bounds.
  assert (A3 : val r * val 8 <= F2R (2 ^ 53 - 1) (-50)) by bounds.
  destruct (mul_val_between r 8 0 (-50) (2 ^ 53 - 1) (-50) 3 Hf eq_refl A1 ltac:(lia)
              ltac:(lia) ltac:(lia) A2 A3) as (Hfx & Hx0 & Hx1).
  assert (B1 : Rabs (val (r * 8)%float - val 1) < bpow 3) by bounds.
  assert (B2 : F2R (- 2 ^ 50) (-50) <= val (r * 8)%float - val 1)
    by bounds.
  assert (B3 : val (r * 8)%float - val 1 <= F2R (7 * 2 ^ 50 - 1) (-50))
    by bounds.
  destruct (sub_val_between (r * 8) 1 (- 2 ^ 50) (-50) (7 * 2 ^ 50 - 1) (-50) 3
              Hfx eq_refl B1
              ltac:(lia) ltac:(lia) ltac:(lia) B2 B3) as (Hfm & Hm0 & Hm1).
  split.
  - apply leb_of_val; [reflexivity|assumption|].
    change (val (-1)) with (- F2R 4503599627370496 (-52)). bounds.
  - apply ltb_of_val; [assumption|reflexivity|].
    change (val 7) with (F2R 7881299347898368 (-50)). bounds.
Qed.

(** The B-V index of a generated record: the upper end 1.4 is reached, by
    the draw just below 1. *)
Lemma generated_bv (r : float) :
  (0 <=? r)%float = true -> (r <? 1)%float = true ->
  (-0.6 <=? (r - 0.3) * 2)%float = true
  /\ ((r - 0.3) * 2 <=? 1.4)%float = true.
Proof.
  intros H0 H1. destruct (draw_val r H0 H1) as (Hf & Hr0 & Hr1).
  assert (Ht : Double.is_finite (r - 0.3)%float = true
               /\ F2R (- 5404319552844595) (-54) <= val (r - 0.3)%float
               /\ val (r - 0.3)%float <= F2R 6305039478318694 (-53)).
  { destruct (Rlt_le_dec (val r - val 0.3) (/ 2)) as [Hlt|Hge].
    - assert (A1 : Rabs (val r - val 0.3) < bpow (-1)) by bounds.
      assert (A2 : F2R (- 5404319552844595) (-54) <= val r - val 0.3)
        by bounds.
      assert (A3 : val r - val 0.3 <= F2R (2 ^ 53) (-54)) by bounds.
      destruct (sub_val_between r 0.3 (- 5404319552844595) (-54) (2 ^ 53) (-54) (-1)
                  Hf eq_refl A1
                  ltac:(lia) ltac:(lia) ltac:(lia) A2 A3)
        as (Hft & Ht0 & Ht1).
      repeat split; try assumption. bounds.
    - assert (A1 : Rabs (val r - val 0.3) < bpow 0) by bounds.
      assert (A2 : F2R (2 ^ 52) (-53) <= val r - val 0.3) by bounds.
      assert (A3 : val r - val 0.3 <= F2R 6305039478318694 (-53))
        by bounds.
      destruct (sub_val_between r 0.3 (2 ^ 52) (-53) 6305039478318694 (-53) 0
                  Hf eq_refl A1
                  ltac:(lia) ltac:(lia) ltac:(lia) A2 A3)
        as (Hft & Ht0 & Ht1).
      repeat split; try assumption. bounds. }
  destruct Ht as (Hft & Ht0 & Ht1).
  assert (Hb : Double.is_finite ((r - 0.3) * 2)%float = true
               /\ F2R (- 5404319552844595) (-53)
                  <= val ((r - 0.3) * 2)%float
               /\ val ((r - 0.3) * 2)%float
                  <= F2R 6305039478318694 (-52)).
  { destruct (Rlt_le_dec (val (r - 0.3)%float * val 2) 1) as [Hlt|Hge].
    - assert (A1 : Rabs (val (r - 0.3)%float * val 2) < bpow 0) by bounds.
      assert (A2 : F2R (- 5404319552844595) (-53)
                   <= val (r - 0.3)%float * val 2) by bounds.
      assert (A3 : val (r - 0.3)%float * val 2 <= F2R (2 ^ 53) (-53))
        by bounds.
      destruct (mul_val_between (r - 0.3) 2 (- 5404319552844595) (-53) (2 ^ 53) (-53) 0
                  Hft eq_refl A1
                  ltac:(lia) ltac:(lia) ltac:(lia) A2 A3)
        as (Hfb & Hb0 & Hb1).
      repeat split; try assumption. bounds.
    - assert (A1 : Rabs (val (r - 0.3)%float * val 2) < bpow 1) by bounds.
      assert (A2 : F2R (2 ^ 52) (-52) <= val (r - 0.3)%float * val 2)
        by bounds.
      assert (A3 : val (r - 0.3)%float * val 2
                   <= F2R 6305039478318694 (-52)) by bounds.
      destruct (mul_val_between (r - 0.3) 2 (2 ^ 52) (-52) 6305039478318694 (-52) 1
                  Hft eq_refl A1
                  ltac:(lia) ltac:(lia) ltac:(lia) A2 A3)
        as (Hfb & Hb0 & Hb1).
      repeat split; try assumption. bounds. }
  destruct Hb as (Hfb & Hb0 & Hb1).
  split.
  - apply leb_of_val; [reflexivity|assumption|].
    change (val (-0.6)) with (- F2R 5404319552844595 (-53)). bounds.
  - apply leb_of_val; [assumption|reflexivity|].
    change (val 1.4) with (F2R 6305039478318694 (-52)). bounds.
Qed.

Local Close Scope R_scope.

(** X17.  In binary64, when the five draws of a generated record are in
    [[0, 1)], its right ascension is in [[0, 24)], its declination in
    [[-90, 90)], its magnitude in [[-1, 7)] and its B-V index in
    [[-0.6, 1.4]], roundings included (the draw just below 1 gives the
    index 1.4 itself), and its spectral class is one of the seven letters:
    the index [Math.floor(Math.random() * 7)] never reaches 7. *)
Theorem generated_entries_in_range (w : World) (k : nat) :
  (k < 2000)%nat ->
  drawsInRange cos64 sin64 (advance (5 * k) w) 5 ->
  exists catalog star ra dec mag bv cls,
    fst (generateSampleStarData w) = inr catalog
    /\ nth_error catalog (10 + k) = Some star
    /\ star_ra star = Some ra
    /\ (0 <=? ra)%float = true /\ (ra <? 24)%float = true
    /\ star_dec star = Some dec
    /\ (-90 <=? dec)%float = true /\ (dec <? 90)%float = true
    /\ star_mag star = Some mag
    /\ (-1 <=? mag)%float = true /\ (mag <? 7)%float = true
    /\ star_bv star = Some bv
    /\ (-0.6 <=? bv)%float = true /\ (bv <=? 1.4)%float = true
    /\ star_spectralClass star = Some cls
    /\ In cls spectralLetters.
Proof.
  intros Hk Hd.
  destruct (generateSampleStarData_nth w) as (catalog & Hg & _ & _ & He).
  destruct (He k Hk) as (star & Hn & Hs).
  replace (5 * k + 5)%nat with (5 + 5 * k)%nat in Hs by lia.
  rewrite <- advance_advance in Hs.
  destruct (randomStar_fields _ _ _ Hs)
    as (Hra & Hdec & Hmag & Hbv & Hcls & _).
  destruct (Hd 0%nat ltac:(lia)) as [H00 H01].
  destruct (Hd 1%nat ltac:(lia)) as [H10 H11].
  destruct (Hd 2%nat ltac:(lia)) as [H20 H21].
  destruct (Hd 3%nat ltac:(lia)) as [H30 H31].
  destruct (Hd 4%nat ltac:(lia)) as [H40 H41].
  destruct (draw_scaled _ 24 H00 H01 eq_refl eq_refl)
    as [Hr0 Hr1]; [cbn; lia|].
  destruct (generated_dec _ H10 H11) as [Hd0 Hd1].
  destruct (generated_mag _ H20 H21) as [Hm0 Hm1].
  destruct (generated_bv _ H30 H31) as [Hb0 Hb1].
  destruct (draw_scaled _ 7 H40 H41 eq_refl eq_refl)
    as [Hc0 Hc1]; [cbn; lia|].
  destruct (floor_below_7 _ Hc0 Hc1) as (i & Hi & Hlt).
  assert (Hnth : exists cls, nth_error spectralLetters i = Some cls).
  { destruct (nth_error spectralLetters i) eqn:E; [eauto|].
    apply nth_error_None in E. simpl in E. lia. }
  destruct Hnth as [cls Hcl].
  exists catalog, star. do 4 eexists. exists cls.
  rewrite Hg.
  split; [reflexivity|]. split; [exact Hn|].
  split; [exact Hra|]. split; [exact Hr0|]. split; [exact Hr1|].
  split; [exact Hdec|]. split; [exact Hd0|]. split; [exact Hd1|].
  split; [exact Hmag|]. split; [exact Hm0|]. split; [exact Hm1|].
  split; [exact Hbv|]. split; [exact Hb0|]. split; [exact Hb1|].
  split.
  - rewrite Hcls. unfold element_at.
    change (@ToIndex (binary64 cos64 sin64)) with Double.to_index.
    rewrite Hi. exact Hcl.
  - eapply nth_error_In. exact Hcl.
Qed.


(** *** The colour of a record without index and class *)

Local Open Scope R_scope.

Lemma jitter_channel (r : float) :
  (0 <=? r)%float = true -> (r <? 1)%float = true ->
  (0.8 <=? 0.8 + r * 0.2)%float = true
  /\ (0.8 + r * 0.2 <=? 1)%float = true.
Proof.
  intros H0 H1.
  destruct (draw_scaled r 0.2 H0 H1 eq_refl eq_refl) as [Hx0 Hx1];
    [cbn; lia|].
  assert (Hn : SFnonneg (Prim2SF (r * 0.2)%float)).
  { revert Hx0 Hx1. rewrite FloatAxioms.leb_spec, FloatAxioms.ltb_spec.
    change (Prim2SF 0) with (S754_zero false).
    destruct (Prim2SF (r * 0.2)%float) as [s|s| |[|] m e]; cbn [SFnonneg];
      try destruct s; try discriminate; auto. }
  assert (Hm : mag (r * 0.2)%float <= F2R (7205759403792794 - 1) (-55)).
  { apply below_of_ltb; try assumption; try reflexivity.
    rewrite FloatAxioms.ltb_spec in Hx1. exact Hx1. }
  pose proof (mag_nonneg (r * 0.2)%float) as Hm0.
  assert (H08 : mag 0.8 = F2R 7205759403792794 (-53)) by reflexivity.
  assert (H1' : mag 1 = F2R 4503599627370496 (-52)) by reflexivity.
  assert (Hsum : Double.is_finite (0.8 + r * 0.2)%float = true
                 /\ SFnonneg (Prim2SF (0.8 + r * 0.2)%float)
                 /\ F2R 7205759403792794 (-53)
                    <= mag (0.8 + r * 0.2)%float
                 /\ mag (0.8 + r * 0.2)%float
                    <= F2R 4503599627370496 (-52)).
  { destruct (Rlt_le_dec (mag 0.8 + mag (r * 0.2)%float) 1) as [Hlt|Hge].
    - assert (A1 : mag 0.8 + mag (r * 0.2)%float < bpow 0)
        by (rewrite bpow_0; exact Hlt).
      assert (A2 : F2R 7205759403792794 (-53)
                   <= mag 0.8 + mag (r * 0.2)%float)
        by (rewrite H08; lra).
      assert (A3 : mag 0.8 + mag (r * 0.2)%float <= F2R (2 ^ 53) (-53))
        by (fractions; lra).
      destruct (add_between 0.8 (r * 0.2) 7205759403792794 (-53)
                  (2 ^ 53) (-53) 0 I Hn A1 ltac:(lia) ltac:(lia)
                  ltac:(lia) ltac:(lia) A2 A3)
        as (Hnn & Hfin & Hlo & Hhi).
      repeat split; try assumption. fractions. lra.
    - assert (A1 : mag 0.8 + mag (r * 0.2)%float < bpow 1)
        by (rewrite H08; fractions; lra).
      assert (A2 : F2R (2 ^ 52) (-52) <= mag 0.8 + mag (r * 0.2)%float)
        by (fractions; lra).
      assert (A3 : mag 0.8 + mag (r * 0.2)%float <= F2R (2 ^ 53) (-52))
        by (rewrite H08; fractions; lra).
      destruct (add_between 0.8 (r * 0.2) (2 ^ 52) (-52)
                  (2 ^ 53) (-52) 1 I Hn A1 ltac:(lia) ltac:(lia)
                  ltac:(lia) ltac:(lia) A2 A3)
        as (Hnn & Hfin & Hlo & Hhi).
      assert (M1 : bpow (1 - 1) <= mag 0.8 + mag (r * 0.2)%float)
        by (change (1 - 1)%Z with 0%Z; rewrite bpow_0; exact Hge).
      assert (M2 : 2 * (mag 0.8 + mag (r * 0.2)%float)
                   < F2R (2 * 4503599627370496 + 1) (-52))
        by (rewrite H08; fractions; lra).
      pose proof (add_below_middle 0.8 (r * 0.2) 4503599627370496 1
                    I Hn M1 A1 M2) as Hmid.
      repeat split; try assumption. fractions. lra. }
  destruct Hsum as (Hfin & Hnn & Hlo & Hhi).
  apply is_finite_iff in Hfin.
  split; rewrite FloatAxioms.leb_spec;
    apply SFleb_of_mag; try apply Prim2SF_valid; try assumption;
    try exact I.
Qed.

Local Close Scope R_scope.

(** X25.  In binary64, a record without B-V index and without a class
    letter gets three draws, and for draws in [[0, 1)] each channel of its
    colour, [0.8 + Math.random() * 0.2], is in [[0.8, 1]], roundings
    included: no channel exceeds 1. *)
Theorem getStarColor_default_range (spectralClass : option string)
    (w : World) :
  spectralClass = None \/ spectralClass = Some ""%string ->
  drawsInRange cos64 sin64 w 3 ->
  exists c,
    getStarColor None spectralClass w = (inr c, advance 3 w)
    /\ (0.8 <=? cr c)%float = true /\ (cr c <=? 1)%float = true
    /\ (0.8 <=? cg c)%float = true /\ (cg c <=? 1)%float = true
    /\ (0.8 <=? cb c)%float = true /\ (cb c <=? 1)%float = true.
Proof.
  intros Hcls Hd.
  destruct (Hd 0%nat ltac:(lia)) as [H00 H01].
  destruct (Hd 1%nat ltac:(lia)) as [H10 H11].
  destruct (Hd 2%nat ltac:(lia)) as [H20 H21].
  destruct (jitter_channel _ H00 H01) as [R0 R1].
  destruct (jitter_channel _ H10 H11) as [G0 G1].
  destruct (jitter_channel _ H20 H21) as [B0 B1].
  exists (@THREE_Color (binary64 cos64 sin64)
            (0.8 + draw w 0 * 0.2)%float
            (0.8 + draw w 1 * 0.2)%float (0.8 + draw w 2 * 0.2)%float).
  split.
  - destruct w as [[d t] u].
    destruct Hcls as [->| ->]; reflexivity.
  - cbn [cr cg cb THREE_Color]. repeat split; assumption.
Qed.


(** *** The scene of the fallback catalog *)

Lemma randomStars_shape (count : nat) :
  forall from (w : World) stars,
    fst (randomStars count from w) = inr stars ->
    Forall (fun star => placedByAngles star = true
                        /\ colourDraws star = 0%nat) stars.
Proof.
  induction count as [|count IH]; intros from w stars H.
  - simpl in H. injection H as <-. constructor.
  - destruct (randomStar_returns from w) as [star Hs].
    destruct (randomStars_returns count (S from) (advance 5 w))
      as (rest & Hr & _).
    simpl randomStars in H. unfold bind at 1 in H. rewrite Hs in H.
    unfold bind at 1 in H. rewrite Hr in H. simpl in H.
    injection H as <-. constructor.
    + destruct (randomStar_fields _ _ _ Hs) as (_ & _ & _ & _ & _ & Hp & Hc).
      split; assumption.
    + apply (IH (S from) (advance 5 w)). rewrite Hr. reflexivity.
Qed.

Lemma one_draw_each (stars : list StarData) :
  Forall (fun star => placedByAngles star = true
                      /\ colourDraws star = 0%nat) stars ->
  forall k, (k <= length stars)%nat ->
    list_sum (map starDraws (firstn k stars)) = k.
Proof.
  induction 1 as [|star rest [Hp Hc] _ IH]; intros k Hk.
  - simpl in Hk. replace k with 0%nat by lia. reflexivity.
  - destruct k as [|k]; [reflexivity|]. simpl in Hk.
    simpl firstn. simpl map. simpl list_sum. rewrite (IH k) by lia.
    unfold starDraws. rewrite Hc.
    unfold placedByAngles in Hp. unfold positionDraws.
    destruct (hasCartesian star); [discriminate Hp|].
    destruct (star_ra star), (star_dec star), (star_distance star);
      try discriminate Hp. reflexivity.
Qed.

(** X4.  In binary64, the scene of the fallback catalog.  The [forEach]
    over the 2010 records that [generateSampleStarData] returns takes one
    draw a record and makes 2010 meshes; mesh [k] keeps record [k] and the
    index [k] as its user data and has the size of the record's
    magnitude.  The position it computes for record [k], before the
    Float32 buffer stores it, is [astronomicalToCartesian] of the record's
    angles at the distance [50 + r * 200] for the draw [r] of the record,
    and that distance is in [[50, 250)] when the draw is in [[0, 1)],
    roundings included. *)
Theorem fallback_scene (w0 w : World) :
  exists catalog meshes,
    fst (generateSampleStarData w0) = inr catalog
    /\ createStars catalog 0 w = (inr meshes, advance 2010 w)
    /\ length meshes = 2010%nat
    /\ forall k star,
         nth_error catalog k = Some star ->
         (exists mesh,
             nth_error meshes k = Some mesh
             /\ userData mesh = (star, k)
             /\ size mesh = magnitudeToSize (star_mag star))
         /\ exists ra dec,
              star_ra star = Some ra /\ star_dec star = Some dec
              /\ starPosition star (advance k w)
                 = (inr (astronomicalToCartesian ra dec
                           (Some (50 + draw w k * 200)%float)),
                    advance (S k) w)
              /\ ((0 <=? draw w k)%float = true ->
                  (draw w k <? 1)%float = true ->
                  (50 <=? 50 + draw w k * 200)%float = true
                  /\ (50 + draw w k * 200 <? 250)%float = true).
Proof.
  destruct (generateSampleStarData_returns w0) as (generated & Hg & Hr & Hl).
  assert (Hshape : Forall (fun star => placedByAngles star = true
                                       /\ colourDraws star = 0%nat)
                     (famousStars ++ generated)).
  { apply Forall_app. split.
    - repeat constructor.
    - exact (randomStars_shape 2000 0 w0 generated Hr). }
  assert (Hlen : length (famousStars ++ generated) = 2010%nat)
    by (rewrite length_app, Hl; reflexivity).
  destruct (createStars_one_mesh_per_record (famousStars ++ generated) 0 w)
    as (meshes & Hm & Hml & Hk).
  assert (Hall : list_sum (map starDraws (famousStars ++ generated))
                 = 2010%nat).
  { rewrite <- (firstn_all (famousStars ++ generated)), Hlen.
    apply one_draw_each; [exact Hshape|lia]. }
  rewrite Hall in Hm.
  exists (famousStars ++ generated), meshes.
  rewrite Hg. split; [reflexivity|]. split; [exact Hm|].
  split; [congruence|].
  intros k star Hn.
  assert (Hklt : (k < 2010)%nat).
  { rewrite <- Hlen. apply nth_error_Some. congruence. }
  split.
  - destruct (Hk k star Hn) as (mesh & Hnm & Hu & Hs & _).
    exists mesh. repeat split; assumption.
  - assert (Hp : placedByAngles star = true).
    { rewrite Forall_forall in Hshape.
      apply Hshape. eapply nth_error_In. exact Hn. }
    destruct (placedByAngles_position star (advance k w) Hp)
      as (ra & dec & Hra & Hdec & Hpos).
    exists ra, dec. split; [exact Hra|]. split; [exact Hdec|].
    rewrite draw_advance, advance_advance in Hpos. split; [exact Hpos|].
    intros H0 H1. destruct (offset_range _ H0 H1) as [Ho0 Ho1].
    exact (distance_range _ Ho0 Ho1).
Qed.

End FallbackOverDoubles.

(** ** Evaluations of the component *)

Section ComponentExamples.

(** The [stars] array wins although it is empty and listed second. *)
Lemma loadStarData_prefers_stars_witness :
  FileOutcome Scenario.parseBoth (Sample.fileWindow "both")
    (inr (JObject [("catalog"%string, JArray famousStars);
                   ("stars"%string, JArray [])]))
  /\ loadStarData Scenario.parseBoth (Sample.fileWindow "both")
       (Sample.world 0.5)
     = (inr [], with_ui (Sample.world 0.5) 0 false "").
Proof.
  assert (H : FileOutcome Scenario.parseBoth (Sample.fileWindow "both")
                (inr (JObject [("catalog"%string, JArray famousStars);
                               ("stars"%string, JArray [])]))).
  { eapply Parsed; reflexivity. }
  split; [exact H|].
  exact (proj1 (loadStarData_prefers_stars Scenario.parseBoth
                  (Sample.fileWindow "both") _ (Sample.world 0.5) H)
           [] eq_refl).
Defined.

(** The first generated record has the id 10, its index. *)
Lemma generated_id_is_index_witness :
  exists catalog star i,
    fst (generateSampleStarData (Sample.world 0.5)) = inr catalog
    /\ nth_error catalog (10 + 0) = Some star
    /\ star_id star = Some (IdNumber i)
    /\ @ToIndex Sample.engine i = Some (10 + 0)%nat.
Proof.
  apply (generated_id_is_index (fun _ => 1%float) (fun _ => 0%float)
           (Sample.world 0.5) 0).
  lia.
Defined.

(** With W held, three frames leave the view as it was, although a drag
    has moved the target. *)
Lemma rotation_waits_for_keys_witness :
  let f := frame (@actAll Sample.engine
                    [KeyDown "KeyW";
                     Pointer (@MouseDown Sample.engine 0%float 0%float);
                     Pointer (@MouseMove Sample.engine true 100%float
                                50%float)]
                    initialSession) in
  holdsWASD (controls f) = true
  /\ targetRotationY (controls f) = 1%float
  /\ currentRotationX (controls (frames Sample.camera64 3%nat f))
     = currentRotationX (controls f)
  /\ currentRotationY (controls (frames Sample.camera64 3%nat f)) = 0%float.
Proof.
  cbv zeta. split; [reflexivity|]. split; [reflexivity|].
  exact (proj1 (@rotation_waits_for_keys Sample.engine)
           Sample.camera64
           (frame (@actAll Sample.engine
                     [KeyDown "KeyW";
                      Pointer (@MouseDown Sample.engine 0%float 0%float);
                      Pointer (@MouseMove Sample.engine true 100%float
                                 50%float)]
                     initialSession))
           3%nat eq_refl).
Defined.

(** The first frame after mount puts the camera on the orbit, at
    [(0, 0, 500)]. *)
Lemma camera_after_frame_witness :
  let f := frame (@initialSession Tabled.engine) in
  let ahead := @THREE_Vector3 Tabled.engine 0%float 0%float (-1)%float in
  let above := @THREE_Vector3 Tabled.engine 0%float 1%float 0%float in
  holdsWASD (controls f) = false
  /\ cameraPosition (animate ahead above f)
     = @orbitPosition Tabled.engine 0%float 0%float 500%float
  /\ @orbitPosition Tabled.engine 0%float 0%float 500%float
     = @THREE_Vector3 Tabled.engine 0%float 0%float 500%float.
Proof.
  cbv zeta. split; [reflexivity|]. split; [|reflexivity].
  exact (proj1 (@camera_after_frame Tabled.engine
                  (@THREE_Vector3 Tabled.engine 0%float 0%float (-1)%float)
                  (@THREE_Vector3 Tabled.engine 0%float 1%float 0%float)
                  (frame (@initialSession Tabled.engine)))
           eq_refl eq_refl).
Defined.

(** The first generated record when every draw is one half. *)
Lemma generated_entries_in_range_witness :
  exists catalog star ra dec mag bv cls,
    fst (generateSampleStarData (Sample.world 0.5)) = inr catalog
    /\ nth_error catalog (10 + 0) = Some star
    /\ star_ra star = Some ra
    /\ (0 <=? ra)%float = true /\ (ra <? 24)%float = true
    /\ star_dec star = Some dec
    /\ (-90 <=? dec)%float = true /\ (dec <? 90)%float = true
    /\ star_mag star = Some mag
    /\ (-1 <=? mag)%float = true /\ (mag <? 7)%float = true
    /\ star_bv star = Some bv
    /\ (-0.6 <=? bv)%float = true /\ (bv <=? 1.4)%float = true
    /\ star_spectralClass star = Some cls
    /\ In cls spectralLetters.
Proof.
  apply (generated_entries_in_range (fun _ => 1%float) (fun _ => 0%float)
           (Sample.world 0.5) 0).
  - lia.
  - intros j Hj. split; reflexivity.
Defined.

(** The colour of a record without index and class when every draw is one
    half. *)
Lemma getStarColor_default_range_witness :
  exists c,
    getStarColor None None (Sample.world 0.5)
    = (inr c, advance 3 (Sample.world 0.5))
    /\ (0.8 <=? cr c)%float = true /\ (cr c <=? 1)%float = true
    /\ (0.8 <=? cg c)%float = true /\ (cg c <=? 1)%float = true
    /\ (0.8 <=? cb c)%float = true /\ (cb c <=? 1)%float = true.
Proof.
  apply (getStarColor_default_range (fun _ => 1%float) (fun _ => 0%float)
           None (Sample.world 0.5)).
  - left. reflexivity.
  - intros j Hj. split; reflexivity.
Defined.

End ComponentExamples.

